(** * The in-memory object store of bmd (package [memdb])

    A shallow embedding of the memory-only implementation of the
    [database.Db] interface in its two variants, of the driver registry of
    package [database] and the driver that the store registers with it, and
    of the RPC methods that work on the store ([rpcmethods.go]).

    Conventions of the embedding.
    - [uint64] values are integers in [Z]; an increment that Go performs
      modulo [2^64] is written with [wrap64].
    - A Go [map] is a [gmap].  A [nil] map that is only ever read is the
      empty map; where the code compares a map or a pointer with [nil] the
      field is an [option].
    - The mutex is not modelled: every method holds it from entry to return,
      so a method is one atomic step on the store.
    - A method returns its Go result together with the store it leaves
      behind: [outcome A * MemDb].  [Panic] is a call to [panic].
    - The order in which [for k := range m] visits a map is chosen by the Go
      runtime.  A method that ranges over a map takes that choice as an
      argument, a list of keys (see [rangeKeys]).
    - [time.Now()] is an argument of the method that reads the clock.
    - Memory is not bounded: an allocation that the runtime accepts
      succeeds.  A capacity that [make] refuses is a panic and is modelled
      (see [Runtime]).
    - A stored object is a list of bytes.  [InsertObject] and
      [FetchObjectsFromCounter] copy the bytes that cross the interface;
      [FetchObjectByHash] and [FetchObjectByCounter] do not: they return the
      slice that the hash index holds.  The methods are described as they
      act on the store; a write of the caller to a slice it was handed is a
      step of its own, [overwrite], and it changes the store.  Likewise
      [InsertObject] returns the pointer to the hash that it put into the
      counter.  For this reason what is said of the stored objects is said
      of one call at a time, with the state of the store before the call as
      a hypothesis, and not of every store that a program can reach. *)

From Stdlib Require Import ZArith Lia Strings.Byte.
From stdpp Require Import base strings gmap list sorting numbers.

Local Open Scope Z_scope.

#[global] Instance byte_eq_decision : EqDecision byte := byte_eq_dec.

(** ** Results and errors *)

(** The errors of package [database], and the errors handed up unchanged from
    the wire codec and the identity package, named after the call that
    produced them. *)
Inductive error : Set :=
  | ErrDbClosed
  | ErrDuplicateObject
  | ErrDbDoesNotExist
  | ErrDbUnknownType
  | ErrNotImplemented
  | ErrNonexistentObject
  | ErrDecodeMsgObjectHeader
  | ErrNewShaHash
  | ErrMsgPubKeyDecode
  | ErrIdentityFromPubKeyMsg.

Inductive outcome (A : Type) : Type :=
  | Ok (a : A)
  | Err (e : error)
  | Panic.
Arguments Ok {A} a.
Arguments Err {A} e.
Arguments Panic {A}.

Definition wrap64 (z : Z) : Z := z mod 2 ^ 64.

(** [wire.ObjectType] is a [uint32]; the four known types are numbered as the
    test tables of the package use them. *)
Definition ObjectType : Set := Z.
Definition ObjectTypeGetPubKey : ObjectType := 0.
Definition ObjectTypePubKey : ObjectType := 1.
Definition ObjectTypeMsg : ObjectType := 2.
Definition ObjectTypeBroadcast : ObjectType := 3.

Definition knownType (t : ObjectType) : Prop :=
  t = ObjectTypeBroadcast ∨ t = ObjectTypeMsg
  ∨ t = ObjectTypePubKey ∨ t = ObjectTypeGetPubKey.

(** [time.Time] and [time.Duration] in nanoseconds. *)
Definition Hour : Z := 3600 * 1000000000.

(** ** Ranging over a map *)

(** [rangeKeys sched m] is the order in which one [range] loop visits the keys
    of [m].  The runtime's choice is [sched]: the keys of [m] that [sched]
    lists come first, in the order of [sched]; keys it does not list follow.
    Every order of the keys of [m] arises this way (take [sched] to be that
    order), and whatever [sched] is, every key is visited exactly once. *)
Definition rangeKeys `{Countable K} {V : Type} (sched : list K) (m : gmap K V)
    : list K :=
  let front := filter (λ k, is_Some (m !! k)) (remove_dups sched) in
  front ++ filter (λ k, k ∉ front) (map_to_list m).*1.

(** ** The runtime *)

(** [make([]uint64, 0, n)] panics ([makeslice: cap out of range]) when [n]
    is more than the runtime accepts as the capacity of such a slice: a
    number that depends on the platform and on the version of Go, since the
    capacity must fit an [int] and eight times the capacity must stay within
    what the allocator takes.  [maxSliceCap] is the largest capacity that is
    accepted.  A capacity that is accepted and cannot be served is an
    exhaustion of memory, not a panic, and is not modelled. *)
Class Runtime : Type := {
  maxSliceCap : Z
}.

(** ** The codec boundary *)

(** What the store calls in packages [wire], [bmutil] and [identity].  Their
    code is not part of this repository; the store is verified for every
    implementation of them. *)
Record ObjHeader : Set := mkObjHeader {
  expiresTime : Z;
  objType : ObjectType
}.

Class Wire (ShaHash : Type) : Type := {
  (** [wire.DecodeMsgObjectHeader]: [None] when it returns an error. *)
  DecodeMsgObjectHeader : list byte → option ObjHeader;
  (** [bmutil.CalcInventoryHash]. *)
  CalcInventoryHash : list byte → list byte;
  (** [wire.NewShaHash]: [None] when it returns an error. *)
  NewShaHash : list byte → option ShaHash;
  (** [wire.MsgPubKey], its [Decode], its [Version] and [Tag.Bytes()]. *)
  MsgPubKey : Type;
  MsgPubKey_Decode : list byte → option MsgPubKey;
  Version : MsgPubKey → Z;
  Tag_Bytes : MsgPubKey → list byte;
  (** [identity.IdentityFromPubKeyMsg] followed by [id.Address.Tag()]. *)
  IdentityFromPubKeyMsg : MsgPubKey → option (list byte);
  SimplePubKeyVersion : Z;
  ExtendedPubKeyVersion : Z;
  EncryptedPubKeyVersion : Z
}.

(** ** The store *)

Section Engine.
Context {ShaHash : Type} `{Countable ShaHash} {W : Wire ShaHash} {R : Runtime}.

(** [type counter struct]. *)
Record counter : Type := mkCounter {
  ByCounter : gmap Z ShaHash;
  CounterPos : Z
}.

(** [func (cmap *counter) Insert(hash *wire.ShaHash)]. *)
Definition counter_Insert (hash : ShaHash) (cmap : counter) : counter :=
  let pos := wrap64 (CounterPos cmap + 1) in
  mkCounter (<[pos := hash]> (ByCounter cmap)) pos.

(** [type MemDb struct].  The four typed counters are pointers. *)
Record MemDb : Type := mkMemDb {
  objectsByHash : gmap ShaHash (list byte);
  pubKeyByTag : gmap ShaHash (list byte);
  msgCounter : option counter;
  broadcastCounter : option counter;
  pubKeyCounter : option counter;
  getPubKeyCounter : option counter;
  unknownObjCounter : gmap ObjectType counter;
  closed : bool
}.

Definition set_objectsByHash (m : gmap ShaHash (list byte)) (db : MemDb) : MemDb :=
  mkMemDb m (pubKeyByTag db) (msgCounter db) (broadcastCounter db)
    (pubKeyCounter db) (getPubKeyCounter db) (unknownObjCounter db) (closed db).

Definition set_pubKeyByTag (m : gmap ShaHash (list byte)) (db : MemDb) : MemDb :=
  mkMemDb (objectsByHash db) m (msgCounter db) (broadcastCounter db)
    (pubKeyCounter db) (getPubKeyCounter db) (unknownObjCounter db) (closed db).

Definition set_unknownObjCounter (m : gmap ObjectType counter) (db : MemDb) : MemDb :=
  mkMemDb (objectsByHash db) (pubKeyByTag db) (msgCounter db) (broadcastCounter db)
    (pubKeyCounter db) (getPubKeyCounter db) m (closed db).

(** [newMemDb]. *)
Definition newMemDb : MemDb :=
  mkMemDb ∅ ∅ (Some (mkCounter ∅ 0)) (Some (mkCounter ∅ 0))
    (Some (mkCounter ∅ 0)) (Some (mkCounter ∅ 0)) ∅ false.

(** [getCounterMap]: the counter of [objType], a pointer into the store.  For
    a type that is none of the four known ones the counter is created on
    first use, so the call may change the store. *)
Definition getCounterMap (objType : ObjectType) (db : MemDb)
    : option counter * MemDb :=
  if decide (objType = ObjectTypeBroadcast) then (broadcastCounter db, db)
  else if decide (objType = ObjectTypeMsg) then (msgCounter db, db)
  else if decide (objType = ObjectTypePubKey) then (pubKeyCounter db, db)
  else if decide (objType = ObjectTypeGetPubKey) then (getPubKeyCounter db, db)
  else
    match unknownObjCounter db !! objType with
    | Some count => (Some count, db)
    | None =>
        let count := mkCounter ∅ 0 in
        (Some count,
         set_unknownObjCounter (<[objType := count]> (unknownObjCounter db)) db)
    end.

(** The counter the store holds for [objType], if it holds one: what
    [getCounterMap] finds before it creates anything. *)
Definition counterOf (objType : ObjectType) (db : MemDb) : option counter :=
  if decide (objType = ObjectTypeBroadcast) then broadcastCounter db
  else if decide (objType = ObjectTypeMsg) then msgCounter db
  else if decide (objType = ObjectTypePubKey) then pubKeyCounter db
  else if decide (objType = ObjectTypeGetPubKey) then getPubKeyCounter db
  else unknownObjCounter db !! objType.

(** The position of the counter of [objType]; a counter that does not exist
    yet starts at 0. *)
Definition position (objType : ObjectType) (db : MemDb) : Z :=
  match counterOf objType db with
  | Some c => CounterPos c
  | None => 0
  end.

(** A write through the pointer that [getCounterMap objType] returned. *)
Definition setCounterMap (objType : ObjectType) (c : counter) (db : MemDb) : MemDb :=
  if decide (objType = ObjectTypeBroadcast) then
    mkMemDb (objectsByHash db) (pubKeyByTag db) (msgCounter db) (Some c)
      (pubKeyCounter db) (getPubKeyCounter db) (unknownObjCounter db) (closed db)
  else if decide (objType = ObjectTypeMsg) then
    mkMemDb (objectsByHash db) (pubKeyByTag db) (Some c) (broadcastCounter db)
      (pubKeyCounter db) (getPubKeyCounter db) (unknownObjCounter db) (closed db)
  else if decide (objType = ObjectTypePubKey) then
    mkMemDb (objectsByHash db) (pubKeyByTag db) (msgCounter db) (broadcastCounter db)
      (Some c) (getPubKeyCounter db) (unknownObjCounter db) (closed db)
  else if decide (objType = ObjectTypeGetPubKey) then
    mkMemDb (objectsByHash db) (pubKeyByTag db) (msgCounter db) (broadcastCounter db)
      (pubKeyCounter db) (Some c) (unknownObjCounter db) (closed db)
  else set_unknownObjCounter (<[objType := c]> (unknownObjCounter db)) db.

(** [Close]. *)
Definition Close (db : MemDb) : outcome unit * MemDb :=
  if closed db then (Err ErrDbClosed, db)
  else (Ok tt, mkMemDb ∅ ∅ None None None None ∅ true).

(** [ExistsObject]. *)
Definition ExistsObject (hash : ShaHash) (db : MemDb) : outcome bool * MemDb :=
  if closed db then (Err ErrDbClosed, db)
  else
    match objectsByHash db !! hash with
    | Some _ => (Ok true, db)
    | None => (Ok false, db)
    end.

(** [fetchObjectByHash]: no lock, no liveness check.  The result is the slice
    that the hash index holds, [return object, nil], not a copy of it: see
    [overwrite]. *)
Definition fetchObjectByHash (hash : ShaHash) (db : MemDb) : outcome (list byte) :=
  match objectsByHash db !! hash with
  | Some object => Ok object
  | None => Err ErrNonexistentObject
  end.

(** [FetchObjectByHash]: what [fetchObjectByHash] returns is handed to the
    caller as it is. *)
Definition FetchObjectByHash (hash : ShaHash) (db : MemDb)
    : outcome (list byte) * MemDb :=
  if closed db then (Err ErrDbClosed, db)
  else (fetchObjectByHash hash db, db).

(** [FetchObjectByCounter]: [obj] is what [fetchObjectByHash] returned, handed
    to the caller as it is. *)
Definition FetchObjectByCounter (objType : ObjectType) (counter : Z) (db : MemDb)
    : outcome (list byte) * MemDb :=
  if closed db then (Err ErrDbClosed, db)
  else
    let '(counterMap, db) := getCounterMap objType db in
    match counterMap with
    | None => (Err ErrNotImplemented, db)
    | Some counterMap =>
        match ByCounter counterMap !! counter with
        | None => (Err ErrNonexistentObject, db)
        | Some hash =>
            match fetchObjectByHash hash db with
            | Ok obj => (Ok obj, db)
            | _ => (Panic, db)
            end
        end
    end.


(** The first loop of [FetchObjectsFromCounter]: [order] is the order in which
    the keys are visited, [c] the number of keys kept so far. *)
Fixpoint collectKeys (order : list Z) (counter count c : Z) (keys : list Z)
    : list Z * Z :=
  match order with
  | [] => (keys, c)
  | k :: order =>
      if decide (k < counter) then collectKeys order counter count c keys
      else if decide (c >= count) then (keys, c)
      else collectKeys order counter count (wrap64 (c + 1)) (keys ++ [k])
  end.

(** The second loop of [FetchObjectsFromCounter]: the objects of [keys], each
    copied. *)
Fixpoint fetchKeys (counterMap : counter) (db : MemDb) (keys : list Z)
    : outcome (list (list byte)) :=
  match keys with
  | [] => Ok []
  | v :: keys =>
      match ByCounter counterMap !! v with
      | None => Panic
      | Some hash =>
          match fetchObjectByHash hash db with
          | Ok obj =>
              match fetchKeys counterMap db keys with
              | Ok objects => Ok (obj :: objects)
              | r => r
              end
          | Err ErrNonexistentObject => Panic
          | Err e => Err e
          | Panic => Panic
          end
      end
  end.

(** [FetchObjectsFromCounter].  [sched] is the runtime's choice for the range
    over [counterMap.ByCounter].  The first statement after the counter was
    looked up is [keys := make([]uint64, 0, count)], which panics when
    [count] is more than the runtime accepts.  The capacity [c] of the second
    [make] is the number of keys kept, which is at most the number of keys
    the counter holds. *)
Definition FetchObjectsFromCounter (sched : list Z) (objType : ObjectType)
    (counter count : Z) (db : MemDb) : outcome (list (list byte) * Z) * MemDb :=
  if closed db then (Err ErrDbClosed, db)
  else
    let '(counterMap, db) := getCounterMap objType db in
    match counterMap with
    | None => (Err ErrNotImplemented, db)
    | Some counterMap =>
        if decide (maxSliceCap < count) then (Panic, db)
        else
          let '(keys, _) :=
            collectKeys (rangeKeys sched (ByCounter counterMap)) counter count 0 [] in
          let keys := merge_sort Z.le keys in
          let newCounter := default 0 (list.last keys) in
          match fetchKeys counterMap db keys with
          | Ok objects => (Ok (objects, newCounter), db)
          | Err e => (Err e, db)
          | Panic => (Panic, db)
          end
    end.

(** [getCounterRef]. *)
Definition getCounterRef (objType : ObjectType) (db : MemDb)
    : outcome Z * MemDb :=
  let '(counterMap, db) := getCounterMap objType db in
  match counterMap with
  | None => (Panic, db)
  | Some counterMap => (Ok (CounterPos counterMap), db)
  end.

(** [GetCounter].  [getCounterRef] returns the address of a field, which is
    never [nil], so the final [ErrNotImplemented] of the Go text is never
    reached. *)
Definition GetCounter (objType : ObjectType) (db : MemDb) : outcome Z * MemDb :=
  if closed db then (Err ErrDbClosed, db)
  else getCounterRef objType db.

(** The tag of a public key, as the [switch msg.Version] of [InsertObject]
    computes it; the tag stays [nil] for a version that is none of the three. *)
Definition pubKeyTag (msg : MsgPubKey) : error + list byte :=
  if decide (Version msg = SimplePubKeyVersion
             ∨ Version msg = ExtendedPubKeyVersion) then
    match IdentityFromPubKeyMsg msg with
    | None => inl ErrIdentityFromPubKeyMsg
    | Some tag => inr tag
    end
  else if decide (Version msg = EncryptedPubKeyVersion) then inr (Tag_Bytes msg)
  else inr [].

(** The [if objType == wire.ObjectTypePubKey] block of [InsertObject]. *)
Definition insertPubKey (data dataInsert : list byte) (db : MemDb)
    : error + MemDb :=
  match MsgPubKey_Decode data with
  | None => inl ErrMsgPubKeyDecode
  | Some msg =>
      match pubKeyTag msg with
      | inl e => inl e
      | inr tag =>
          match NewShaHash tag with
          | None => inl ErrNewShaHash
          | Some tagH => inr (set_pubKeyByTag (<[tagH := dataInsert]> (pubKeyByTag db)) db)
          end
      end
  end.

(** [InsertObject]. *)
Definition InsertObject (data : list byte) (db : MemDb)
    : outcome (ShaHash * Z) * MemDb :=
  if closed db then (Err ErrDbClosed, db)
  else
    match DecodeMsgObjectHeader data with
    | None => (Err ErrDecodeMsgObjectHeader, db)
    | Some hdr =>
        match NewShaHash (CalcInventoryHash data) with
        | None => (Err ErrNewShaHash, db)
        | Some hash =>
            let dataInsert := data in
            match (if decide (objType hdr = ObjectTypePubKey)
                   then insertPubKey data dataInsert db else inr db) with
            | inl e => (Err e, db)
            | inr db =>
                let db := set_objectsByHash (<[hash := dataInsert]> (objectsByHash db)) db in
                let '(counterMap, db) := getCounterMap (objType hdr) db in
                match counterMap with
                | None => (Ok (hash, 0), db)
                | Some counterMap =>
                    let counterMap := counter_Insert hash counterMap in
                    (Ok (hash, CounterPos counterMap),
                     setCounterMap (objType hdr) counterMap db)
                end
            end
        end
    end.

(** The loop [for k, v := range counterMap.ByCounter] shared by [RemoveObject]
    and [RemoveExpiredObjects]: the first visited entry that holds [hash] is
    deleted and the loop stops. *)
Fixpoint deleteFirstMatch (order : list Z) (hash : ShaHash) (m : gmap Z ShaHash)
    : gmap Z ShaHash :=
  match order with
  | [] => m
  | k :: order =>
      if decide (m !! k = Some hash) then delete k m
      else deleteFirstMatch order hash m
  end.

(** The [if counterMap != nil] block around that loop. *)
Definition removeFromCounter (sched : list Z) (objType : ObjectType)
    (hash : ShaHash) (db : MemDb) : MemDb :=
  let '(counterMap, db) := getCounterMap objType db in
  match counterMap with
  | None => db
  | Some counterMap =>
      let m := ByCounter counterMap in
      setCounterMap objType
        (mkCounter (deleteFirstMatch (rangeKeys sched m) hash m) (CounterPos counterMap))
        db
  end.

(** [RemoveObject]. *)
Definition RemoveObject (sched : list Z) (hash : ShaHash) (db : MemDb)
    : outcome unit * MemDb :=
  if closed db then (Err ErrDbClosed, db)
  else
    match objectsByHash db !! hash with
    | None => (Err ErrNonexistentObject, db)
    | Some obj =>
        match DecodeMsgObjectHeader obj with
        | None => (Panic, db)
        | Some hdr =>
            let db := removeFromCounter sched (objType hdr) hash db in
            (Ok tt, set_objectsByHash (delete hash (objectsByHash db)) db)
        end
    end.

(** [RemoveObjectByCounter]. *)
Definition RemoveObjectByCounter (objType : ObjectType) (counter : Z) (db : MemDb)
    : outcome unit * MemDb :=
  if closed db then (Err ErrDbClosed, db)
  else
    let '(counterMap, db) := getCounterMap objType db in
    match counterMap with
    | None => (Err ErrNotImplemented, db)
    | Some counterMap =>
        match ByCounter counterMap !! counter with
        | None => (Err ErrNonexistentObject, db)
        | Some hash =>
            let db :=
              setCounterMap objType
                (mkCounter (delete counter (ByCounter counterMap)) (CounterPos counterMap))
                db in
            (Ok tt, set_objectsByHash (delete hash (objectsByHash db)) db)
        end
    end.

(** The test [time.Now().Add(-time.Hour*3).After(expiresTime) && objType !=
    wire.ObjectTypePubKey]. *)
Definition expired (now : Z) (hdr : ObjHeader) : bool :=
  bool_decide (expiresTime hdr < now - Hour * 3)
  && negb (bool_decide (objType hdr = ObjectTypePubKey)).

(** The loop of [RemoveExpiredObjects] over the entries [hashes] of
    [objectsByHash].  The loop deletes no entry but the one it is visiting, so
    the entries it visits are those present when it starts.  [now hash] is
    what [time.Now()] returns while the loop visits [hash], and [inner hash]
    is the runtime's choice for the range over the counter map while [hash]
    is being removed. *)
Fixpoint sweep (now : ShaHash → Z) (inner : ShaHash → list Z) (hashes : list ShaHash)
    (db : MemDb) : outcome unit * MemDb :=
  match hashes with
  | [] => (Ok tt, db)
  | hash :: hashes =>
      match objectsByHash db !! hash with
      | None => sweep now inner hashes db
      | Some obj =>
          match DecodeMsgObjectHeader obj with
          | None => (Panic, db)
          | Some hdr =>
              if expired (now hash) hdr then
                let db := removeFromCounter (inner hash) (objType hdr) hash db in
                sweep now inner hashes
                  (set_objectsByHash (delete hash (objectsByHash db)) db)
              else sweep now inner hashes db
          end
      end
  end.

(** [RemoveExpiredObjects]; [outer] is the runtime's choice for the range over
    [objectsByHash]. *)
Definition RemoveExpiredObjects (now : ShaHash → Z) (outer : list ShaHash)
    (inner : ShaHash → list Z) (db : MemDb) : outcome unit * MemDb :=
  if closed db then (Err ErrDbClosed, db)
  else sweep now inner (rangeKeys outer (objectsByHash db)) db.

(** [RemovePubKey]. *)
Definition RemovePubKey (tag : ShaHash) (db : MemDb) : outcome unit * MemDb :=
  if closed db then (Err ErrDbClosed, db)
  else
    match pubKeyByTag db !! tag with
    | None => (Err ErrNonexistentObject, db)
    | Some _ => (Ok tt, set_pubKeyByTag (delete tag (pubKeyByTag db)) db)
    end.

(** [RollbackClose]. *)
Definition RollbackClose (db : MemDb) : outcome unit * MemDb := Close db.

(** The four typed counters of an open store are allocated: [newMemDb] sets
    the pointers and only [Close] resets them. *)
Definition allocated (db : MemDb) : Prop :=
  is_Some (msgCounter db) ∧ is_Some (broadcastCounter db)
  ∧ is_Some (pubKeyCounter db) ∧ is_Some (getPubKeyCounter db).

(** [steady db db']: going from [db] to [db'] moves no counter position and
    keeps the typed counters allocated. *)
Definition steady (db db' : MemDb) : Prop :=
  (∀ objType, position objType db' = position objType db)
  ∧ (allocated db → allocated db').

(** *** The invariants the store is meant to keep *)

(** I1: every hash that a counter holds is in the hash index. *)
Definition noDangling (db : MemDb) : Prop :=
  ∀ objType c k hash,
    counterOf objType db = Some c → ByCounter c !! k = Some hash →
    is_Some (objectsByHash db !! hash).

(** I2 (second half): a counter holds a hash under one key only. *)
Definition noDuplicates (db : MemDb) : Prop :=
  ∀ objType c k1 k2 hash,
    counterOf objType db = Some c →
    ByCounter c !! k1 = Some hash → ByCounter c !! k2 = Some hash → k1 = k2.

(** Every hash that the counter of a type holds is the hash of a stored object
    of that type; this is I1 with the type added. *)
Definition wellTyped (db : MemDb) : Prop :=
  ∀ objT c k hash,
    counterOf objT db = Some c → ByCounter c !! k = Some hash →
    ∃ obj hdr,
      objectsByHash db !! hash = Some obj
      ∧ DecodeMsgObjectHeader obj = Some hdr ∧ objType hdr = objT.

Definition consistent (db : MemDb) : Prop := wellTyped db ∧ noDuplicates db.

(** The objects that a check at time [now] finds to be removed. *)
Definition doomed (now : Z) (obj : list byte) : bool :=
  match DecodeMsgObjectHeader obj with
  | Some hdr => expired now hdr
  | None => false
  end.

(** [hash] is the hash of a stored object of type [objT] that
    [RemoveExpiredObjects] is to remove. *)
Definition swept (now : ShaHash → Z) (objT : ObjectType) (db : MemDb)
    (hash : ShaHash) : Prop :=
  ∃ obj hdr,
    objectsByHash db !! hash = Some obj ∧ DecodeMsgObjectHeader obj = Some hdr
    ∧ expired (now hash) hdr = true ∧ objType hdr = objT.

(** The header of every stored object decodes; [InsertObject] stores no other
    objects. *)
Definition decodable (db : MemDb) : Prop :=
  ∀ hash obj, objectsByHash db !! hash = Some obj →
    is_Some (DecodeMsgObjectHeader obj).

(** [Sync]. *)
Definition Sync (db : MemDb) : outcome unit * MemDb :=
  if closed db then (Err ErrDbClosed, db) else (Ok tt, db).

End Engine.

Arguments counter ShaHash : clear implicits.
Arguments MemDb ShaHash {_ _}.

(** ** Paging through a counter: [rpcServer.sendOldObjects] *)

Section Paging.
Context {ShaHash : Type} `{Countable ShaHash} {R : Runtime}.

Inductive progress : Set :=
  | Finished    (* the last page was short: [return nil] *)
  | Failed      (* [FetchObjectsFromCounter] returned an error or panicked *)
  | Unfinished. (* the calls listed in [scheds] were all used up *)

(** [sendOldObjects]: the pages handed to the client, in order.  The function
    calls itself with [lastCount] as long as a page is full; [size] is
    [rpcCounterObjectsSize].  [scheds] holds the runtime's choice of range
    order for each call of [FetchObjectsFromCounter] in turn, and bounds the
    number of calls. *)
Fixpoint sendOldObjects (scheds : list (list Z)) (objType : ObjectType)
    (fromCounter size : Z) (db : MemDb ShaHash)
    : list (list (list byte)) * progress :=
  match scheds with
  | [] => ([], Unfinished)
  | sched :: scheds =>
      match FetchObjectsFromCounter sched objType fromCounter size db with
      | (Ok (objs, lastCount), db) =>
          if decide (Z.of_nat (length objs) = size) then
            let '(pages, p) := sendOldObjects scheds objType lastCount size db in
            (objs :: pages, p)
          else ([objs], Finished)
      | _ => ([], Failed)
      end
  end.



(** The object stored under the key [k] of a counter. *)
Definition objectAt (c : counter ShaHash) (db : MemDb ShaHash) (k : Z) : list byte :=
  default [] (ByCounter c !! k ≫= λ hash, objectsByHash db !! hash).

(** The keys of a counter map in ascending order. *)
Definition ascending (m : gmap Z ShaHash) : list Z :=
  merge_sort Z.le (map_to_list m).*1.


End Paging.

(** ** Sequences of calls *)

Section Calls.
Context {ShaHash : Type} `{Countable ShaHash} {W : Wire ShaHash} {R : Runtime}.

(** The calls that change the store. *)
Inductive call : Type :=
  | CallInsertObject (data : list byte)
  | CallRemoveObject (sched : list Z) (hash : ShaHash)
  | CallRemoveObjectByCounter (objType : ObjectType) (counter : Z)
  | CallRemoveExpiredObjects (now : ShaHash → Z) (outer : list ShaHash)
      (inner : ShaHash → list Z)
  | CallRemovePubKey (tag : ShaHash)
  | CallGetCounter (objType : ObjectType)
  | CallFetchObjectByCounter (objType : ObjectType) (counter : Z)
  | CallFetchObjectsFromCounter (sched : list Z) (objType : ObjectType)
      (counter count : Z)
  | CallClose.

(** The result of a call that is not a successful insert. *)
Definition quiet {A : Type} (r : outcome A * MemDb ShaHash)
    : outcome (option (ObjectType * Z)) * MemDb ShaHash :=
  match r with
  | (Ok _, db) => (Ok None, db)
  | (Err e, db) => (Err e, db)
  | (Panic, db) => (Panic, db)
  end.

(** One call; for a successful [InsertObject] the result holds the type of
    the object and the counter that was returned. *)
Definition exec (c : call) (db : MemDb ShaHash)
    : outcome (option (ObjectType * Z)) * MemDb ShaHash :=
  match c with
  | CallInsertObject data =>
      match InsertObject data db with
      | (Ok (_, n), db) =>
          match DecodeMsgObjectHeader data with
          | Some hdr => (Ok (Some (objType hdr, n)), db)
          | None => (Ok None, db)
          end
      | (Err e, db) => (Err e, db)
      | (Panic, db) => (Panic, db)
      end
  | CallRemoveObject sched hash => quiet (RemoveObject sched hash db)
  | CallRemoveObjectByCounter objType counter =>
      quiet (RemoveObjectByCounter objType counter db)
  | CallRemoveExpiredObjects now outer inner =>
      quiet (RemoveExpiredObjects now outer inner db)
  | CallRemovePubKey tag => quiet (RemovePubKey tag db)
  | CallGetCounter objType => quiet (GetCounter objType db)
  | CallFetchObjectByCounter objType counter =>
      quiet (FetchObjectByCounter objType counter db)
  | CallFetchObjectsFromCounter sched objType counter count =>
      quiet (FetchObjectsFromCounter sched objType counter count db)
  | CallClose => quiet (Close db)
  end.

(** A call that does not insert an object the store already holds. *)
Definition freshInsert (c : call) (db : MemDb ShaHash) : Prop :=
  match c with
  | CallInsertObject data =>
      ∀ hash, NewShaHash (CalcInventoryHash data) = Some hash →
        objectsByHash db !! hash = None
  | _ => True
  end.


(** The counters returned by the successful inserts of objects of type [objT]
    in a sequence of calls, in order, and the store at the end.  A panic ends
    the process. *)
Fixpoint insertedCounters (objT : ObjectType) (calls : list call)
    (db : MemDb ShaHash) : list Z * MemDb ShaHash :=
  match calls with
  | [] => ([], db)
  | c :: calls =>
      match exec c db with
      | (Panic, db) => ([], db)
      | (Ok (Some (t, n)), db) =>
          let '(l, db) := insertedCounters objT calls db in
          (if decide (t = objT) then n :: l else l, db)
      | (_, db) => insertedCounters objT calls db
      end
  end.

End Calls.

(** ** The earlier variant of the store ([database/memdb/memdb.go])

    It keeps counters for messages and broadcasts only, as plain maps, and
    leaves the mutating methods unimplemented. *)

Module Earlier.
Section Engine.
Context {ShaHash : Type} `{Countable ShaHash} {R : Runtime}.

(** [type object struct]. *)
Record object : Type := mkObject {
  objType : ObjectType;
  counter : Z;
  data : list byte
}.

(** [type MemDb struct]; [Close] sets the two counter maps to [nil] and
    [getCounterMap] compares with [nil]. *)
Record MemDb : Type := mkMemDb {
  objectsByHash : gmap ShaHash object;
  msgByCounter : option (gmap Z ShaHash);
  broadcastByCounter : option (gmap Z ShaHash);
  closed : bool
}.

Definition newMemDb : MemDb := mkMemDb ∅ (Some ∅) (Some ∅) false.

Definition getCounterMap (objType : ObjectType) (db : MemDb)
    : option (gmap Z ShaHash) :=
  if decide (objType = ObjectTypeBroadcast) then broadcastByCounter db
  else if decide (objType = ObjectTypeMsg) then msgByCounter db
  else None.

Definition Close (db : MemDb) : outcome unit * MemDb :=
  if closed db then (Err ErrDbClosed, db)
  else (Ok tt, mkMemDb ∅ None None true).

Definition ExistsObject (hash : ShaHash) (db : MemDb) : outcome bool * MemDb :=
  if closed db then (Err ErrDbClosed, db)
  else
    match objectsByHash db !! hash with
    | Some _ => (Ok true, db)
    | None => (Ok false, db)
    end.

Definition fetchObjectByHash (hash : ShaHash) (db : MemDb) : outcome (list byte) :=
  match objectsByHash db !! hash with
  | Some object => Ok (data object)
  | None => Err ErrNonexistentObject
  end.

Definition FetchObjectByHash (hash : ShaHash) (db : MemDb)
    : outcome (list byte) * MemDb :=
  if closed db then (Err ErrDbClosed, db)
  else (fetchObjectByHash hash db, db).

Definition FetchObjectByCounter (objType : ObjectType) (counter : Z) (db : MemDb)
    : outcome (list byte) * MemDb :=
  if closed db then (Err ErrDbClosed, db)
  else
    match getCounterMap objType db with
    | None => (Err ErrNotImplemented, db)
    | Some counterMap =>
        match counterMap !! counter with
        | None => (Err ErrNonexistentObject, db)
        | Some hash =>
            match objectsByHash db !! hash with
            | Some obj => (Ok (data obj), db)
            | None => (Panic, db)
            end
        end
    end.

Fixpoint fetchKeys (counterMap : gmap Z ShaHash) (db : MemDb) (keys : list Z)
    : outcome (list (list byte)) :=
  match keys with
  | [] => Ok []
  | v :: keys =>
      match counterMap !! v with
      | None => Panic
      | Some hash =>
          match fetchObjectByHash hash db with
          | Ok obj =>
              match fetchKeys counterMap db keys with
              | Ok objects => Ok (obj :: objects)
              | r => r
              end
          | Err ErrNonexistentObject => Panic
          | Err e => Err e
          | Panic => Panic
          end
      end
  end.

(** [FetchObjectsFromCounter]: the liveness flag is not read, [make] panics
    on a [count] that the runtime does not accept, and [keys[len(keys)-1]]
    is evaluated whether or not [keys] is empty. *)
Definition FetchObjectsFromCounter (sched : list Z) (objType : ObjectType)
    (counter count : Z) (db : MemDb) : outcome (list (list byte) * Z) * MemDb :=
  match getCounterMap objType db with
  | None => (Err ErrNotImplemented, db)
  | Some counterMap =>
      if decide (maxSliceCap < count) then (Panic, db)
      else
        let '(keys, _) :=
          collectKeys (rangeKeys sched counterMap) counter count 0 [] in
        let keys := merge_sort Z.le keys in
        match list.last keys with
        | None => (Panic, db)
        | Some newCounter =>
            match fetchKeys counterMap db keys with
            | Ok objects => (Ok (objects, newCounter), db)
            | Err e => (Err e, db)
            | Panic => (Panic, db)
            end
        end
  end.

Definition GetCounter (objType : ObjectType) (db : MemDb) : outcome Z * MemDb :=
  (Err ErrNotImplemented, db).

Definition InsertObject (objType : ObjectType) (data : list byte) (db : MemDb)
    : outcome unit * MemDb :=
  (Err ErrNotImplemented, db).

Definition RemoveObject (hash : ShaHash) (db : MemDb) : outcome unit * MemDb :=
  (Err ErrNotImplemented, db).

Definition RemoveObjectByCounter (objType : ObjectType) (counter : Z) (db : MemDb)
    : outcome unit * MemDb :=
  (Err ErrNotImplemented, db).

Definition RollbackClose (db : MemDb) : outcome unit * MemDb := Close db.

Definition Sync (db : MemDb) : outcome unit * MemDb :=
  if closed db then (Err ErrDbClosed, db) else (Ok tt, db).

End Engine.
End Earlier.

(** A run of the earlier variant: every method of the interface may be
    called.  Of these only [Close] and [RollbackClose] write to the store. *)
Module EarlierCalls.
Section Calls.
Context {ShaHash : Type} `{Countable ShaHash} {Address Public : Type} {R : Runtime}.

(** [FetchIdentityByAddress], [ExistsGetPubKey] and [FetchRandomObject] of
    the earlier variant: one [return] each. *)
Definition FetchIdentityByAddress (addr : Address)
    (db : Earlier.MemDb (ShaHash := ShaHash))
    : outcome Public * Earlier.MemDb (ShaHash := ShaHash) :=
  (Err ErrNotImplemented, db).

Definition ExistsGetPubKey (addr : Address)
    (db : Earlier.MemDb (ShaHash := ShaHash))
    : outcome bool * Earlier.MemDb (ShaHash := ShaHash) :=
  (Err ErrNotImplemented, db).

Definition FetchRandomObject (db : Earlier.MemDb (ShaHash := ShaHash))
    : outcome (list byte) * Earlier.MemDb (ShaHash := ShaHash) :=
  (Err ErrNotImplemented, db).

Inductive call : Type :=
  | CallExistsObject (hash : ShaHash)
  | CallFetchObjectByHash (hash : ShaHash)
  | CallFetchObjectByCounter (objType : ObjectType) (counter : Z)
  | CallFetchObjectsFromCounter (sched : list Z) (objType : ObjectType)
      (counter count : Z)
  | CallFetchIdentityByAddress (addr : Address)
  | CallExistsGetPubKey (addr : Address)
  | CallFetchRandomObject
  | CallGetCounter (objType : ObjectType)
  | CallInsertObject (objType : ObjectType) (data : list byte)
  | CallRemoveObject (hash : ShaHash)
  | CallRemoveObjectByCounter (objType : ObjectType) (counter : Z)
  | CallSync
  | CallRollbackClose
  | CallClose.

(** One call: whether it returned ([false] is a panic) and the store it
    left. *)
Definition exec (c : call) (db : Earlier.MemDb (ShaHash := ShaHash))
    : bool * Earlier.MemDb (ShaHash := ShaHash) :=
  let returned {A} (r : outcome A * Earlier.MemDb (ShaHash := ShaHash)) :=
    (match r.1 with Panic => false | _ => true end, r.2) in
  match c with
  | CallExistsObject hash => returned (Earlier.ExistsObject hash db)
  | CallFetchObjectByHash hash => returned (Earlier.FetchObjectByHash hash db)
  | CallFetchObjectByCounter objType counter =>
      returned (Earlier.FetchObjectByCounter objType counter db)
  | CallFetchObjectsFromCounter sched objType counter count =>
      returned (Earlier.FetchObjectsFromCounter sched objType counter count db)
  | CallFetchIdentityByAddress addr => returned (FetchIdentityByAddress addr db)
  | CallExistsGetPubKey addr => returned (ExistsGetPubKey addr db)
  | CallFetchRandomObject => returned (FetchRandomObject db)
  | CallGetCounter objType => returned (Earlier.GetCounter objType db)
  | CallInsertObject objType data => returned (Earlier.InsertObject objType data db)
  | CallRemoveObject hash => returned (Earlier.RemoveObject hash db)
  | CallRemoveObjectByCounter objType counter =>
      returned (Earlier.RemoveObjectByCounter objType counter db)
  | CallSync => returned (Earlier.Sync db)
  | CallRollbackClose => returned (Earlier.RollbackClose db)
  | CallClose => returned (Earlier.Close db)
  end.

(** The store after a sequence of calls; a panic ends the process. *)
Fixpoint run (calls : list call) (db : Earlier.MemDb (ShaHash := ShaHash))
    : Earlier.MemDb (ShaHash := ShaHash) :=
  match calls with
  | [] => db
  | c :: calls =>
      match exec c db with
      | (true, db) => run calls db
      | (false, db) => db
      end
  end.

End Calls.
Arguments exec {ShaHash _ _ Address} Public {R} c db.
Arguments run {ShaHash _ _ Address} Public {R} calls db.
End EarlierCalls.

(** ** The methods of the store that are not implemented *)

Section Unimplemented.
Context {ShaHash : Type} `{Countable ShaHash} {R : Runtime}.

(** [FetchIdentityByAddress], [ExistsGetPubKey] and [FetchRandomObject]: the
    body of each is one [return]; the store is not locked and the liveness
    flag is not read. *)
Definition FetchIdentityByAddress {Address : Type} (Public : Type) (addr : Address)
    (db : MemDb ShaHash) : outcome Public * MemDb ShaHash :=
  (Err ErrNotImplemented, db).

Definition ExistsGetPubKey {Address : Type} (addr : Address) (db : MemDb ShaHash)
    : outcome bool * MemDb ShaHash :=
  (Err ErrNotImplemented, db).

Definition FetchRandomObject (db : MemDb ShaHash)
    : outcome (list byte) * MemDb ShaHash :=
  (Err ErrNotImplemented, db).

End Unimplemented.

(** ** Stores reached by calls *)

Section Runs.
Context {ShaHash : Type} `{Countable ShaHash} {W : Wire ShaHash} {R : Runtime}.

(** The store after a sequence of calls, with no write of the caller to a
    fetched slice in between; a panic ends the process. *)
Fixpoint run (calls : list call) (db : MemDb ShaHash) : MemDb ShaHash :=
  match calls with
  | [] => db
  | c :: calls =>
      match exec c db with
      | (Panic, db) => db
      | (_, db) => run calls db
      end
  end.

(** No call of the sequence inserts an object that the store holds at that
    moment. *)
Fixpoint freshCalls (calls : list call) (db : MemDb ShaHash) : Prop :=
  match calls with
  | [] => True
  | c :: calls => freshInsert c db ∧ freshCalls calls (exec c db).2
  end.

(** Every stored object sits under its own inventory hash. *)
Definition contentAddressed (db : MemDb ShaHash) : Prop :=
  ∀ hash obj, objectsByHash db !! hash = Some obj →
    NewShaHash (CalcInventoryHash obj) = Some hash.

(** Every entry of the tag index is a public key object under the hash of
    its tag. *)
Definition tagged (db : MemDb ShaHash) : Prop :=
  ∀ tag obj, pubKeyByTag db !! tag = Some obj →
    ∃ hdr msg bytes,
      DecodeMsgObjectHeader obj = Some hdr ∧ objType hdr = ObjectTypePubKey
      ∧ MsgPubKey_Decode obj = Some msg ∧ pubKeyTag msg = inr bytes
      ∧ NewShaHash bytes = Some tag.

(** The keys of every counter lie between 1 and its position, and no
    position exceeds [n]. *)
Definition inRange (n : Z) (db : MemDb ShaHash) : Prop :=
  ∀ objT c, counterOf objT db = Some c →
    0 ≤ CounterPos c ≤ n
    ∧ ∀ k hash, ByCounter c !! k = Some hash → 1 ≤ k ≤ CounterPos c.

(** Every counter of [db'] is a counter of [db] at the same position with some
    entries gone, or an empty counter at position 0. *)
Definition subCounters (db db' : MemDb ShaHash) : Prop :=
  ∀ objT c', counterOf objT db' = Some c' →
    (∃ c, counterOf objT db = Some c ∧ CounterPos c' = CounterPos c
          ∧ ByCounter c' ⊆ ByCounter c)
    ∨ (CounterPos c' = 0 ∧ ByCounter c' = ∅).

(** [db'] holds nothing that [db] does not hold. *)
Definition shrinks (db db' : MemDb ShaHash) : Prop :=
  objectsByHash db' ⊆ objectsByHash db
  ∧ pubKeyByTag db' ⊆ pubKeyByTag db
  ∧ subCounters db db'.

(** The three together. *)
Definition valid (db : MemDb ShaHash) : Prop :=
  contentAddressed db ∧ decodable db ∧ tagged db.

(** The objects of a list all have the type [objT]. *)
Definition allOfType (objT : ObjectType) (objs : list (list byte)) : Prop :=
  ∀ obj, obj ∈ objs →
    ∃ hdr, DecodeMsgObjectHeader obj = Some hdr ∧ objType hdr = objT.

End Runs.

(** ** The driver registry (package [database]) *)

(** An error value: one of the package's sentinels, or an error made by
    [fmt.Errorf] with its text. *)
Inductive dbError : Set :=
  | Sentinel (e : error)
  | Errorf (text : string).

Module database.
Section Drivers.
(** [Arg] stands for the [interface{}] values handed to a driver, [Db] for
    the implementations of the interface [database.Db]. *)
Context {Arg Db : Type}.

(** [type DriverDB struct]; a driver function returns [(pbdb Db, err error)]. *)
Record DriverDB : Type := mkDriverDB {
  DbType : string;
  DriverDB_CreateDB : list Arg → option Db * option dbError;
  DriverDB_OpenDB : list Arg → option Db * option dbError
}.

(** The loop [for _, drv := range driverList] that [AddDBDriver], [CreateDB]
    and [OpenDB] share: the first driver whose [DbType] is [dbtype]. *)
Fixpoint findDriver (dbtype : string) (driverList : list DriverDB)
    : option DriverDB :=
  match driverList with
  | [] => None
  | drv :: driverList =>
      if decide (DbType drv = dbtype) then Some drv
      else findDriver dbtype driverList
  end.

(** [AddDBDriver]; the package variable [driverList] is passed in and handed
    back. *)
Definition AddDBDriver (instance : DriverDB) (driverList : list DriverDB)
    : list DriverDB :=
  match findDriver (DbType instance) driverList with
  | Some _ => driverList
  | None => driverList ++ [instance]
  end.

(** [CreateDB]. *)
Definition CreateDB (dbtype : string) (args : list Arg)
    (driverList : list DriverDB) : option Db * option dbError :=
  match findDriver dbtype driverList with
  | Some drv => DriverDB_CreateDB drv args
  | None => (None, Some (Sentinel ErrDbUnknownType))
  end.

(** [OpenDB]. *)
Definition OpenDB (dbtype : string) (args : list Arg)
    (driverList : list DriverDB) : option Db * option dbError :=
  match findDriver dbtype driverList with
  | Some drv => DriverDB_OpenDB drv args
  | None => (None, Some (Sentinel ErrDbUnknownType))
  end.

(** [SupportedDBs]. *)
Definition SupportedDBs (driverList : list DriverDB) : list string :=
  DbType <$> driverList.

(** The registry after the drivers of a list were added in turn, starting
    from the empty [driverList]. *)
Definition registry (instances : list DriverDB) : list DriverDB :=
  foldl (λ driverList instance, AddDBDriver instance driverList) [] instances.

End Drivers.
Arguments DriverDB : clear implicits.
End database.

(** ** The driver of the memory store (package [memdb], [driver.go]) *)

Module memdb.
Section Driver.
Context {ShaHash : Type} `{Countable ShaHash} {Arg : Type}.

(** [parseArgs]. *)
Definition parseArgs (funcName : string) (args : list Arg) : option dbError :=
  if decide (length args ≠ 0%nat) then
    Some (Errorf ("memdb." +:+ funcName +:+ " does not accept any arguments"))
  else None.

(** [CreateDB].  The assignment to the package's logger is not modelled. *)
Definition CreateDB (args : list Arg) : option (MemDb ShaHash) * option dbError :=
  match parseArgs "CreateDB" args with
  | Some err => (None, Some err)
  | None => (Some newMemDb, None)
  end.

(** [OpenDB]: [CreateDB] is called without arguments. *)
Definition OpenDB (args : list Arg) : option (MemDb ShaHash) * option dbError :=
  match parseArgs "OpenDB" args with
  | Some err => (None, Some err)
  | None => CreateDB []
  end.

(** The driver that [init] registers. *)
Definition driver : database.DriverDB Arg (MemDb ShaHash) :=
  database.mkDriverDB "memdb" CreateDB OpenDB.

(** [init]. *)
Definition init (driverList : list (database.DriverDB Arg (MemDb ShaHash)))
    : list (database.DriverDB Arg (MemDb ShaHash)) :=
  database.AddDBDriver driver driverList.

End Driver.
End memdb.

(** ** The RPC methods ([rpcmethods.go])

    The server's database is the memory store.  [restrictAuth], the event
    manager, the logger and the constants of [rpcserver.go] are not part of
    this repository's sources at hand: the result of [restrictAuth] is an
    argument of each method ([None] for [nil]), a constant is a variable, the
    event manager is the list of the listeners added to it, and logging is
    left out. *)

(** An error made by [errors.New] with its text, or by [fmt.Errorf] with its
    format; the cause that [fmt.Errorf] prints comes from a package outside
    this repository. *)
Inductive rpcError : Set :=
  | errorsNew (text : string)
  | fmtErrorf (format : string).

(** [type RPCAuthParams struct]. *)
Record RPCAuthParams : Set := mkRPCAuthParams {
  Username : string;
  Password : string
}.

(** [type RPCGetIdOut struct]. *)
Record RPCGetIdOut : Set := mkRPCGetIdOut {
  Address : string;
  NonceTrialsPerByte : Z;
  ExtraBytes : Z;
  SigningKey : string;
  EncryptionKey : string
}.

(** [type RPCSubscribeArgs struct]. *)
Record RPCSubscribeArgs : Set := mkRPCSubscribeArgs {
  FromCounter : Z
}.

(** The two digests that [rpcServer] keeps for [handleAuth]. *)
Record rpcServer : Set := mkRpcServer {
  authsha : list byte;
  limitauthsha : list byte
}.

(** [subtle.ConstantTimeCompare]: 1 when the two slices have equal contents,
    0 otherwise. *)
Definition ConstantTimeCompare (x y : list byte) : Z :=
  if decide (x = y) then 1 else 0.

(** A listener added by [evtMgr.On(evt, handler, id)]; the handler calls
    [clientHandler] on the client. *)
Record listener (Id : Type) : Type := mkListener {
  evt : string;
  clientHandler : string;
  eventsId : Id
}.
Arguments mkListener {Id} evt clientHandler eventsId.

Section Rpc.
Context {ShaHash : Type} `{Countable ShaHash} {W : Wire ShaHash} {R : Runtime}.

(** [sha256.Sum256] of the bytes of a string, and the keys under which the
    state of a client holds the two flags. *)
Variable Sum256 : string → list byte.
Variables rpcStateIsAuthenticated rpcStateIsAdmin : string.

(** [handleAuth]: the flag written to [*success], the error returned, and the
    state of the client. *)
Definition handleAuth (s : rpcServer) (in_ : RPCAuthParams) (c : gmap string bool)
    : (bool * option rpcError) * gmap string bool :=
  let login := Username in_ +:+ ":" +:+ Password in_ in
  let authsha_ := Sum256 login in
  let limitcmp := ConstantTimeCompare authsha_ (limitauthsha s) in
  if decide (limitcmp = 1) then
    ((true, None),
     <[rpcStateIsAdmin := false]> (<[rpcStateIsAuthenticated := true]> c))
  else
    let cmp := ConstantTimeCompare authsha_ (authsha s) in
    if decide (cmp = 1) then
      ((true, None),
       <[rpcStateIsAdmin := true]> (<[rpcStateIsAuthenticated := true]> c))
    else ((false, None), c).

(** [base64.StdEncoding.DecodeString]; the stream number that
    [wire.DecodeMsgObjectHeader] returns with the header; [pow.Check] with the
    default parameters, at a time. *)
Variable base64Decode : string → option (list byte).
Variable streamNumber : list byte → Z.
Variable powCheck : list byte → Z → bool.

(** [sendObject].  [now] and [powNow] are the two readings of the clock,
    [counter] is the value at [*counter] before the call.  The result holds
    the error returned, the value at [*counter] afterwards and the inventory
    hash handed to [handleRelayInvMsg], if one was; [None] is a panic.  The
    interface method [InsertObject] returns a counter and an error; the
    method of the memory store returns the hash as well. *)
Definition sendObject (restricted : option rpcError) (now powNow : Z)
    (in_ : string) (counter : Z) (db : MemDb ShaHash)
    : option (option rpcError * Z * option ShaHash) * MemDb ShaHash :=
  match restricted with
  | Some err => (Some (Some err, counter, None), db)
  | None =>
      match base64Decode in_ with
      | None => (Some (Some (errorsNew "base64 decode failed"), counter, None), db)
      | Some data =>
          match DecodeMsgObjectHeader data with
          | None => (Some (Some (fmtErrorf "invalid object: %v"), counter, None), db)
          | Some hdr =>
              if decide (expiresTime hdr < now) then
                (Some (Some (errorsNew "object already expired"), counter, None), db)
              else if decide (streamNumber data ≠ 1) then
                (Some (Some (errorsNew "invalid stream"), counter, None), db)
              else if negb (powCheck data powNow) then
                (Some (Some (errorsNew "invalid proof of work"), counter, None), db)
              else
                match InsertObject data db with
                | (Ok (_, n), db) =>
                    (Some (None, n, NewShaHash (CalcInventoryHash data)), db)
                | (Err _, db) =>
                    (Some (Some (errorsNew "failed to insert object into database"),
                           0, None), db)
                | (Panic, db) => (None, db)
                end
          end
      end
  end.

(** [bmutil.DecodeAddress], and what [getId] reads of an [identity.Public]:
    two numbers and the two keys, serialized. *)
Context {bmutil_Address identity_Public : Type}.
Variable DecodeAddress : string → option bmutil_Address.
Variables pubNonceTrialsPerByte pubExtraBytes : identity_Public → Z.
Variables pubEncryptionKey pubSigningKey : identity_Public → list byte.
Variable base64Encode : list byte → string.

(** [getId]: the error returned and the value at [id] afterwards; [None] is
    a panic. *)
Definition getId (restricted : option rpcError) (addr : string) (id : RPCGetIdOut)
    (db : MemDb ShaHash) : option (option rpcError * RPCGetIdOut) * MemDb ShaHash :=
  match restricted with
  | Some err => (Some (Some err, id), db)
  | None =>
      match DecodeAddress addr with
      | None => (Some (Some (fmtErrorf "address decode failed: %v"), id), db)
      | Some address =>
          match FetchIdentityByAddress identity_Public address db with
          | (Err ErrNonexistentObject, db) =>
              (Some (Some (errorsNew "identity not found"), id), db)
          | (Err _, db) => (Some (Some (errorsNew "database error"), id), db)
          | (Panic, db) => (None, db)
          | (Ok pubId, db) =>
              (Some (None,
                     mkRPCGetIdOut addr (pubNonceTrialsPerByte pubId)
                       (pubExtraBytes pubId)
                       (base64Encode (pubSigningKey pubId))
                       (base64Encode (pubEncryptionKey pubId))), db)
          end
      end
  end.

(** The page size and the names of the events and of the client's methods. *)
Variable rpcCounterObjectsSize : Z.
Variables rpcEvtNewMessage rpcClientHandleMessage : string.
Variables rpcEvtNewBroadcast rpcClientHandleBroadcast : string.
Variables rpcEvtNewGetpubkey rpcClientHandleGetpubkey : string.
Variables rpcEvtNewPubkey rpcClientHandlePubkey : string.
Variables rpcEvtNewUnknownObj rpcClientHandleUnknownObj : string.

(** [handleSubscribe]: the error of [restrictAuth], or the pages sent by
    [sendOldObjects] and how the sending ended; and the event manager.  [id]
    is the [eventsId] of the client's state. *)
Definition handleSubscribe {Id : Type} (restricted : option rpcError) (id : Id)
    (scheds : list (list Z)) (objType : ObjectType) (args : RPCSubscribeArgs)
    (evt clientHandler : string) (evtMgr : list (listener Id)) (db : MemDb ShaHash)
    : (rpcError + list (list (list byte)) * progress) * list (listener Id) :=
  match restricted with
  | Some err => (inl err, evtMgr)
  | None =>
      let evtMgr := evtMgr ++ [mkListener evt clientHandler id] in
      (inr (sendOldObjects scheds objType (FromCounter args) rpcCounterObjectsSize db),
       evtMgr)
  end.

(** What a subscription to the objects of type [objT] comes to.  A caller
    whom [restrictAuth] refused gets its error and is not added to the event
    manager.  A caller it let through is added, whether or not the old
    objects could be fetched, and the pages sent hold objects of type [objT]
    only. *)
Definition subscribed {Id : Type} (restricted : option rpcError) (id : Id)
    (evt clientHandler : string) (evtMgr : list (listener Id)) (objT : ObjectType)
    (result : (rpcError + list (list (list byte)) * progress) * list (listener Id))
    : Prop :=
  match result with
  | (inl err, evtMgr') => restricted = Some err ∧ evtMgr' = evtMgr
  | (inr (pages, _), evtMgr') =>
      restricted = None
      ∧ evtMgr' = evtMgr ++ [mkListener evt clientHandler id]
      ∧ ∀ page, page ∈ pages → allOfType objT page
  end.

(** [subscribeMessages], [subscribeBroadcasts], [subscribeGetpubkeys],
    [subscribePubkeys] and [subscribeUnknownObjects]. *)
Definition subscribeMessages {Id : Type} (restricted : option rpcError) (id : Id)
    (scheds : list (list Z)) (args : RPCSubscribeArgs)
    (evtMgr : list (listener Id)) (db : MemDb ShaHash) :=
  handleSubscribe restricted id scheds ObjectTypeMsg args rpcEvtNewMessage
    rpcClientHandleMessage evtMgr db.

Definition subscribeBroadcasts {Id : Type} (restricted : option rpcError) (id : Id)
    (scheds : list (list Z)) (args : RPCSubscribeArgs)
    (evtMgr : list (listener Id)) (db : MemDb ShaHash) :=
  handleSubscribe restricted id scheds ObjectTypeBroadcast args rpcEvtNewBroadcast
    rpcClientHandleBroadcast evtMgr db.

Definition subscribeGetpubkeys {Id : Type} (restricted : option rpcError) (id : Id)
    (scheds : list (list Z)) (args : RPCSubscribeArgs)
    (evtMgr : list (listener Id)) (db : MemDb ShaHash) :=
  handleSubscribe restricted id scheds ObjectTypeGetPubKey args rpcEvtNewGetpubkey
    rpcClientHandleGetpubkey evtMgr db.

Definition subscribePubkeys {Id : Type} (restricted : option rpcError) (id : Id)
    (scheds : list (list Z)) (args : RPCSubscribeArgs)
    (evtMgr : list (listener Id)) (db : MemDb ShaHash) :=
  handleSubscribe restricted id scheds ObjectTypePubKey args rpcEvtNewPubkey
    rpcClientHandlePubkey evtMgr db.

Definition subscribeUnknownObjects {Id : Type} (restricted : option rpcError)
    (id : Id) (scheds : list (list Z)) (args : RPCSubscribeArgs)
    (evtMgr : list (listener Id)) (db : MemDb ShaHash) :=
  handleSubscribe restricted id scheds 999999 args rpcEvtNewUnknownObj
    rpcClientHandleUnknownObj evtMgr db.

End Rpc.

(** ** A codec to run the store on

    A stand-in for the wire codec, small enough to evaluate: an object is its
    type, its expiry time in hours and a body; a public key's body is its
    version followed by its tag; the inventory hash of an object lists the
    values of its bytes. *)

Module Sample.

Definition byteZ (b : byte) : Z := Z.of_N (Byte.to_N b).

Definition decodeHeader (data : list byte) : option ObjHeader :=
  match data with
  | ty :: ex :: _ => Some (mkObjHeader (byteZ ex * Hour) (byteZ ty))
  | _ => None
  end.

Definition newHash (b : list byte) : option (list N) :=
  match b with
  | [] => None
  | _ => Some (Byte.to_N <$> b)
  end.

Definition decodePubKey (data : list byte) : option (list byte) :=
  match data with
  | _ :: _ :: v :: tag => Some (v :: tag)
  | _ => None
  end.

Definition wire : Wire (list N) := {|
  DecodeMsgObjectHeader := decodeHeader;
  CalcInventoryHash := λ data, data;
  NewShaHash := newHash;
  MsgPubKey := list byte;
  MsgPubKey_Decode := decodePubKey;
  Version := λ msg, default 0 (byteZ <$> head msg);
  Tag_Bytes := λ msg, tail msg;
  IdentityFromPubKeyMsg := λ msg,
    match tail msg with [] => None | tag => Some tag end;
  SimplePubKeyVersion := 2;
  ExtendedPubKeyVersion := 3;
  EncryptedPubKeyVersion := 4
|}.

(** A runtime whose allocator takes [2^48] bytes. *)
Definition runtime : Runtime := {| maxSliceCap := 2 ^ 45 |}.

Definition db0 : MemDb (list N) := newMemDb.

(** Two messages and a public key, all expiring at hour 1, and a message
    expiring at hour 200. *)
Definition msgA : list byte := [x02; x01; x0a].
Definition msgB : list byte := [x02; x01; x0b].
Definition msgC : list byte := [x02; xc8; x0c].
Definition keyA : list byte := [x01; x01; x04; x07; x07].
(** A public key of version 2 that carries nothing to derive a tag from. *)
Definition keyBad : list byte := [x01; x01; x02].
Definition hashOf (data : list byte) : list N := Byte.to_N <$> data.

Definition insert (data : list byte) (db : MemDb (list N)) :=
  (InsertObject (W := wire) data db).2.

(** The store after [msgA] and [msgB] were inserted, and the store after
    [msgA] was inserted twice. *)
Definition dbAB : MemDb (list N) := insert msgB (insert msgA db0).
Definition dbAA : MemDb (list N) := insert msgA (insert msgA db0).

(** The store after [msgA], [msgB] and [msgC] were inserted, and that store
    with the public key [keyA] added. *)
Definition dbABC : MemDb (list N) := insert msgC dbAB.
Definition dbFull : MemDb (list N) := insert keyA dbABC.

(** The message counters of [dbAB] and of [dbABC]. *)
Definition counterAB : counter (list N) :=
  mkCounter {[ 1 := hashOf msgA; 2 := hashOf msgB ]} 2.

Definition counterABC : counter (list N) :=
  mkCounter {[ 1 := hashOf msgA; 2 := hashOf msgB; 3 := hashOf msgC ]} 3.

(** Inserts of messages with an insert of another type and two removals in
    between; the sweep runs at hour 100. *)
Definition calls : list (call (ShaHash := list N)) :=
  [ CallInsertObject msgA;
    CallInsertObject keyA;
    CallRemoveObjectByCounter ObjectTypeMsg 1;
    CallInsertObject msgB;
    CallRemoveExpiredObjects (λ _, 100 * Hour) [] (λ _, []);
    CallInsertObject msgC ].

(** The earlier variant, closed. *)
Definition earlierClosed : Earlier.MemDb (ShaHash := list N) :=
  (Earlier.Close Earlier.newMemDb).2.

(** The store that the calls of [calls] leave. *)
Definition dbCalls : MemDb (list N) :=
  run (W := wire) (R := runtime) calls newMemDb.

(** A stand-in for the digest of [handleAuth], the bytes of the login
    itself, and a server with an administrator and a limited user. *)
Definition digest : string → list byte := String.list_byte_of_string.

Definition server : rpcServer :=
  mkRpcServer (digest "admin:secret") (digest "guest:guest").

End Sample.

(** * Properties *)

(** ** Lists *)

Section Lists.
Context {A : Type}.





End Lists.

(** ** Ranging over a map visits every key once *)

Section RangeKeys.
Context `{Countable K} {V : Type}.
Implicit Types (m : gmap K V) (sched : list K).

Lemma rangeKeys_elem_of sched m k :
  k ∈ rangeKeys sched m ↔ is_Some (m !! k).
Proof.
  unfold rangeKeys. rewrite elem_of_app. split.
  - intros [Hk|Hk]; apply list_elem_of_filter in Hk as [Hk1 Hk2]; [done|].
    apply list_elem_of_fmap in Hk2 as [[k' v] [-> Hkv]].
    apply elem_of_map_to_list in Hkv. by exists v.
  - intros [v Hv].
    destruct (decide (k ∈ filter (λ k, is_Some (m !! k)) (remove_dups sched)))
      as [Hin|Hout]; [by left|].
    right. apply list_elem_of_filter. split; [done|].
    apply list_elem_of_fmap. exists (k, v). split; [done|].
    by apply elem_of_map_to_list.
Qed.

Lemma rangeKeys_NoDup sched m : NoDup (rangeKeys sched m).
Proof.
  unfold rangeKeys. apply list.NoDup_app. split; [|split].
  - apply list.NoDup_filter, NoDup_remove_dups.
  - intros k Hk [Hnot _]%list_elem_of_filter. done.
  - apply list.NoDup_filter, NoDup_fst_map_to_list.
Qed.

Lemma rangeKeys_Permutation sched m : rangeKeys sched m ≡ₚ (map_to_list m).*1.
Proof.
  apply list.NoDup_Permutation.
  - apply rangeKeys_NoDup.
  - apply NoDup_fst_map_to_list.
  - intros k. rewrite rangeKeys_elem_of, list_elem_of_fmap. split.
    + intros [v Hv]. exists (k, v). split; [done|]. by apply elem_of_map_to_list.
    + intros [[k' v] [-> Hkv]]. apply elem_of_map_to_list in Hkv. by exists v.
Qed.


End RangeKeys.

(** ** What the counter helpers leave alone *)

Section Frames.
Context {ShaHash : Type} `{Countable ShaHash} {W : Wire ShaHash} {R : Runtime}.
Implicit Types (db : MemDb ShaHash) (t : ObjectType) (c : counter ShaHash).

Ltac by_cases_on_type :=
  intros; unfold getCounterMap, setCounterMap;
  repeat case_decide; try done;
  repeat match goal with |- context [unknownObjCounter ?db !! ?t] =>
    destruct (unknownObjCounter db !! t) end; done.

Lemma getCounterMap_objectsByHash t db :
  objectsByHash (getCounterMap t db).2 = objectsByHash db.
Proof. by_cases_on_type. Qed.

Lemma getCounterMap_pubKeyByTag t db :
  pubKeyByTag (getCounterMap t db).2 = pubKeyByTag db.
Proof. by_cases_on_type. Qed.

Lemma getCounterMap_closed t db : closed (getCounterMap t db).2 = closed db.
Proof. by_cases_on_type. Qed.

Lemma setCounterMap_objectsByHash t c db :
  objectsByHash (setCounterMap t c db) = objectsByHash db.
Proof. by_cases_on_type. Qed.

Lemma setCounterMap_pubKeyByTag t c db :
  pubKeyByTag (setCounterMap t c db) = pubKeyByTag db.
Proof. by_cases_on_type. Qed.

Lemma setCounterMap_closed t c db : closed (setCounterMap t c db) = closed db.
Proof. by_cases_on_type. Qed.

Lemma removeFromCounter_objectsByHash sched t hash db :
  objectsByHash (removeFromCounter sched t hash db) = objectsByHash db.
Proof.
  unfold removeFromCounter.
  pose proof (getCounterMap_objectsByHash t db) as Hg.
  destruct (getCounterMap t db) as [[cm|] db1]; simpl in *; [|done].
  by rewrite setCounterMap_objectsByHash.
Qed.

Lemma removeFromCounter_pubKeyByTag sched t hash db :
  pubKeyByTag (removeFromCounter sched t hash db) = pubKeyByTag db.
Proof.
  unfold removeFromCounter.
  pose proof (getCounterMap_pubKeyByTag t db) as Hg.
  destruct (getCounterMap t db) as [[cm|] db1]; simpl in *; [|done].
  by rewrite setCounterMap_pubKeyByTag.
Qed.

Lemma removeFromCounter_closed sched t hash db :
  closed (removeFromCounter sched t hash db) = closed db.
Proof.
  unfold removeFromCounter.
  pose proof (getCounterMap_closed t db) as Hg.
  destruct (getCounterMap t db) as [[cm|] db1]; simpl in *; [|done].
  by rewrite setCounterMap_closed.
Qed.

Lemma insertPubKey_frame data dataInsert db db1 :
  insertPubKey data dataInsert db = inr db1 →
  objectsByHash db1 = objectsByHash db ∧ closed db1 = closed db.
Proof.
  unfold insertPubKey. intros Hi.
  destruct (MsgPubKey_Decode data); [|done].
  destruct (pubKeyTag _); [done|].
  destruct (NewShaHash _); [|done].
  by inversion Hi.
Qed.

End Frames.

(** ** Insert and fetch *)

Section RoundTrip.
Context {ShaHash : Type} `{Countable ShaHash} {W : Wire ShaHash} {R : Runtime}.
Implicit Types (db : MemDb ShaHash).

(** C8.  When [InsertObject] accepts the bytes [data] and returns [hash], a
    following [FetchObjectByHash hash] succeeds and returns [data]. *)
Theorem FetchObjectByHash_InsertObject data db db' hash n :
  InsertObject data db = (Ok (hash, n), db') →
  FetchObjectByHash hash db' = (Ok data, db').
Proof.
  unfold InsertObject. intros Hi.
  destruct (closed db) eqn:Hc; [done|].
  destruct (DecodeMsgObjectHeader data) as [hdr|]; [|done].
  destruct (NewShaHash (CalcInventoryHash data)) as [h|]; [|done].
  destruct (if decide (objType hdr = ObjectTypePubKey)
            then insertPubKey data data db else inr db) as [e|db1] eqn:Hpk; [done|].
  assert (closed db1 = false) as Hc1.
  { case_decide; [|by inversion Hpk; subst].
    apply insertPubKey_frame in Hpk as [_ ->]. done. }
  pose proof (getCounterMap_objectsByHash (objType hdr)
    (set_objectsByHash (<[h:=data]> (objectsByHash db1)) db1)) as Ho.
  pose proof (getCounterMap_closed (objType hdr)
    (set_objectsByHash (<[h:=data]> (objectsByHash db1)) db1)) as Hcl.
  destruct (getCounterMap _ _) as [cm db2]. simpl in Ho, Hcl.
  unfold FetchObjectByHash, fetchObjectByHash.
  destruct cm as [cm|]; inversion Hi; subst.
  - rewrite setCounterMap_closed, setCounterMap_objectsByHash, Hcl, Ho. simpl.
    by rewrite Hc1, lookup_insert_eq.
  - rewrite Hcl, Ho. simpl. by rewrite Hc1, lookup_insert_eq.
Qed.

(** An insert that fails has written nothing. *)
Lemma InsertObject_Err_inv data db db' e :
  InsertObject data db = (Err e, db') → db' = db.
Proof.
  unfold InsertObject. intros Hi.
  destruct (closed db); [by inversion Hi|].
  destruct (DecodeMsgObjectHeader data) as [hdr|]; [|by inversion Hi].
  destruct (NewShaHash (CalcInventoryHash data)) as [h|]; [|by inversion Hi].
  destruct (if decide (objType hdr = ObjectTypePubKey)
            then insertPubKey data data db else inr db) as [e'|db1];
    [by inversion Hi|].
  destruct (getCounterMap _ _) as [[cm|] db2]; inversion Hi.
Qed.

(** C9.  When [InsertObject] returns an error, the store it leaves is the
    store it was given: hash index, tag index and every counter with its
    position. *)
Theorem InsertObject_error_unchanged data db db' e :
  InsertObject data db = (Err e, db') →
  db' = db
  ∧ objectsByHash db' = objectsByHash db
  ∧ pubKeyByTag db' = pubKeyByTag db
  ∧ ∀ t, counterOf t db' = counterOf t db.
Proof.
  unfold InsertObject. intros Hi.
  assert (db' = db) as ->; [|done].
  (* every error is returned before the first write to the store *)
  destruct (closed db); [by inversion Hi|].
  destruct (DecodeMsgObjectHeader data) as [hdr|]; [|by inversion Hi].
  destruct (NewShaHash (CalcInventoryHash data)) as [h|]; [|by inversion Hi].
  destruct (if decide (objType hdr = ObjectTypePubKey)
            then insertPubKey data data db else inr db) as [e'|db1];
    [by inversion Hi|].
  (* past the public-key block the method writes and returns no error *)
  destruct (getCounterMap _ _) as [[cm|] db2]; inversion Hi.
Qed.

(** The errors of [InsertObject] are what the claim lists: a closed store, a
    header that does not decode, a hash that cannot be built, a public key
    that does not decode, and a tag that cannot be derived. *)
Lemma InsertObject_errors data db db' e :
  InsertObject data db = (Err e, db') →
  e = ErrDbClosed ∨ e = ErrDecodeMsgObjectHeader ∨ e = ErrNewShaHash
  ∨ e = ErrMsgPubKeyDecode ∨ e = ErrIdentityFromPubKeyMsg.
Proof.
  unfold InsertObject. intros Hi.
  destruct (closed db); [inversion Hi; auto|].
  destruct (DecodeMsgObjectHeader data) as [hdr|]; [|inversion Hi; auto].
  destruct (NewShaHash (CalcInventoryHash data)) as [h|]; [|inversion Hi; auto].
  destruct (if decide (objType hdr = ObjectTypePubKey)
            then insertPubKey data data db else inr db) as [e'|db1] eqn:Hpk.
  - inversion Hi; subst. case_decide; [|done].
    unfold insertPubKey in Hpk.
    destruct (MsgPubKey_Decode data) as [m|]; [|inversion Hpk; auto].
    destruct (pubKeyTag m) as [e1|tag] eqn:Ht.
    + inversion Hpk; subst. unfold pubKeyTag in Ht.
      repeat case_decide; try done.
      destruct (IdentityFromPubKeyMsg m); inversion Ht; auto 6.
    + destruct (NewShaHash tag); inversion Hpk; auto.
  - destruct (getCounterMap _ _) as [[cm|] db2]; inversion Hi.
Qed.

End RoundTrip.

(** On a new store: [msgA] is inserted and fetched back by its hash. *)
Lemma FetchObjectByHash_InsertObject_witness :
  InsertObject (W := Sample.wire) Sample.msgA Sample.db0
    = (Ok (Sample.hashOf Sample.msgA, 1), Sample.insert Sample.msgA Sample.db0)
  ∧ FetchObjectByHash (Sample.hashOf Sample.msgA) (Sample.insert Sample.msgA Sample.db0)
    = (Ok Sample.msgA, Sample.insert Sample.msgA Sample.db0).
Proof.
  assert (InsertObject (W := Sample.wire) Sample.msgA Sample.db0
    = (Ok (Sample.hashOf Sample.msgA, 1), Sample.insert Sample.msgA Sample.db0))
    as Hi by (vm_compute; reflexivity).
  split; [exact Hi|].
  exact (FetchObjectByHash_InsertObject (W := Sample.wire) _ _ _ _ _ Hi).
Defined.

(** A public key whose tag cannot be derived is refused after its header and
    its hash were accepted; the store stays as it was. *)
Lemma InsertObject_error_unchanged_witness :
  InsertObject (W := Sample.wire) Sample.keyBad Sample.dbAB
    = (Err ErrIdentityFromPubKeyMsg, Sample.dbAB)
  ∧ ∀ t, counterOf t (InsertObject (W := Sample.wire) Sample.keyBad Sample.dbAB).2
         = counterOf t Sample.dbAB.
Proof.
  assert (InsertObject (W := Sample.wire) Sample.keyBad Sample.dbAB
    = (Err ErrIdentityFromPubKeyMsg, Sample.dbAB)) as Hi by (vm_compute; reflexivity).
  split; [exact Hi|]. rewrite Hi.
  exact (proj2 (proj2 (proj2
    (InsertObject_error_unchanged (W := Sample.wire) _ _ _ _ Hi)))).
Defined.

(** ** The tag index and the hash index are removed from separately *)

Section Independence.
Context {ShaHash : Type} `{Countable ShaHash} {W : Wire ShaHash} {R : Runtime}.
Implicit Types (db : MemDb ShaHash).

Lemma RemovePubKey_objectsByHash tag db :
  objectsByHash (RemovePubKey tag db).2 = objectsByHash db.
Proof.
  unfold RemovePubKey. destruct (closed db); [done|].
  by destruct (pubKeyByTag db !! tag).
Qed.

Lemma RemovePubKey_closed tag db : closed (RemovePubKey tag db).2 = closed db.
Proof.
  unfold RemovePubKey. destruct (closed db) eqn:Hc; [done|].
  by destruct (pubKeyByTag db !! tag).
Qed.

Lemma RemoveObject_pubKeyByTag sched hash db :
  pubKeyByTag (RemoveObject sched hash db).2 = pubKeyByTag db.
Proof.
  unfold RemoveObject. destruct (closed db); [done|].
  destruct (objectsByHash db !! hash); [|done].
  destruct (DecodeMsgObjectHeader _); [|done].
  simpl. apply removeFromCounter_pubKeyByTag.
Qed.

(** C10.  [RemovePubKey] leaves the hash index as it was, so [ExistsObject]
    answers the same for every hash; [RemoveObject] leaves the tag index as it
    was. *)
Theorem RemovePubKey_RemoveObject_independent tag sched hash db :
  objectsByHash (RemovePubKey tag db).2 = objectsByHash db
  ∧ (∀ h, (ExistsObject h (RemovePubKey tag db).2).1 = (ExistsObject h db).1)
  ∧ pubKeyByTag (RemoveObject sched hash db).2 = pubKeyByTag db.
Proof.
  split; [apply RemovePubKey_objectsByHash|]. split.
  - intros h. unfold ExistsObject.
    rewrite RemovePubKey_closed, RemovePubKey_objectsByHash.
    destruct (closed db); [done|]. by destruct (objectsByHash db !! h).
  - apply RemoveObject_pubKeyByTag.
Qed.

End Independence.

(** ** [GetCounter] and the counters of unknown types *)

Section UnknownTypes.
Context {ShaHash : Type} `{Countable ShaHash} {R : Runtime}.
Implicit Types (db : MemDb ShaHash) (t : ObjectType).

(** C5, as amended.  On an open store, for a type that is none of the four
    known ones and has no counter yet, [GetCounter] returns 0 and no error, and
    leaves behind a store that differs in one respect: it holds a new, empty
    counter at position 0 for that type. *)
Theorem GetCounter_unknown_type t db :
  closed db = false → ¬ knownType t → unknownObjCounter db !! t = None →
  GetCounter t db
  = (Ok 0, set_unknownObjCounter (<[t := mkCounter ∅ 0]> (unknownObjCounter db)) db).
Proof.
  unfold knownType, GetCounter, getCounterRef, getCounterMap.
  intros -> Hk Hn. repeat case_decide; try tauto. by rewrite Hn.
Qed.

(** [GetCounter] has no way to return [ErrNotImplemented]. *)
Lemma GetCounter_never_ErrNotImplemented t db :
  (GetCounter t db).1 ≠ Err ErrNotImplemented.
Proof.
  unfold GetCounter, getCounterRef. destruct (closed db); [done|].
  by destruct (getCounterMap t db) as [[c|] db1].
Qed.

(** Where the store holds a counter for the type, [GetCounter] reads its
    position and changes nothing. *)
Lemma GetCounter_position t db c :
  closed db = false → counterOf t db = Some c →
  GetCounter t db = (Ok (position t db), db).
Proof.
  unfold GetCounter, getCounterRef, getCounterMap, position, counterOf.
  intros -> Hc. repeat case_decide; by rewrite Hc.
Qed.

End UnknownTypes.

(** C5 fails as stated: on a new store the type 4 has no counter; [GetCounter]
    answers 0 without an error, and afterwards the store holds a counter for
    type 4. *)
Lemma GetCounter_creates_counter :
  unknownObjCounter Sample.db0 !! 4 = None
  ∧ (GetCounter 4 Sample.db0).1 = Ok 0
  ∧ unknownObjCounter (GetCounter 4 Sample.db0).2 !! 4 = Some (mkCounter ∅ 0).
Proof. by vm_compute. Qed.

(** On a new store, for the unknown type 4. *)
Lemma GetCounter_unknown_type_witness :
  GetCounter 4 Sample.db0
  = (Ok 0, set_unknownObjCounter
             (<[4 := mkCounter ∅ 0]> (unknownObjCounter Sample.db0)) Sample.db0).
Proof.
  apply GetCounter_unknown_type.
  - reflexivity.
  - unfold knownType, ObjectTypeBroadcast, ObjectTypeMsg, ObjectTypePubKey,
      ObjectTypeGetPubKey. lia.
  - reflexivity.
Defined.

(** ** The closed store *)

Section Closed.
Context {ShaHash : Type} `{Countable ShaHash} {W : Wire ShaHash} {R : Runtime}.
Implicit Types (db : MemDb ShaHash).

Lemma Close_closed db : closed (Close db).2 = true.
Proof. unfold Close. by destruct (closed db) eqn:Hc. Qed.

(** After [Close], every method of the store answers [ErrDbClosed] and leaves
    the store alone. *)
Theorem closed_store_contract db hash tag objT n count data sched now outer inner :
  let db' := (Close db).2 in
  ExistsObject hash db' = (Err ErrDbClosed, db')
  ∧ FetchObjectByHash hash db' = (Err ErrDbClosed, db')
  ∧ FetchObjectByCounter objT n db' = (Err ErrDbClosed, db')
  ∧ FetchObjectsFromCounter sched objT n count db' = (Err ErrDbClosed, db')
  ∧ GetCounter objT db' = (Err ErrDbClosed, db')
  ∧ InsertObject data db' = (Err ErrDbClosed, db')
  ∧ RemoveObject sched hash db' = (Err ErrDbClosed, db')
  ∧ RemoveObjectByCounter objT n db' = (Err ErrDbClosed, db')
  ∧ RemoveExpiredObjects now outer inner db' = (Err ErrDbClosed, db')
  ∧ RemovePubKey tag db' = (Err ErrDbClosed, db')
  ∧ Sync db' = (Err ErrDbClosed, db')
  ∧ Close db' = (Err ErrDbClosed, db')
  ∧ RollbackClose db' = (Err ErrDbClosed, db').
Proof.
  intros db'. pose proof (Close_closed db) as Hc. fold db' in Hc.
  unfold ExistsObject, FetchObjectByHash, FetchObjectByCounter,
    FetchObjectsFromCounter, GetCounter, InsertObject, RemoveObject,
    RemoveObjectByCounter, RemoveExpiredObjects, RemovePubKey, Sync,
    RollbackClose, Close.
  rewrite !Hc. repeat split.
Qed.

(** In the earlier variant [FetchObjectsFromCounter] does not read the
    liveness flag; on a closed store both counter maps are [nil] and the
    method answers [ErrNotImplemented], whatever it is asked. *)
Lemma Earlier_FetchObjectsFromCounter_closed
    (db : Earlier.MemDb (ShaHash := ShaHash)) sched objT n count :
  Earlier.closed db = false →
  Earlier.FetchObjectsFromCounter sched objT n count (Earlier.Close db).2
  = (Err ErrNotImplemented, (Earlier.Close db).2).
Proof.
  unfold Earlier.Close, Earlier.FetchObjectsFromCounter, Earlier.getCounterMap.
  intros ->. simpl. by repeat case_decide.
Qed.

End Closed.

(** C4 on the earlier variant: after a successful [Close],
    [FetchObjectsFromCounter] answers [ErrNotImplemented], not [ErrDbClosed];
    the methods next to it answer [ErrDbClosed]. *)
Lemma Earlier_FetchObjectsFromCounter_after_Close :
  Earlier.Close (ShaHash := list N) Earlier.newMemDb = (Ok tt, Sample.earlierClosed)
  ∧ Earlier.FetchObjectsFromCounter (R := Sample.runtime) [] ObjectTypeMsg 1 10 Sample.earlierClosed
    = (Err ErrNotImplemented, Sample.earlierClosed)
  ∧ Earlier.FetchObjectByCounter ObjectTypeMsg 1 Sample.earlierClosed
    = (Err ErrDbClosed, Sample.earlierClosed)
  ∧ Earlier.Sync Sample.earlierClosed = (Err ErrDbClosed, Sample.earlierClosed).
Proof. by vm_compute. Qed.

(** ** Which keys [FetchObjectsFromCounter] returns *)

(** C2 on a store that holds [msgA] under counter 1 and [msgB] under counter
    2.  Asked for one object from counter 1 on, the method returns [msgB] with
    last counter 2 when the range visits key 2 first, and [msgA] with last
    counter 1 when it visits key 1 first.  The earlier variant panics where
    the answer is the empty list. *)
Lemma FetchObjectsFromCounter_not_smallest :
  (ByCounter <$> msgCounter Sample.dbAB)
    = Some {[ 1 := Sample.hashOf Sample.msgA; 2 := Sample.hashOf Sample.msgB ]}
  ∧ FetchObjectsFromCounter (R := Sample.runtime) [2; 1] ObjectTypeMsg 1 1 Sample.dbAB
    = (Ok ([Sample.msgB], 2), Sample.dbAB)
  ∧ FetchObjectsFromCounter (R := Sample.runtime) [1; 2] ObjectTypeMsg 1 1 Sample.dbAB
    = (Ok ([Sample.msgA], 1), Sample.dbAB)
  ∧ Earlier.FetchObjectsFromCounter (R := Sample.runtime) (ShaHash := list N) [] ObjectTypeMsg 1 10
      Earlier.newMemDb
    = (Panic, Earlier.newMemDb).
Proof. by vm_compute. Qed.

(** ** Inserting the same object twice *)

(** C1 on a new store.  [InsertObject] accepts [msgA] twice and gives it the
    counters 1 and 2, so the message counter holds one hash under two keys.
    [RemoveObject] then succeeds, deletes one of the two keys and the object,
    and leaves the other key pointing at a hash that the hash index no longer
    holds; [FetchObjectByCounter] on that key panics. *)
Lemma duplicate_insert_breaks_invariants :
  InsertObject (W := Sample.wire) Sample.msgA Sample.db0
    = (Ok (Sample.hashOf Sample.msgA, 1), Sample.insert Sample.msgA Sample.db0)
  ∧ InsertObject (W := Sample.wire) Sample.msgA (Sample.insert Sample.msgA Sample.db0)
    = (Ok (Sample.hashOf Sample.msgA, 2), Sample.dbAA)
  ∧ ¬ noDuplicates Sample.dbAA
  ∧ (RemoveObject (W := Sample.wire) [1] (Sample.hashOf Sample.msgA) Sample.dbAA).1
    = Ok tt
  ∧ ¬ noDangling
        (RemoveObject (W := Sample.wire) [1] (Sample.hashOf Sample.msgA) Sample.dbAA).2
  ∧ (FetchObjectByCounter ObjectTypeMsg 2
        (RemoveObject (W := Sample.wire) [1] (Sample.hashOf Sample.msgA) Sample.dbAA).2).1
    = Panic.
Proof.
  split; [by vm_compute|]. split; [by vm_compute|]. split.
  { intros Hnd.
    assert (1 = 2) as Heq; [|done].
    eapply (Hnd ObjectTypeMsg); by vm_compute. }
  split; [by vm_compute|]. split; [|by vm_compute].
  intros Hnd.
  assert (is_Some (objectsByHash
    (RemoveObject (W := Sample.wire) [1] (Sample.hashOf Sample.msgA) Sample.dbAA).2
      !! Sample.hashOf Sample.msgA)) as [obj Hobj].
  { eapply (Hnd ObjectTypeMsg _ 2); by vm_compute. }
  vm_compute in Hobj. done.
Qed.

(** ** Counter positions *)

Section Positions.
Context {ShaHash : Type} `{Countable ShaHash} {W : Wire ShaHash} {R : Runtime}.
Implicit Types (db : MemDb ShaHash) (t : ObjectType) (c : counter ShaHash).

Ltac by_cases_on_types :=
  unfold position, counterOf, getCounterMap, setCounterMap, allocated,
    ObjectTypeBroadcast, ObjectTypeMsg, ObjectTypePubKey, ObjectTypeGetPubKey in *;
  repeat case_decide; simplify_eq; simpl in *; try done; try lia.

Lemma getCounterMap_fst t db :
  (getCounterMap t db).1 = counterOf t (getCounterMap t db).2.
Proof.
  by_cases_on_types.
  destruct (unknownObjCounter db !! t) eqn:Hu; simpl; [done|].
  by rewrite lookup_insert_eq.
Qed.

Lemma getCounterMap_counterOf t t' db :
  counterOf t (getCounterMap t' db).2 = counterOf t db
  ∨ (t = t' ∧ counterOf t db = None
     ∧ counterOf t (getCounterMap t' db).2 = Some (mkCounter ∅ 0)).
Proof.
  by_cases_on_types; auto;
    destruct (unknownObjCounter db !! t') eqn:Hu; simpl; auto.
  destruct (decide (t = t')) as [->|Hne].
  - right. by rewrite lookup_insert_eq.
  - left. by rewrite lookup_insert_ne.
Qed.

Lemma getCounterMap_position t t' db :
  position t (getCounterMap t' db).2 = position t db.
Proof.
  unfold position.
  destruct (getCounterMap_counterOf t t' db) as [->|(_ & -> & ->)]; done.
Qed.

Lemma getCounterMap_Some_position t db c db1 :
  getCounterMap t db = (Some c, db1) → CounterPos c = position t db.
Proof.
  intros Hg. pose proof (getCounterMap_fst t db) as Hf.
  rewrite Hg in Hf. simpl in Hf. unfold position.
  destruct (getCounterMap_counterOf t t db) as [Heq|(_ & -> & Heq)];
    rewrite Hg in Heq; simpl in Heq; rewrite Heq in Hf.
  - by rewrite <- Hf.
  - by inversion Hf.
Qed.

Lemma setCounterMap_counterOf t t' c db :
  counterOf t (setCounterMap t' c db) = if decide (t = t') then Some c else counterOf t db.
Proof.
  by_cases_on_types.
  - by rewrite lookup_insert_eq.
  - by rewrite lookup_insert_ne.
Qed.

Lemma set_objectsByHash_counterOf t m db :
  counterOf t (set_objectsByHash m db) = counterOf t db.
Proof. done. Qed.

Lemma setCounterMap_position t t' c db :
  position t (setCounterMap t' c db)
  = if decide (t = t') then CounterPos c else position t db.
Proof. unfold position. rewrite setCounterMap_counterOf. by case_decide. Qed.

Lemma getCounterMap_allocated t db : allocated db → allocated (getCounterMap t db).2.
Proof. by_cases_on_types. by destruct (unknownObjCounter db !! t). Qed.

Lemma getCounterMap_allocated_Some t db :
  allocated db → is_Some (getCounterMap t db).1.
Proof.
  by_cases_on_types; try tauto.
  by destruct (unknownObjCounter db !! t).
Qed.

Lemma setCounterMap_allocated t c db : allocated db → allocated (setCounterMap t c db).
Proof. by_cases_on_types; intros (?&?&?&?); eauto. Qed.

Lemma steady_refl db : steady db db.
Proof. by split. Qed.

Lemma steady_trans db1 db2 db3 : steady db1 db2 → steady db2 db3 → steady db1 db3.
Proof.
  intros [Hp1 Ha1] [Hp2 Ha2]. split; [|auto].
  intros t. by rewrite Hp2, Hp1.
Qed.

Lemma steady_getCounterMap t db : steady db (getCounterMap t db).2.
Proof.
  split; [|apply getCounterMap_allocated].
  intros t'. apply getCounterMap_position.
Qed.

Lemma steady_set_objectsByHash m db : steady db (set_objectsByHash m db).
Proof. by split. Qed.

Lemma steady_set_pubKeyByTag m db : steady db (set_pubKeyByTag m db).
Proof. by split. Qed.

(** A write through the pointer that keeps the position. *)
Lemma steady_setCounterMap t m db c db1 :
  getCounterMap t db = (Some c, db1) →
  steady db (setCounterMap t (mkCounter m (CounterPos c)) db1).
Proof.
  intros Hg. pose proof (steady_getCounterMap t db) as [Hp Ha].
  rewrite Hg in Hp, Ha. simpl in Hp, Ha.
  split; [|by intros ?; apply setCounterMap_allocated, Ha].
  intros t'. rewrite setCounterMap_position. simpl. case_decide; [|done].
  subst. by apply getCounterMap_Some_position in Hg.
Qed.

Lemma steady_removeFromCounter sched t hash db :
  steady db (removeFromCounter sched t hash db).
Proof.
  unfold removeFromCounter.
  pose proof (steady_getCounterMap t db) as Hs.
  destruct (getCounterMap t db) as [[c|] db1] eqn:Hg; simpl in Hs; [|done].
  by eapply steady_setCounterMap.
Qed.

(** *** Removals and reads leave every position alone *)

Lemma RemoveObject_steady sched hash db : steady db (RemoveObject sched hash db).2.
Proof.
  unfold RemoveObject. destruct (closed db); [apply steady_refl|].
  destruct (objectsByHash db !! hash); [|apply steady_refl].
  destruct (DecodeMsgObjectHeader _) as [hdr|]; [|apply steady_refl].
  simpl. eapply steady_trans; [apply steady_removeFromCounter|].
  apply steady_set_objectsByHash.
Qed.

Lemma RemoveObjectByCounter_steady t n db :
  steady db (RemoveObjectByCounter t n db).2.
Proof.
  unfold RemoveObjectByCounter. destruct (closed db); [apply steady_refl|].
  pose proof (steady_getCounterMap t db) as Hs.
  destruct (getCounterMap t db) as [[c|] db1] eqn:Hg; simpl in Hs; [|done].
  destruct (ByCounter c !! n); [|done]. simpl.
  eapply steady_trans; [by eapply steady_setCounterMap|].
  apply steady_set_objectsByHash.
Qed.

Lemma sweep_steady now inner hashes db : steady db (sweep now inner hashes db).2.
Proof.
  revert db. induction hashes as [|hash hashes IH]; intros db; [apply steady_refl|].
  simpl. destruct (objectsByHash db !! hash); [|apply IH].
  destruct (DecodeMsgObjectHeader _) as [hdr|]; [|apply steady_refl].
  destruct (expired (now hash) hdr); [|apply IH].
  eapply steady_trans; [|apply IH].
  eapply steady_trans; [apply steady_removeFromCounter|].
  apply steady_set_objectsByHash.
Qed.

Lemma RemoveExpiredObjects_steady now outer inner db :
  steady db (RemoveExpiredObjects now outer inner db).2.
Proof.
  unfold RemoveExpiredObjects. destruct (closed db); [apply steady_refl|].
  apply sweep_steady.
Qed.

Lemma RemovePubKey_steady tag db : steady db (RemovePubKey tag db).2.
Proof.
  unfold RemovePubKey. destruct (closed db); [apply steady_refl|].
  destruct (pubKeyByTag db !! tag); [|apply steady_refl].
  apply steady_set_pubKeyByTag.
Qed.

Lemma GetCounter_steady t db : steady db (GetCounter t db).2.
Proof.
  unfold GetCounter, getCounterRef. destruct (closed db); [apply steady_refl|].
  pose proof (steady_getCounterMap t db) as Hs.
  by destruct (getCounterMap t db) as [[c|] db1].
Qed.

Lemma FetchObjectByCounter_steady t n db : steady db (FetchObjectByCounter t n db).2.
Proof.
  unfold FetchObjectByCounter. destruct (closed db); [apply steady_refl|].
  pose proof (steady_getCounterMap t db) as Hs.
  destruct (getCounterMap t db) as [[c|] db1]; [|done].
  destruct (ByCounter c !! n); [|done].
  by destruct (fetchObjectByHash _ _).
Qed.

Lemma FetchObjectsFromCounter_steady sched t n count db :
  steady db (FetchObjectsFromCounter sched t n count db).2.
Proof.
  unfold FetchObjectsFromCounter. destruct (closed db); [apply steady_refl|].
  pose proof (steady_getCounterMap t db) as Hs.
  destruct (getCounterMap t db) as [[c|] db1]; [|done].
  case_decide; [done|].
  destruct (collectKeys _ _ _ _ _) as [keys ?].
  by destruct (fetchKeys _ _ _).
Qed.

(** *** An insert moves the position of its counter by one *)

Lemma insertPubKey_inv data dataInsert db db1 :
  insertPubKey data dataInsert db = inr db1 → ∃ m, db1 = set_pubKeyByTag m db.
Proof.
  unfold insertPubKey. intros Hi.
  destruct (MsgPubKey_Decode data); [|done].
  destruct (pubKeyTag _); [done|].
  destruct (NewShaHash _); [|done].
  inversion Hi. eauto.
Qed.

Lemma InsertObject_Ok_inv data db db' hash n :
  allocated db → InsertObject data db = (Ok (hash, n), db') →
  ∃ hdr, DecodeMsgObjectHeader data = Some hdr
    ∧ closed db' = false ∧ allocated db'
    ∧ n = wrap64 (position (objType hdr) db + 1)
    ∧ position (objType hdr) db' = n
    ∧ ∀ t, t ≠ objType hdr → position t db' = position t db.
Proof.
  unfold InsertObject. intros Ha Hi.
  destruct (closed db) eqn:Hc; [done|].
  destruct (DecodeMsgObjectHeader data) as [hdr|]; [|done].
  destruct (NewShaHash (CalcInventoryHash data)) as [h|]; [|done].
  destruct (if decide (objType hdr = ObjectTypePubKey)
            then insertPubKey data data db else inr db) as [e|db1] eqn:Hpk; [done|].
  assert (∃ m, db1 = set_pubKeyByTag m db) as [m ->].
  { case_decide; [by eapply insertPubKey_inv|].
    inversion Hpk; subst. exists (pubKeyByTag db1). by destruct db1. }
  set (db2 := set_objectsByHash _ _) in Hi.
  assert (steady db db2) as [Hp2 Ha2] by done.
  pose proof (steady_getCounterMap (objType hdr) db2) as [Hp3 Ha3].
  pose proof (getCounterMap_closed (objType hdr) db2) as Hc3.
  pose proof (getCounterMap_allocated_Some (objType hdr) db2 (Ha2 Ha)) as [c Hsome].
  destruct (getCounterMap (objType hdr) db2) as [cm db3] eqn:Hg.
  simpl in *. subst cm. inversion Hi; subst. clear Hi.
  exists hdr. split; [done|].
  apply getCounterMap_Some_position in Hg as Hpos.
  split; [by rewrite setCounterMap_closed, Hc3|].
  split; [by apply setCounterMap_allocated, Ha3, Ha2|].
  split; [by rewrite Hpos, Hp2|].
  split.
  - rewrite setCounterMap_position. by rewrite decide_True.
  - intros t Hne. rewrite setCounterMap_position, decide_False by done.
    by rewrite Hp3, Hp2.
Qed.

End Positions.

(** ** The counters that a sequence of inserts returns *)

Section Sequences.
Context {ShaHash : Type} `{Countable ShaHash} {W : Wire ShaHash} {R : Runtime}.
Implicit Types (db : MemDb ShaHash) (t : ObjectType) (c : call (ShaHash := ShaHash)).

Lemma quiet_snd {A} (x : outcome A * MemDb ShaHash) : (quiet x).2 = x.2.
Proof. by destruct x as [[a|e|] db]. Qed.

Lemma quiet_fst {A} (x : outcome A * MemDb ShaHash) t n :
  (quiet x).1 ≠ Ok (Some (t, n)).
Proof. by destruct x as [[a|e|] db]. Qed.

Lemma exec_closed c db : closed db = true → exec c db = (Err ErrDbClosed, db).
Proof.
  intros Hc. destruct c; simpl;
    unfold InsertObject, RemoveObject, RemoveObjectByCounter, RemoveExpiredObjects,
      RemovePubKey, GetCounter, FetchObjectByCounter, FetchObjectsFromCounter, Close;
    by rewrite Hc.
Qed.

Lemma insertedCounters_closed t calls db :
  closed db = true → insertedCounters t calls db = ([], db).
Proof.
  intros Hc. induction calls as [|c calls IH]; [done|].
  simpl. by rewrite exec_closed.
Qed.

(** One call on an open store: a successful insert moves the position of its
    type by one and returns the new position; any other call, and a failed
    insert, either closes the store or leaves every position alone. *)
Lemma exec_open c db :
  allocated db →
  match exec c db with
  | (Ok (Some (t', n)), db') =>
      closed db' = false ∧ allocated db'
      ∧ n = wrap64 (position t' db + 1) ∧ position t' db' = n
      ∧ ∀ t, t ≠ t' → position t db' = position t db
  | (_, db') => closed db' = true ∨ steady db db'
  end.
Proof.
  intros Ha.
  assert (∀ {A} (x : outcome A * MemDb ShaHash),
    steady db x.2 →
    match quiet x with
    | (Ok (Some (t', n)), db') =>
        closed db' = false ∧ allocated db'
        ∧ n = wrap64 (position t' db + 1) ∧ position t' db' = n
        ∧ ∀ t, t ≠ t' → position t db' = position t db
    | (_, db') => closed db' = true ∨ steady db db'
    end) as Hquiet.
  { intros A [[a|e|] db'] Hs; simpl in *; auto. }
  destruct c; simpl.
  - destruct (InsertObject data db) as [[[hash n]|e|] db'] eqn:Hi.
    + destruct (InsertObject_Ok_inv _ _ _ _ _ Ha Hi) as (hdr & -> & Hrest). done.
    + apply InsertObject_Err_inv in Hi as ->. right. apply steady_refl.
    + exfalso. revert Hi. unfold InsertObject.
      destruct (closed db); [done|].
      destruct (DecodeMsgObjectHeader data) as [hdr|]; [|done].
      destruct (NewShaHash _); [|done].
      destruct (if decide (objType hdr = ObjectTypePubKey)
                then insertPubKey data data db else inr db); [done|].
      by destruct (getCounterMap _ _) as [[cm|] db2].
  - apply Hquiet, RemoveObject_steady.
  - apply Hquiet, RemoveObjectByCounter_steady.
  - apply Hquiet, RemoveExpiredObjects_steady.
  - apply Hquiet, RemovePubKey_steady.
  - apply Hquiet, GetCounter_steady.
  - apply Hquiet, FetchObjectByCounter_steady.
  - apply Hquiet, FetchObjectsFromCounter_steady.
  - unfold Close. destruct (closed db) eqn:Hc; simpl; auto.
Qed.

Lemma wrap64_succ_add p i : wrap64 (wrap64 (p + 1) + i) = wrap64 (p + (1 + i)).
Proof.
  unfold wrap64. rewrite Z.add_mod_idemp_l by lia. f_equal. lia.
Qed.

(** The counters returned for type [t] continue from the position of [t] in
    steps of one, and the position ends where the last of them left it. *)
Lemma insertedCounters_spec t calls db l db' :
  allocated db → closed db = false →
  insertedCounters t calls db = (l, db') →
  l = (λ i, wrap64 (position t db + i)) <$> seqZ 1 (Z.of_nat (length l))
  ∧ (closed db' = false →
     position t db' = match l with
                      | [] => position t db
                      | _ => wrap64 (position t db + Z.of_nat (length l))
                      end).
Proof.
  revert db l db'. induction calls as [|c calls IH]; intros db l db' Ha Hc Hr.
  { inversion Hr; subst. done. }
  simpl in Hr. pose proof (exec_open c db Ha) as Hstep.
  destruct (exec c db) as [r db1].
  assert (∀ l db', (closed db1 = true ∨ steady db db1) →
            insertedCounters t calls db1 = (l, db') →
            l = (λ i, wrap64 (position t db + i)) <$> seqZ 1 (Z.of_nat (length l))
            ∧ (closed db' = false →
               position t db' = match l with
                                | [] => position t db
                                | _ => wrap64 (position t db + Z.of_nat (length l))
                                end)) as Hsame.
  { clear Hr l db'. intros l db' [Hcl|[Hp Hal]] Hr.
    - rewrite insertedCounters_closed in Hr by done. inversion Hr; subst.
      split; [done|]. by rewrite Hcl.
    - destruct (closed db1) eqn:Hc1.
      + rewrite insertedCounters_closed in Hr by done. inversion Hr; subst.
        split; [done|]. by rewrite Hc1.
      + destruct (IH _ _ _ (Hal Ha) Hc1 Hr) as [Hl Hpos].
        by rewrite !Hp in Hl, Hpos. }
  destruct r as [[[t' n]|]|e|].
  - destruct Hstep as (Hc1 & Ha1 & Hn & Hpos & Hother).
    destruct (insertedCounters t calls db1) as [l1 db2] eqn:Hr1.
    destruct (IH _ _ _ Ha1 Hc1 Hr1) as [Hl1 Hp1].
    inversion Hr; subst l db'. clear Hr.
    case_decide as Ht.
    + subst t'. rewrite Hpos in Hl1, Hp1. split.
      * simpl length. rewrite Nat2Z.inj_succ.
        rewrite seqZ_cons by lia. rewrite fmap_cons. f_equal.
        { by rewrite Hn. }
        rewrite Z.pred_succ. rewrite <- (fmap_add_seqZ 1 1).
        rewrite <- list_fmap_compose. rewrite Hl1 at 1.
        apply list_fmap_ext. intros _ i _. simpl. rewrite Hn.
        apply wrap64_succ_add.
      * intros Hc2. rewrite (Hp1 Hc2). simpl length. rewrite Nat2Z.inj_succ, Hn.
        destruct l1 as [|n1 l1]; [done|].
        rewrite wrap64_succ_add. f_equal. simpl length. lia.
    + rewrite (Hother t) in Hl1, Hp1 by done. done.
  - apply Hsame; [done|]. by rewrite Hr.
  - apply Hsame; [done|]. by rewrite Hr.
  - inversion Hr; subst. split; [done|]. intros Hc'.
    destruct Hstep as [Hcl|[Hp _]]; [congruence|]. apply Hp.
Qed.

(** C7.  From a new store and through any sequence of calls (inserts of any
    types, removals by hash, by counter and by expiry, reads), the counters
    returned by the successful inserts of objects of one type [t] are 1, 2,
    ..., N in the order of the inserts, as long as N stays below [2^64]; the
    position of the counter of [t] ends at N.  No removal moves the position
    of any counter. *)
Theorem InsertObject_counters_sequential t calls :
  Z.of_nat (length (insertedCounters t calls newMemDb).1) < 2 ^ 64 →
  (insertedCounters t calls newMemDb).1
    = seqZ 1 (Z.of_nat (length (insertedCounters t calls newMemDb).1))
  ∧ (closed (insertedCounters t calls newMemDb).2 = false →
     position t (insertedCounters t calls newMemDb).2
       = Z.of_nat (length (insertedCounters t calls newMemDb).1))
  ∧ (∀ db t' sched hash,
       position t' (RemoveObject sched hash db).2 = position t' db)
  ∧ (∀ db t' objT n,
       position t' (RemoveObjectByCounter objT n db).2 = position t' db)
  ∧ (∀ db t' now outer inner,
       position t' (RemoveExpiredObjects now outer inner db).2 = position t' db).
Proof.
  intros Hbound.
  destruct (insertedCounters t calls newMemDb) as [l db'] eqn:Hr.
  simpl in *.
  assert (allocated (newMemDb (ShaHash := ShaHash))) as Ha.
  { unfold allocated, newMemDb. simpl. eauto. }
  destruct (insertedCounters_spec t calls newMemDb l db' Ha eq_refl Hr) as [Hl Hp].
  assert (position t (newMemDb (ShaHash := ShaHash)) = 0) as Hp0.
  { unfold position, counterOf, newMemDb. simpl. by repeat case_decide. }
  rewrite Hp0 in Hl, Hp.
  split; [|split; [|split; [|split]]].
  - rewrite Hl at 1. rewrite <- (list_fmap_id (seqZ 1 _)) at 2.
    apply list_fmap_ext. intros _ i Hi%list_elem_of_lookup_2%elem_of_seqZ.
    simpl. unfold wrap64. apply Z.mod_small. lia.
  - intros Hc. rewrite (Hp Hc). destruct l as [|n l]; [done|].
    unfold wrap64. apply Z.mod_small. simpl length in *. lia.
  - intros db t' sched hash. apply RemoveObject_steady.
  - intros db t' objT n. apply RemoveObjectByCounter_steady.
  - intros db t' now outer inner. apply RemoveExpiredObjects_steady.
Qed.

End Sequences.

(** Three messages inserted around an insert of a public key, a removal by
    counter and a sweep get the counters 1, 2 and 3. *)
Lemma InsertObject_counters_sequential_witness :
  Z.of_nat (length
    (insertedCounters (R := Sample.runtime) (W := Sample.wire) ObjectTypeMsg Sample.calls newMemDb).1)
    < 2 ^ 64
  ∧ (insertedCounters (R := Sample.runtime) (W := Sample.wire) ObjectTypeMsg Sample.calls newMemDb).1
    = [1; 2; 3].
Proof.
  assert (Z.of_nat (length
    (insertedCounters (R := Sample.runtime) (W := Sample.wire) ObjectTypeMsg Sample.calls newMemDb).1)
    < 2 ^ 64) as Hb by (vm_compute; reflexivity).
  split; [exact Hb|].
  etransitivity;
    [exact (proj1 (InsertObject_counters_sequential (W := Sample.wire)
                     ObjectTypeMsg Sample.calls Hb))|].
  vm_compute. reflexivity.
Defined.

(** ** The expiry sweep *)

Section DeleteFirstMatch.
Context {ShaHash : Type} `{EqDecision ShaHash}.
Implicit Types (m : gmap Z ShaHash) (order : list Z) (h : ShaHash).

Lemma deleteFirstMatch_subseteq order h m k v :
  deleteFirstMatch order h m !! k = Some v → m !! k = Some v.
Proof.
  induction order as [|k0 order IH]; simpl; [done|].
  case_decide; [|done]. by intros [_ ?]%lookup_delete_Some.
Qed.

(** Only an entry that holds [h] is deleted. *)
Lemma deleteFirstMatch_other order h m k v :
  m !! k = Some v → v ≠ h → deleteFirstMatch order h m !! k = Some v.
Proof.
  intros Hk Hv. induction order as [|k0 order IH]; simpl; [done|].
  case_decide as Hk0; [|done].
  apply lookup_delete_Some. split; [|done]. congruence.
Qed.

(** Where [h] sits under one key only, that key is deleted. *)
Lemma deleteFirstMatch_unique order h m k :
  k ∈ order → m !! k = Some h → (∀ k2, m !! k2 = Some h → k2 = k) →
  deleteFirstMatch order h m !! k = None.
Proof.
  intros Hin Hk Hu. induction order as [|k0 order IH]; simpl.
  { by apply not_elem_of_nil in Hin. }
  case_decide as Hk0.
  - rewrite (Hu k0 Hk0). apply lookup_delete_eq.
  - apply elem_of_cons in Hin as [->|Hin]; [done|]. by apply IH.
Qed.

End DeleteFirstMatch.

Section Sweep.
Context {ShaHash : Type} `{Countable ShaHash} {W : Wire ShaHash} {R : Runtime}.
Implicit Types (db : MemDb ShaHash) (t : ObjectType) (c : counter ShaHash).

Lemma expired_true now hdr :
  expired now hdr = true
  ↔ expiresTime hdr < now - Hour * 3 ∧ objType hdr ≠ ObjectTypePubKey.
Proof.
  unfold expired. rewrite andb_true_iff, negb_true_iff.
  rewrite bool_decide_eq_true, bool_decide_eq_false. done.
Qed.

Lemma getCounterMap_existing t db c :
  counterOf t db = Some c → getCounterMap t db = (Some c, db).
Proof.
  unfold counterOf, getCounterMap. intros Hc.
  repeat case_decide; by rewrite Hc.
Qed.

(** What [removeFromCounter] does to a counter that exists. *)
Lemma removeFromCounter_counterOf sched t hash db t' c :
  counterOf t' db = Some c →
  counterOf t' (removeFromCounter sched t hash db)
  = Some (if decide (t' = t)
          then mkCounter
                 (deleteFirstMatch (rangeKeys sched (ByCounter c)) hash (ByCounter c))
                 (CounterPos c)
          else c).
Proof.
  intros Hc. unfold removeFromCounter. case_decide as Ht.
  - subst t'. rewrite (getCounterMap_existing _ _ _ Hc).
    rewrite setCounterMap_counterOf. by rewrite decide_True.
  - destruct (getCounterMap_counterOf t' t db) as [Hsame|(? & _)]; [|done].
    destruct (getCounterMap t db) as [[c1|] db1]; simpl in Hsame.
    + rewrite setCounterMap_counterOf, decide_False by done. congruence.
    + congruence.
Qed.

(** One step of the sweep that removes [hash], seen from a counter. *)
Lemma removeFromCounter_bucket sched t hash db t' c :
  counterOf t' db = Some c →
  ∃ c1, counterOf t' (removeFromCounter sched t hash db) = Some c1
    ∧ CounterPos c1 = CounterPos c
    ∧ (∀ k v, ByCounter c1 !! k = Some v → ByCounter c !! k = Some v)
    ∧ (∀ k v, ByCounter c !! k = Some v → ¬ (v = hash ∧ t' = t) →
         ByCounter c1 !! k = Some v)
    ∧ (∀ k, ByCounter c !! k = Some hash → t' = t →
         (∀ k2, ByCounter c !! k2 = Some hash → k2 = k) →
         ByCounter c1 !! k = None).
Proof.
  intros Hc. eexists. split; [by apply removeFromCounter_counterOf|].
  case_decide as Ht; simpl.
  - split; [done|]. split; [|split].
    + intros k v. apply deleteFirstMatch_subseteq.
    + intros k v Hk Hv. apply deleteFirstMatch_other; [done|].
      intros ->. by apply Hv.
    + intros k Hk _ Hu. apply deleteFirstMatch_unique; [|done..].
      apply rangeKeys_elem_of. by rewrite Hk.
  - split; [done|]. split; [done|]. split; [done|]. done.
Qed.

(** The sweep runs to its end when every stored object decodes. *)
Lemma sweep_spec now inner hashes db :
  NoDup hashes → decodable db →
  ∃ db',
    sweep now inner hashes db = (Ok tt, db')
    ∧ pubKeyByTag db' = pubKeyByTag db
    ∧ (∀ hash obj,
         objectsByHash db' !! hash = Some obj
         ↔ objectsByHash db !! hash = Some obj
           ∧ ¬ (hash ∈ hashes ∧ doomed (now hash) obj = true))
    ∧ ∀ t c, counterOf t db = Some c →
        ∃ c', counterOf t db' = Some c' ∧ CounterPos c' = CounterPos c
          ∧ (∀ k hash, ByCounter c' !! k = Some hash → ByCounter c !! k = Some hash)
          ∧ (∀ k hash, ByCounter c !! k = Some hash →
               ¬ (hash ∈ hashes ∧ swept now t db hash) →
               ByCounter c' !! k = Some hash)
          ∧ (∀ k hash, ByCounter c !! k = Some hash →
               hash ∈ hashes → swept now t db hash →
               (∀ k2, ByCounter c !! k2 = Some hash → k2 = k) →
               ByCounter c' !! k = None).
Proof.
  revert db. induction hashes as [|h0 hashes IH]; intros db Hnd Hdec.
  { exists db. split; [done|]. split; [done|]. split.
    - intros hash obj. split; [|by intros [? _]].
      intros Hl. split; [done|]. by intros [?%not_elem_of_nil _].
    - intros t c Hc. exists c. split; [done|]. split; [done|].
      split; [done|]. split; [done|].
      intros k hash _ ?%not_elem_of_nil. done. }
  apply list.NoDup_cons in Hnd as [Hh0 Hnd]. simpl.
  destruct (objectsByHash db !! h0) as [obj0|] eqn:Hobj0.
  2: { (* the hash is not stored: nothing to do for it *)
    destruct (IH db Hnd Hdec) as (db' & Hs & Htag & Hobj & Hcnt).
    exists db'. split; [done|]. split; [done|]. split.
    - intros hash obj. rewrite Hobj. split; intros [Hl Hn]; split; try done.
      + intros [[->|Hin]%elem_of_cons Hd]; [congruence|]. by apply Hn.
      + intros [Hin Hd]. apply Hn. split; [|done]. by apply list_elem_of_further.
    - intros t c Hc. destruct (Hcnt t c Hc) as (c' & Hc' & Hpos & Hsub & Hkeep & Hdel).
      exists c'. split; [done|]. split; [done|]. split; [done|]. split.
      + intros k hash Hk Hn. apply Hkeep; [done|].
        intros [Hin Hsw]. apply Hn. split; [|done]. by apply list_elem_of_further.
      + intros k hash Hk [->|Hin]%elem_of_cons Hsw Hu.
        * destruct Hsw as (obj & hdr & Hl & _). congruence.
        * by apply (Hdel k hash). }
  destruct (Hdec h0 obj0 Hobj0) as [hdr0 Hhdr0]. rewrite Hhdr0.
  destruct (expired (now h0) hdr0) eqn:Hexp.
  - (* the object is removed *)
    set (db1 := set_objectsByHash _ _).
    assert (∀ hash, objectsByHash db1 !! hash
                    = if decide (hash = h0) then None else objectsByHash db !! hash)
      as Hobj1.
    { intros hash. unfold db1. simpl. rewrite removeFromCounter_objectsByHash.
      case_decide as Hh; [subst; apply lookup_delete_eq|].
      by rewrite lookup_delete_ne. }
    assert (decodable db1) as Hdec1.
    { intros hash obj. rewrite Hobj1. case_decide; [done|]. apply Hdec. }
    destruct (IH db1 Hnd Hdec1) as (db' & Hs & Htag & Hobj & Hcnt).
    exists db'. split; [done|]. split.
    { rewrite Htag. unfold db1. simpl. apply removeFromCounter_pubKeyByTag. }
    split.
    + intros hash obj. rewrite Hobj, Hobj1. case_decide as Hh.
      * subst hash. split; [by intros [? _]|].
        intros [Hl Hn]. exfalso. apply Hn. split; [apply list_elem_of_here|].
        unfold doomed. rewrite Hobj0 in Hl. inversion Hl; subst.
        by rewrite Hhdr0.
      * split; intros [Hl Hn]; split; try done.
        -- intros [[->|Hin]%elem_of_cons Hd]; [done|]. by apply Hn.
        -- intros [Hin Hd]. apply Hn. split; [|done]. by apply list_elem_of_further.
    + intros t c Hc.
      destruct (removeFromCounter_bucket (inner h0) (objType hdr0) h0 db t c Hc)
        as (c1 & Hc1 & Hpos1 & Hsub1 & Hkeep1 & Hdel1).
      assert (counterOf t db1 = Some c1) as Hc1' by done.
      destruct (Hcnt t c1 Hc1') as (c' & Hc' & Hpos & Hsub & Hkeep & Hdel).
      assert (swept now t db h0 ↔ t = objType hdr0) as Hsw0.
      { split.
        - intros (obj & hdr & Hl & Hh & _ & <-). congruence.
        - intros ->. by exists obj0, hdr0. }
      assert (∀ hash, hash ≠ h0 → swept now t db1 hash ↔ swept now t db hash) as Hsw1.
      { intros hash Hne. unfold swept.
        assert (objectsByHash db1 !! hash = objectsByHash db !! hash) as ->; [|done].
        by rewrite Hobj1, decide_False. }
      exists c'. split; [done|]. split; [congruence|]. split; [by auto|]. split.
      * intros k hash Hk Hn.
        assert (hash ≠ h0 ∨ t ≠ objType hdr0) as Hne.
        { destruct (decide (hash = h0)) as [->|]; [|by left]. right. intros Ht.
          apply Hn. split; [apply list_elem_of_here|]. by apply Hsw0. }
        apply Hkeep; [apply Hkeep1; [done|by intros [? ?]; destruct Hne]|].
        intros [Hin Hsw]. apply Hn. split; [by apply list_elem_of_further|].
        apply Hsw1; [|done]. by intros ->.
      * intros k hash Hk [->|Hin]%elem_of_cons Hsw Hu.
        -- apply Hsw0 in Hsw. specialize (Hdel1 k Hk Hsw Hu).
           destruct (ByCounter c' !! k) as [v|] eqn:Hv; [|done].
           apply Hsub in Hv. congruence.
        -- assert (hash ≠ h0) as Hne by (by intros ->).
           apply (Hdel k hash); [|done| |].
           ++ apply Hkeep1; [done|]. by intros [? _].
           ++ by apply Hsw1.
           ++ intros k2 Hk2. apply Hu. by apply Hsub1.
  - (* the object stays *)
    destruct (IH db Hnd Hdec) as (db' & Hs & Htag & Hobj & Hcnt).
    assert (¬ ∃ t, swept now t db h0) as Hsw0.
    { intros (t & obj & hdr & Hl & Hh & He & _). congruence. }
    exists db'. split; [done|]. split; [done|]. split.
    + intros hash obj. rewrite Hobj. split; intros [Hl Hn]; split; try done.
      * intros [[->|Hin]%elem_of_cons Hd]; [|by apply Hn].
        unfold doomed in Hd. rewrite Hobj0 in Hl. inversion Hl; subst.
        rewrite Hhdr0 in Hd. congruence.
      * intros [Hin Hd]. apply Hn. split; [|done]. by apply list_elem_of_further.
    + intros t c Hc. destruct (Hcnt t c Hc) as (c' & Hc' & Hpos & Hsub & Hkeep & Hdel).
      exists c'. split; [done|]. split; [done|]. split; [done|]. split.
      * intros k hash Hk Hn. apply Hkeep; [done|].
        intros [Hin Hsw]. apply Hn. split; [|done]. by apply list_elem_of_further.
      * intros k hash Hk [->|Hin]%elem_of_cons Hsw Hu.
        -- exfalso. apply Hsw0. by exists t.
        -- by apply (Hdel k hash).
Qed.

(** What the sweep removes.  On an open store whose objects all decode,
    [RemoveExpiredObjects] returns without error and:
    - the hash index loses exactly the objects whose expiry time lies more
      than three hours before the time at which the sweep checked them and
      whose type is not [PubKey] (the objects that are [doomed]); every other
      object, expired public keys among them, stays as it was;
    - the tag index is untouched;
    - every counter keeps its position and loses entries only: an entry whose
      hash is not that of a removed object of the counter's type stays, and
      an entry for a removed object of the counter's type is gone when the
      counter held that hash under this key only. *)
Theorem RemoveExpiredObjects_removes_expired now outer inner db :
  closed db = false → decodable db →
  ∃ db',
    RemoveExpiredObjects now outer inner db = (Ok tt, db')
    ∧ objectsByHash db'
      = filter (λ kv, doomed (now kv.1) kv.2 = false) (objectsByHash db)
    ∧ (∀ time obj, doomed time obj = true
         ↔ ∃ hdr, DecodeMsgObjectHeader obj = Some hdr
             ∧ expiresTime hdr < time - Hour * 3
             ∧ objType hdr ≠ ObjectTypePubKey)
    ∧ pubKeyByTag db' = pubKeyByTag db
    ∧ ∀ t c, counterOf t db = Some c →
        ∃ c', counterOf t db' = Some c' ∧ CounterPos c' = CounterPos c
          ∧ (∀ k hash, ByCounter c' !! k = Some hash → ByCounter c !! k = Some hash)
          ∧ (∀ k hash, ByCounter c !! k = Some hash → ¬ swept now t db hash →
               ByCounter c' !! k = Some hash)
          ∧ (∀ k hash, ByCounter c !! k = Some hash → swept now t db hash →
               (∀ k2, ByCounter c !! k2 = Some hash → k2 = k) →
               ByCounter c' !! k = None).
Proof.
  intros Hc Hdec. unfold RemoveExpiredObjects. rewrite Hc.
  destruct (sweep_spec now inner (rangeKeys outer (objectsByHash db)) db
              (rangeKeys_NoDup _ _) Hdec) as (db' & Hs & Htag & Hobj & Hcnt).
  exists db'. split; [done|]. split; [|split; [|split; [done|]]].
  - apply map_eq. intros hash. apply option_eq. intros obj.
    rewrite Hobj, map_lookup_filter_Some. simpl. split.
    + intros [Hl Hn]. split; [done|].
      destruct (doomed (now hash) obj) eqn:Hd; [|done].
      exfalso. apply Hn. split; [|done]. apply rangeKeys_elem_of. by rewrite Hl.
    + intros [Hl Hd]. split; [done|]. intros [_ ?]. congruence.
  - intros time obj. unfold doomed. destruct (DecodeMsgObjectHeader obj) as [hdr|].
    + rewrite expired_true. split; [by eauto|]. by intros (? & [= <-] & ?).
    + split; [done|]. by intros (? & ? & _).
  - intros t c Hcnt0.
    destruct (Hcnt t c Hcnt0) as (c' & Hc' & Hpos & Hsub & Hkeep & Hdel).
    exists c'. split; [done|]. split; [done|]. split; [done|]. split.
    + intros k hash Hk Hn. apply Hkeep; [done|]. by intros [_ ?].
    + intros k hash Hk Hsw Hu. apply (Hdel k hash); try done.
      destruct Hsw as (obj & _ & Hl & _). apply rangeKeys_elem_of. by rewrite Hl.
Qed.

End Sweep.

(** ** Paging with the keys visited in ascending order *)

Section SortedKeys.
Implicit Types (l : list Z).

Lemma StronglySorted_lt_filter (P : Z → Prop) `{∀ x, Decision (P x)} l :
  StronglySorted Z.lt l → StronglySorted Z.lt (filter P l).
Proof.
  induction 1 as [|x l Hl IH Hx]; [constructor|].
  rewrite filter_cons. case_decide; [|done].
  constructor; [done|]. apply list.Forall_forall.
  intros y [_ Hy]%list_elem_of_filter.
  by eapply list.Forall_forall in Hx.
Qed.

Lemma StronglySorted_lt_drop n l :
  StronglySorted Z.lt l → StronglySorted Z.lt (drop n l).
Proof.
  intros Hl. revert n. induction Hl as [|x l Hl IH Hx]; intros [|n]; simpl;
    try constructor; auto.
Qed.


Lemma StronglySorted_le_NoDup l :
  StronglySorted Z.le l → NoDup l → StronglySorted Z.lt l.
Proof.
  induction 1 as [|x l Hl IH Hx]; intros Hnd; [constructor|].
  apply list.NoDup_cons in Hnd as [Hx' Hnd]. constructor; [auto|].
  apply list.Forall_forall. intros y Hy.
  eapply list.Forall_forall in Hx; [|done].
  assert (x ≠ y) by (by intros ->). lia.
Qed.

Lemma StronglySorted_lt_le l : StronglySorted Z.lt l → StronglySorted Z.le l.
Proof.
  induction 1 as [|x l Hl IH Hx]; constructor; [done|].
  eapply list.Forall_impl; [done|]. simpl. lia.
Qed.



End SortedKeys.

Section Ascending.
Context {V : Type}.
Implicit Types (m : gmap Z V).

Lemma ascending_Permutation m : ascending m ≡ₚ (map_to_list m).*1.
Proof. apply merge_sort_Permutation. Qed.

Lemma ascending_sorted m : StronglySorted Z.lt (ascending m).
Proof.
  apply StronglySorted_le_NoDup.
  - apply StronglySorted_merge_sort; apply _.
  - rewrite ascending_Permutation. apply NoDup_fst_map_to_list.
Qed.



End Ascending.

Section AscendingFetch.
Context {ShaHash : Type} `{Countable ShaHash} {R : Runtime}.
Implicit Types (db : MemDb ShaHash) (t : ObjectType) (c : counter ShaHash).

Lemma collectKeys_spec order from count n acc :
  0 ≤ n ≤ count → count < 2 ^ 64 →
  (collectKeys order from count n acc).1
  = acc ++ take (Z.to_nat (count - n)) (filter (λ k, from ≤ k) order).
Proof.
  revert n acc. induction order as [|k order IH]; intros n acc Hn Hcount; simpl.
  { by rewrite filter_nil, take_nil, app_nil_r. }
  case_decide as Hk.
  { rewrite filter_cons_False by lia. by apply IH. }
  rewrite filter_cons_True by lia. case_decide as Hfull.
  { assert (Z.to_nat (count - n) = 0%nat) as -> by lia. simpl. by rewrite app_nil_r. }
  assert (wrap64 (n + 1) = n + 1) as -> by (unfold wrap64; apply Z.mod_small; lia).
  rewrite IH by lia.
  assert (Z.to_nat (count - n) = S (Z.to_nat (count - (n + 1)))) as -> by lia.
  simpl. by rewrite <- app_assoc.
Qed.

Section Bucket.
Variables (db : MemDb ShaHash) (t : ObjectType) (c : counter ShaHash).
Hypothesis Hopen : closed db = false.
Hypothesis Hcounter : counterOf t db = Some c.
Hypothesis Hstored :
  ∀ k hash, ByCounter c !! k = Some hash → is_Some (objectsByHash db !! hash).

Lemma fetchKeys_Ok keys :
  (∀ k, k ∈ keys → is_Some (ByCounter c !! k)) →
  fetchKeys c db keys = Ok (objectAt c db <$> keys).
Proof using Hstored.
  induction keys as [|k keys IH]; intros Hkeys; [done|].
  simpl. destruct (Hkeys k) as [hash Hhash]; [apply list_elem_of_here|].
  destruct (Hstored k hash Hhash) as [obj Hobj].
  unfold fetchObjectByHash, objectAt at 1. rewrite Hhash. simpl. rewrite Hobj.
  rewrite IH; [done|]. intros k' Hk'. apply Hkeys. by apply list_elem_of_further.
Qed.


(** What [FetchObjectsFromCounter] returns, whatever the order of the range:
    of the keys from [from] on, the first [count] that the range visits; their
    objects in ascending order of the keys; and the greatest of these keys,
    or 0 when there is none. *)
Lemma FetchObjectsFromCounter_keys sched from count :
  0 ≤ count < 2 ^ 64 → count ≤ maxSliceCap →
  FetchObjectsFromCounter sched t from count db
  = (Ok (objectAt c db
           <$> merge_sort Z.le
                 (take (Z.to_nat count)
                    (filter (λ k, from ≤ k) (rangeKeys sched (ByCounter c)))),
         default 0 (list.last
           (merge_sort Z.le
              (take (Z.to_nat count)
                 (filter (λ k, from ≤ k) (rangeKeys sched (ByCounter c))))))),
     db).
Proof using Hopen Hcounter Hstored.
  intros Hcount Hcap. unfold FetchObjectsFromCounter.
  rewrite Hopen, (getCounterMap_existing _ _ _ Hcounter).
  rewrite decide_False by lia.
  pose proof (collectKeys_spec (rangeKeys sched (ByCounter c)) from count 0 [])
    as Hkeys.
  destruct (collectKeys _ _ _ _ _) as [keys n]. simpl in Hkeys.
  rewrite Hkeys by lia. rewrite Z.sub_0_r.
  rewrite fetchKeys_Ok; [done|].
  intros k Hk. rewrite merge_sort_Permutation in Hk.
  apply subseteq_take, list_elem_of_filter in Hk as [_ Hk].
  by apply rangeKeys_elem_of in Hk.
Qed.


(** What holds of [FetchObjectsFromCounter] whatever the order of the range.
    On an open store, for a counter that holds no dangling hash: asked for
    more objects than the runtime accepts as the capacity of the key slice,
    the method panics in [make].  Otherwise it returns the objects of a list
    of keys of the counter together with the last of these keys, or 0 when
    the list is empty.  The keys are in strictly ascending order, none is
    below [from], and they are as many as [count] allows: [count] of them,
    or all the keys from [from] on when these are fewer; in that case they
    are exactly the keys from [from] on.  Which keys they are when there are
    more depends on the order of the range: they are the first [count] it
    visits. *)
Theorem FetchObjectsFromCounter_visited sched from count :
  0 ≤ count < 2 ^ 64 →
  (maxSliceCap < count →
   FetchObjectsFromCounter sched t from count db = (Panic, db))
  ∧ (count ≤ maxSliceCap →
     ∃ keys,
       FetchObjectsFromCounter sched t from count db
       = (Ok (objectAt c db <$> keys, default 0 (list.last keys)), db)
       ∧ StronglySorted Z.lt keys
       ∧ (∀ k, k ∈ keys → from ≤ k ∧ is_Some (ByCounter c !! k))
       ∧ keys ≡ₚ take (Z.to_nat count)
                   (filter (λ k, from ≤ k) (rangeKeys sched (ByCounter c)))
       ∧ length keys
         = (Z.to_nat count
            `min` length (filter (λ k, (from ≤ k)%Z) (ascending (ByCounter c))))%nat
       ∧ ((length (filter (λ k, (from ≤ k)%Z) (ascending (ByCounter c)))
           ≤ Z.to_nat count)%nat →
          keys = filter (λ k, from ≤ k) (ascending (ByCounter c)))).
Proof using Hopen Hcounter Hstored.
  intros Hcount. split.
  { intros Hcap. unfold FetchObjectsFromCounter.
    rewrite Hopen, (getCounterMap_existing _ _ _ Hcounter).
    by rewrite decide_True. }
  intros Hcap. eexists. split; [by apply FetchObjectsFromCounter_keys|].
  set (visited := filter (λ k, from ≤ k) (rangeKeys sched (ByCounter c))).
  assert (visited ≡ₚ filter (λ k, from ≤ k) (ascending (ByCounter c))) as Hperm.
  { unfold visited. apply filter_Permutation.
    by rewrite rangeKeys_Permutation, ascending_Permutation. }
  assert (NoDup visited) as Hnd.
  { unfold visited. apply list.NoDup_filter, rangeKeys_NoDup. }
  split; [|split; [|split; [|split]]].
  - apply StronglySorted_le_NoDup; [apply StronglySorted_merge_sort; apply _|].
    rewrite merge_sort_Permutation.
    eapply sublist_NoDup; [done|apply sublist_take].
  - intros k Hk. rewrite merge_sort_Permutation in Hk.
    apply subseteq_take, list_elem_of_filter in Hk as [? Hk].
    split; [done|]. by apply rangeKeys_elem_of in Hk.
  - apply merge_sort_Permutation.
  - rewrite merge_sort_Permutation, length_take. by rewrite Hperm.
  - intros Hall. rewrite take_ge by (by rewrite Hperm).
    apply (Sorted_unique Z.le).
    + apply Sorted_merge_sort, _.
    + apply StronglySorted_Sorted, StronglySorted_lt_le,
        StronglySorted_lt_filter, ascending_sorted.
    + by rewrite merge_sort_Permutation.
Qed.


End Bucket.
End AscendingFetch.

(** Two of three messages asked for, with the range visiting key 3 first. *)
Lemma FetchObjectsFromCounter_visited_witness :
  ∃ keys,
    FetchObjectsFromCounter (R := Sample.runtime) [3; 1; 2] ObjectTypeMsg 1 2 Sample.dbABC
    = (Ok (objectAt Sample.counterABC Sample.dbABC <$> keys,
           default 0 (list.last keys)), Sample.dbABC)
    ∧ keys ≡ₚ [3; 1]
    ∧ length keys = 2%nat.
Proof.
  assert (closed Sample.dbABC = false) as Hopen by reflexivity.
  assert (counterOf ObjectTypeMsg Sample.dbABC = Some Sample.counterABC) as Hc
    by (vm_compute; reflexivity).
  assert (map_Forall (λ _ hash, is_Some (objectsByHash Sample.dbABC !! hash))
            (ByCounter Sample.counterABC)) as Hstored
    by (apply (bool_decide_unpack _); vm_compute; exact I).
  assert (0 ≤ 2 < 2 ^ 64) as Hcount by lia.
  assert (2 ≤ maxSliceCap (Runtime := Sample.runtime)) as Hcap
    by (vm_compute; discriminate).
  destruct (proj2 (FetchObjectsFromCounter_visited (R := Sample.runtime)
                     Sample.dbABC ObjectTypeMsg Sample.counterABC Hopen Hc
                     Hstored [3; 1; 2] 1 2 Hcount) Hcap)
    as (keys & Hfetch & _ & _ & Hkeys & Hlen & _).
  exists keys. split; [exact Hfetch|]. split.
  - rewrite Hkeys. vm_compute. reflexivity.
  - rewrite Hlen. vm_compute. reflexivity.
Defined.

Section Paging.
Context {ShaHash : Type} `{Countable ShaHash} {R : Runtime}.
Implicit Types (db : MemDb ShaHash) (t : ObjectType) (c : counter ShaHash).



End Paging.




(** The sweep at hour 100 over two expired messages, a live message and an
    expired public key leaves the live message and the public key. *)
Lemma RemoveExpiredObjects_removes_expired_witness :
  ∃ db',
    RemoveExpiredObjects (W := Sample.wire) (λ _, 100 * Hour) [] (λ _, []) Sample.dbFull
      = (Ok tt, db')
    ∧ objectsByHash db'
      = {[ Sample.hashOf Sample.msgC := Sample.msgC;
           Sample.hashOf Sample.keyA := Sample.keyA ]}.
Proof.
  assert (closed Sample.dbFull = false) as Hopen by reflexivity.
  assert (decodable (W := Sample.wire) Sample.dbFull) as Hdec.
  { change (map_Forall (λ _ obj, is_Some (Sample.decodeHeader obj))
              (objectsByHash Sample.dbFull)).
    apply (bool_decide_unpack _). vm_compute. exact I. }
  destruct (RemoveExpiredObjects_removes_expired (W := Sample.wire)
              (λ _, 100 * Hour) [] (λ _, []) Sample.dbFull Hopen Hdec)
    as (db' & Hsweep & Hobjects & _).
  exists db'. split; [exact Hsweep|].
  rewrite Hobjects. vm_compute. reflexivity.
Defined.

(** C6 on a store into which the message [msgA], expiring at hour 1, was
    inserted twice.  The sweep at hour 100 returns without error and removes
    [msgA] from the hash index, but of the two entries that the message
    counter holds for it only the first one visited is deleted: the other
    stays, and [FetchObjectByCounter] on it panics. *)
Lemma RemoveExpiredObjects_leaves_entry :
  (ByCounter <$> counterOf ObjectTypeMsg Sample.dbAA)
    = Some {[ 1 := Sample.hashOf Sample.msgA; 2 := Sample.hashOf Sample.msgA ]}
  ∧ (RemoveExpiredObjects (W := Sample.wire) (λ _, 100 * Hour) [] (λ _, [1]) Sample.dbAA).1
    = Ok tt
  ∧ objectsByHash
      (RemoveExpiredObjects (W := Sample.wire) (λ _, 100 * Hour) [] (λ _, [1]) Sample.dbAA).2
    = ∅
  ∧ (ByCounter <$> counterOf ObjectTypeMsg
       (RemoveExpiredObjects (W := Sample.wire) (λ _, 100 * Hour) [] (λ _, [1]) Sample.dbAA).2)
    = Some {[ 2 := Sample.hashOf Sample.msgA ]}
  ∧ (FetchObjectByCounter ObjectTypeMsg 2
       (RemoveExpiredObjects (W := Sample.wire) (λ _, 100 * Hour) [] (λ _, [1]) Sample.dbAA).2).1
    = Panic.
Proof. by vm_compute. Qed.

(** ** The invariants hold as long as no object is inserted twice *)

Section Invariants.
Context {ShaHash : Type} `{Countable ShaHash} {W : Wire ShaHash} {R : Runtime}.
Implicit Types (db : MemDb ShaHash) (t : ObjectType) (c : counter ShaHash).

Lemma wellTyped_noDangling db : wellTyped db → noDangling db.
Proof.
  intros Hw t c k hash Hc Hk. destruct (Hw t c k hash Hc Hk) as (obj & _ & -> & _).
  by eexists.
Qed.

Lemma consistent_newMemDb : consistent (newMemDb (ShaHash := ShaHash)).
Proof.
  assert (∀ t c k hash, counterOf t (newMemDb (ShaHash := ShaHash)) = Some c →
            ByCounter c !! k = Some hash → False) as Hempty.
  { intros t c k hash. unfold counterOf, newMemDb. simpl.
    repeat case_decide; intros [= <-]; simpl; by rewrite ?lookup_empty. }
  split.
  - intros t c k hash Hc Hk. by destruct (Hempty t c k hash).
  - intros t c k1 k2 hash Hc Hk. by destruct (Hempty t c k1 hash).
Qed.

(** A store whose counters hold only entries that [db] holds, for hashes whose
    objects are as in [db], is consistent when [db] is. *)
Lemma consistent_shrink db db' :
  consistent db →
  (∀ t c' k hash, counterOf t db' = Some c' → ByCounter c' !! k = Some hash →
     ∃ c, counterOf t db = Some c ∧ ByCounter c !! k = Some hash) →
  (∀ t c' k hash, counterOf t db' = Some c' → ByCounter c' !! k = Some hash →
     objectsByHash db' !! hash = objectsByHash db !! hash) →
  consistent db'.
Proof.
  intros [Hw Hd] Hentries Hobjects. split.
  - intros t c' k hash Hc' Hk.
    destruct (Hentries t c' k hash Hc' Hk) as (c & Hc & Hk0).
    rewrite (Hobjects t c' k hash Hc' Hk). by eapply Hw.
  - intros t c' k1 k2 hash Hc' Hk1 Hk2.
    destruct (Hentries t c' k1 hash Hc' Hk1) as (c1 & Hc1 & Hk1').
    destruct (Hentries t c' k2 hash Hc' Hk2) as (c2 & Hc2 & Hk2').
    rewrite Hc1 in Hc2. inversion Hc2; subst c2. by eapply Hd.
Qed.

Lemma getCounterMap_entries t db t' c' k hash :
  counterOf t' (getCounterMap t db).2 = Some c' → ByCounter c' !! k = Some hash →
  counterOf t' db = Some c'.
Proof.
  intros Hc' Hk.
  destruct (getCounterMap_counterOf t' t db) as [<-|(_ & _ & Hnew)]; [done|].
  rewrite Hnew in Hc'. inversion Hc'; subst c'. simpl in Hk.
  by rewrite lookup_empty in Hk.
Qed.

(** A store that differs from [db] by counters created on the way. *)
Lemma consistent_getCounterMap t db : consistent db → consistent (getCounterMap t db).2.
Proof.
  intros Hdb. apply (consistent_shrink db); [done| |].
  - intros t' c' k hash Hc' Hk. exists c'. split; [|done].
    by eapply getCounterMap_entries.
  - intros. by rewrite getCounterMap_objectsByHash.
Qed.

(** The entries that a counter holds after [removeFromCounter]: entries it
    held before, and an entry for [hash] in the counter of [t] only if that
    counter held [hash] under several keys. *)
Lemma removeFromCounter_entries sched t hash db t' c' k h :
  counterOf t' (removeFromCounter sched t hash db) = Some c' →
  ByCounter c' !! k = Some h →
  ∃ c, counterOf t' db = Some c ∧ ByCounter c !! k = Some h
    ∧ (t' = t → h = hash → ¬ ∀ k2, ByCounter c !! k2 = Some hash → k2 = k).
Proof.
  intros Hc' Hk. destruct (counterOf t' db) as [c|] eqn:Hc.
  - rewrite (removeFromCounter_counterOf sched t hash db t' c Hc) in Hc'.
    inversion Hc'; subst c'. clear Hc'. exists c. split; [done|].
    case_decide as Ht; simpl in Hk.
    + split; [by eapply deleteFirstMatch_subseteq|].
      intros _ -> Hu.
      assert (ByCounter c !! k = Some hash) as Hk0
        by (by eapply deleteFirstMatch_subseteq).
      rewrite deleteFirstMatch_unique in Hk; [done| |done..].
      apply rangeKeys_elem_of. by rewrite Hk0.
    + split; [done|]. by intros ->.
  - exfalso. revert Hc' Hk. unfold removeFromCounter.
    pose proof (getCounterMap_fst t db) as Hfst.
    destruct (getCounterMap_counterOf t' t db) as [Hsame|(-> & _ & Hnew)].
    + destruct (getCounterMap t db) as [[c1|] db1]; simpl in *.
      * rewrite setCounterMap_counterOf. case_decide as Ht; [|congruence].
        subst t'. congruence.
      * congruence.
    + destruct (getCounterMap t db) as [[c1|] db1]; simpl in *; [|congruence].
      rewrite setCounterMap_counterOf, decide_True by done.
      intros [= <-] Hk. simpl in Hk. apply deleteFirstMatch_subseteq in Hk.
      rewrite Hnew in Hfst. inversion Hfst; subst c1. simpl in Hk.
      by rewrite lookup_empty in Hk.
Qed.

(** Removing one stored object from its counter and from the hash index, as
    [RemoveObject] and the sweep do. *)
Lemma consistent_removeOne sched hash obj hdr db :
  consistent db →
  objectsByHash db !! hash = Some obj → DecodeMsgObjectHeader obj = Some hdr →
  consistent
    (set_objectsByHash
       (delete hash (objectsByHash (removeFromCounter sched (objType hdr) hash db)))
       (removeFromCounter sched (objType hdr) hash db)).
Proof.
  intros Hdb Hobj Hhdr. apply (consistent_shrink db); [done| |].
  - intros t c' k h Hc' Hk.
    destruct (removeFromCounter_entries _ _ _ _ _ _ _ _ Hc' Hk) as (c & ? & ? & _).
    by exists c.
  - intros t c' k h Hc' Hk. simpl. rewrite removeFromCounter_objectsByHash.
    destruct (removeFromCounter_entries _ _ _ _ _ _ _ _ Hc' Hk)
      as (c & Hc & Hk0 & Hdup).
    destruct (decide (h = hash)) as [->|Hne]; [|by rewrite lookup_delete_ne].
    exfalso. destruct Hdb as [Hw Hd].
    destruct (Hw t c k hash Hc Hk0) as (obj' & hdr' & Hobj' & Hhdr' & Ht).
    assert (t = objType hdr) as Htype by congruence.
    apply (Hdup Htype eq_refl). intros k2 Hk2. by eapply Hd.
Qed.

Lemma consistent_RemoveObject sched hash db :
  consistent db → consistent (RemoveObject sched hash db).2.
Proof.
  intros Hdb. unfold RemoveObject. destruct (closed db); [done|].
  destruct (objectsByHash db !! hash) as [obj|] eqn:Hobj; [|done].
  destruct (DecodeMsgObjectHeader obj) as [hdr|] eqn:Hhdr; [|done].
  by eapply consistent_removeOne.
Qed.

Lemma consistent_sweep now inner hashes db :
  consistent db → consistent (sweep now inner hashes db).2.
Proof.
  revert db. induction hashes as [|hash hashes IH]; intros db Hdb; [done|].
  simpl. destruct (objectsByHash db !! hash) as [obj|] eqn:Hobj; [|by apply IH].
  destruct (DecodeMsgObjectHeader obj) as [hdr|] eqn:Hhdr; [|done].
  destruct (expired (now hash) hdr); [|by apply IH].
  apply IH. by eapply consistent_removeOne.
Qed.

Lemma consistent_RemoveExpiredObjects now outer inner db :
  consistent db → consistent (RemoveExpiredObjects now outer inner db).2.
Proof.
  intros Hdb. unfold RemoveExpiredObjects. destruct (closed db); [done|].
  by apply consistent_sweep.
Qed.

Lemma consistent_RemoveObjectByCounter t n db :
  consistent db → consistent (RemoveObjectByCounter t n db).2.
Proof.
  intros Hdb. unfold RemoveObjectByCounter. destruct (closed db); [done|].
  pose proof (consistent_getCounterMap t db Hdb) as Hdb1.
  pose proof (getCounterMap_fst t db) as Hfst.
  destruct (getCounterMap t db) as [[c|] db1]; simpl in *; [|done].
  destruct (ByCounter c !! n) as [hash|] eqn:Hn; [|done]. simpl.
  apply (consistent_shrink db1); [done| |].
  - intros t' c' k h. rewrite set_objectsByHash_counterOf, setCounterMap_counterOf.
    case_decide as Ht.
    + subst t'. intros [= <-]. simpl. intros [_ Hk]%lookup_delete_Some.
      by exists c.
    + intros Hc' Hk. by exists c'.
  - intros t' c' k h. rewrite set_objectsByHash_counterOf, setCounterMap_counterOf.
    change (objectsByHash (set_objectsByHash ?m _)) with m.
    rewrite setCounterMap_objectsByHash.
    intros Hc' Hk.
    destruct (decide (h = hash)) as [->|Hne]; [|by rewrite lookup_delete_ne].
    exfalso. destruct Hdb1 as [Hw Hd].
    destruct (Hw t c n hash (eq_sym Hfst) Hn) as (obj & hdr & Hobj & Hhdr & Ht).
    case_decide as Ht'.
    + subst t'. inversion Hc'; subst c'. simpl in Hk.
      apply lookup_delete_Some in Hk as [Hne Hk].
      apply Hne. by eapply (Hd t c).
    + destruct (Hw t' c' k hash Hc' Hk) as (obj' & hdr' & Hobj' & Hhdr' & Ht'').
      congruence.
Qed.

Lemma consistent_InsertObject data db :
  consistent db →
  (∀ hash, NewShaHash (CalcInventoryHash data) = Some hash →
     objectsByHash db !! hash = None) →
  consistent (InsertObject data db).2.
Proof.
  intros Hdb Hfresh. unfold InsertObject. destruct (closed db); [done|].
  destruct (DecodeMsgObjectHeader data) as [hdr|] eqn:Hhdr; [|done].
  destruct (NewShaHash (CalcInventoryHash data)) as [hash|]; [|done].
  specialize (Hfresh hash eq_refl).
  destruct (if decide (objType hdr = ObjectTypePubKey)
            then insertPubKey data data db else inr db) as [e|db1] eqn:Hpk; [done|].
  assert (∃ m, db1 = set_pubKeyByTag m db) as [m ->].
  { case_decide; [by eapply insertPubKey_inv|].
    inversion Hpk; subst. exists (pubKeyByTag db1). by destruct db1. }
  clear Hpk. set (db2 := set_objectsByHash _ _).
  (* the store with the object in the hash index, before the counter moves *)
  assert (consistent db2) as Hdb2.
  { destruct Hdb as [Hw Hd]. split; [|exact Hd].
    intros t c k h Hc Hk. destruct (Hw t c k h Hc Hk) as (obj & hdr' & Hobj & ?).
    exists obj, hdr'. split; [|done]. unfold db2. simpl.
    rewrite lookup_insert_ne; [done|]. intros <-. simpl in Hfresh. congruence. }
  assert (∀ t c k, counterOf t db2 = Some c → ByCounter c !! k ≠ Some hash) as Hnew.
  { intros t c k Hc Hk. destruct Hdb as [Hw _].
    destruct (Hw t c k hash Hc Hk) as (obj & _ & Hobj & _).
    simpl in Hfresh. congruence. }
  assert (objectsByHash db2 !! hash = Some data) as Hstored.
  { unfold db2. simpl. apply lookup_insert_eq. }
  clearbody db2. clear Hfresh Hdb.
  pose proof (consistent_getCounterMap (objType hdr) db2 Hdb2) as Hdb3.
  pose proof (getCounterMap_fst (objType hdr) db2) as Hfst.
  pose proof (getCounterMap_objectsByHash (objType hdr) db2) as Hobj3.
  assert (∀ t c k, counterOf t (getCounterMap (objType hdr) db2).2 = Some c →
            ByCounter c !! k ≠ Some hash) as Hnew3.
  { intros t c k Hc Hk. eapply Hnew; [|done]. by eapply getCounterMap_entries. }
  destruct (getCounterMap (objType hdr) db2) as [[c0|] db3]; simpl in *; [|done].
  destruct Hdb3 as [Hw Hd]. split.
  - intros t c k h. rewrite setCounterMap_counterOf, setCounterMap_objectsByHash.
    case_decide as Ht.
    + subst t. intros [= <-]. simpl.
      destruct (decide (wrap64 (CounterPos c0 + 1) = k)) as [<-|Hk].
      * rewrite lookup_insert_eq. intros [= <-]. exists data, hdr.
        by rewrite Hobj3.
      * rewrite lookup_insert_ne by done. by apply Hw.
    + apply Hw.
  - intros t c k1 k2 h. rewrite setCounterMap_counterOf. case_decide as Ht.
    + subst t. intros [= <-]. simpl. intros Hk1 Hk2.
      destruct (decide (wrap64 (CounterPos c0 + 1) = k1)) as [<-|Hne1];
        destruct (decide (wrap64 (CounterPos c0 + 1) = k2)) as [<-|Hne2]; [done|..].
      * rewrite lookup_insert_eq in Hk1. rewrite lookup_insert_ne in Hk2 by done.
        inversion Hk1; subst h. by destruct (Hnew3 _ _ _ (eq_sym Hfst) Hk2).
      * rewrite lookup_insert_eq in Hk2. rewrite lookup_insert_ne in Hk1 by done.
        inversion Hk2; subst h. by destruct (Hnew3 _ _ _ (eq_sym Hfst) Hk1).
      * rewrite lookup_insert_ne in Hk1, Hk2 by done. by eapply (Hd _ c0).
    + apply Hd.
Qed.

(** The reads, which may create a counter on the way, and the calls that do
    not touch the counters. *)
Lemma consistent_reads db :
  consistent db →
  (∀ t, consistent (GetCounter t db).2)
  ∧ (∀ t n, consistent (FetchObjectByCounter t n db).2)
  ∧ (∀ sched t n count, consistent (FetchObjectsFromCounter sched t n count db).2)
  ∧ (∀ tag, consistent (RemovePubKey tag db).2)
  ∧ consistent (Close db).2.
Proof.
  intros Hdb. split; [|split; [|split; [|split]]].
  - intros t. unfold GetCounter, getCounterRef. destruct (closed db); [done|].
    pose proof (consistent_getCounterMap t db Hdb).
    by destruct (getCounterMap t db) as [[c|] db1].
  - intros t n. unfold FetchObjectByCounter. destruct (closed db); [done|].
    pose proof (consistent_getCounterMap t db Hdb).
    destruct (getCounterMap t db) as [[c|] db1]; [|done].
    destruct (ByCounter c !! n); [|done]. by destruct (fetchObjectByHash _ _).
  - intros sched t n count. unfold FetchObjectsFromCounter.
    destruct (closed db); [done|].
    pose proof (consistent_getCounterMap t db Hdb).
    destruct (getCounterMap t db) as [[c|] db1]; [|done].
    case_decide; [done|].
    destruct (collectKeys _ _ _ _ _). by destruct (fetchKeys _ _ _).
  - intros tag. unfold RemovePubKey. destruct (closed db); [done|].
    by destruct (pubKeyByTag db !! tag).
  - unfold Close. destruct (closed db); [done|]. simpl. split.
    + intros t c k hash. unfold counterOf. simpl. by repeat case_decide.
    + intros t c k1 k2 hash. unfold counterOf. simpl. by repeat case_decide.
Qed.

(** A new store is consistent, and every call that does not insert an object
    the store already holds takes a consistent store to a consistent store:
    one in which no counter holds a dangling hash (I1) and no counter holds a
    hash under two keys (I2). *)
Theorem consistent_exec :
  consistent (newMemDb (ShaHash := ShaHash))
  ∧ ∀ (c : call (ShaHash := ShaHash)) db,
      consistent db → freshInsert c db →
      consistent (exec c db).2
      ∧ noDangling (exec c db).2 ∧ noDuplicates (exec c db).2.
Proof.
  split; [apply consistent_newMemDb|]. intros c db Hdb Hfresh.
  assert (consistent (exec c db).2) as Hc.
  { destruct (consistent_reads db Hdb) as (Hg & Hf & Hfs & Hr & Hcl).
    destruct c; simpl; rewrite ?quiet_snd; auto.
    - pose proof (consistent_InsertObject data db Hdb Hfresh) as Hi.
      destruct (InsertObject data db) as [[[hash n]|e|] db']; simpl in *; [|done..].
      by destruct (DecodeMsgObjectHeader data).
    - by apply consistent_RemoveObject.
    - by apply consistent_RemoveObjectByCounter.
    - by apply consistent_RemoveExpiredObjects. }
  split; [done|]. split; [apply wellTyped_noDangling|]; apply Hc.
Qed.

End Invariants.

(** ** Stores and calls

    What a successful insert writes, what the other calls leave, what a call
    keeps of the state of the store it is made on, and what a write of the
    caller to a fetched slice undoes of it. *)

Section Stores.
Context {ShaHash : Type} `{Countable ShaHash} {W : Wire ShaHash} {R : Runtime}.
Implicit Types (db : MemDb ShaHash) (t : ObjectType) (c : counter ShaHash).

Lemma getCounterMap_default t db :
  allocated db →
  (getCounterMap t db).1 = Some (default (mkCounter ∅ 0) (counterOf t db)).
Proof.
  intros ([c1 H1] & [c2 H2] & [c3 H3] & [c4 H4]).
  unfold getCounterMap, counterOf. repeat case_decide; rewrite ?H1, ?H2, ?H3, ?H4; try done.
  by destruct (unknownObjCounter db !! t).
Qed.

Lemma InsertObject_never_panics data db : (InsertObject data db).1 ≠ Panic.
Proof.
  unfold InsertObject. destruct (closed db); [done|].
  destruct (DecodeMsgObjectHeader data) as [hdr|]; [|done].
  destruct (NewShaHash _); [|done].
  destruct (if decide (objType hdr = ObjectTypePubKey)
            then insertPubKey data data db else inr db); [done|].
  by destruct (getCounterMap _ _) as [[cm|] db2].
Qed.

(** A successful insert leaves the object under the hash it returns. *)
Lemma InsertObject_stored data db db' hash n :
  InsertObject data db = (Ok (hash, n), db') →
  closed db' = false
  ∧ NewShaHash (CalcInventoryHash data) = Some hash
  ∧ objectsByHash db' !! hash = Some data.
Proof.
  unfold InsertObject. intros Hi.
  destruct (closed db) eqn:Hc; [done|].
  destruct (DecodeMsgObjectHeader data) as [hdr|]; [|done].
  destruct (NewShaHash (CalcInventoryHash data)) as [h|]; [|done].
  destruct (if decide (objType hdr = ObjectTypePubKey)
            then insertPubKey data data db else inr db) as [e|db1] eqn:Hpk; [done|].
  assert (closed db1 = false) as Hc1.
  { case_decide; [|by inversion Hpk; subst].
    apply insertPubKey_frame in Hpk as [_ ->]. done. }
  pose proof (getCounterMap_objectsByHash (objType hdr)
    (set_objectsByHash (<[h:=data]> (objectsByHash db1)) db1)) as Ho.
  pose proof (getCounterMap_closed (objType hdr)
    (set_objectsByHash (<[h:=data]> (objectsByHash db1)) db1)) as Hcl.
  destruct (getCounterMap _ _) as [cm db2]. simpl in Ho, Hcl.
  destruct cm as [cm|]; inversion Hi; subst.
  - rewrite setCounterMap_closed, setCounterMap_objectsByHash, Hcl, Ho.
    by rewrite lookup_insert_eq.
  - rewrite Hcl, Ho. by rewrite lookup_insert_eq.
Qed.

Lemma InsertObject_Ok_store data db db' hash n :
  allocated db →
  InsertObject data db = (Ok (hash, n), db') →
  ∃ hdr,
    closed db = false ∧ closed db' = false ∧ allocated db'
    ∧ DecodeMsgObjectHeader data = Some hdr
    ∧ NewShaHash (CalcInventoryHash data) = Some hash
    ∧ objectsByHash db' = <[hash := data]> (objectsByHash db)
    ∧ (if decide (objType hdr = ObjectTypePubKey) then
         ∃ msg bytes tag,
           MsgPubKey_Decode data = Some msg ∧ pubKeyTag msg = inr bytes
           ∧ NewShaHash bytes = Some tag
           ∧ pubKeyByTag db' = <[tag := data]> (pubKeyByTag db)
       else pubKeyByTag db' = pubKeyByTag db)
    ∧ counterOf (objType hdr) db'
      = Some (counter_Insert hash
                (default (mkCounter ∅ 0) (counterOf (objType hdr) db)))
    ∧ n = wrap64 (position (objType hdr) db + 1)
    ∧ ∀ t, t ≠ objType hdr → counterOf t db' = counterOf t db.
Proof.
  unfold InsertObject. intros Ha Hi.
  destruct (closed db) eqn:Hc; [done|].
  destruct (DecodeMsgObjectHeader data) as [hdr|]; [|done].
  destruct (NewShaHash (CalcInventoryHash data)) as [h|]; [|done].
  destruct (if decide (objType hdr = ObjectTypePubKey)
            then insertPubKey data data db else inr db) as [e|db1] eqn:Hpk; [done|].
  assert (∃ m, db1 = set_pubKeyByTag m db
            ∧ if decide (objType hdr = ObjectTypePubKey) then
                ∃ msg bytes tag,
                  MsgPubKey_Decode data = Some msg ∧ pubKeyTag msg = inr bytes
                  ∧ NewShaHash bytes = Some tag
                  ∧ m = <[tag := data]> (pubKeyByTag db)
              else m = pubKeyByTag db) as (m & -> & Hm).
  { case_decide.
    - unfold insertPubKey in Hpk.
      destruct (MsgPubKey_Decode data) as [msg|]; [|done].
      destruct (pubKeyTag msg) as [|bytes] eqn:Ht; [done|].
      destruct (NewShaHash bytes) as [tag|] eqn:Hn; [|done].
      inversion Hpk; subst. eexists. split; [done|]. by exists msg, bytes, tag.
    - inversion Hpk; subst. exists (pubKeyByTag db1). by destruct db1. }
  clear Hpk. set (db2 := set_objectsByHash _ _) in Hi.
  assert (allocated db2) as Ha2 by done.
  assert (∀ t, counterOf t db2 = counterOf t db) as Hc2 by done.
  pose proof (getCounterMap_default (objType hdr) db2 Ha2) as Hd.
  pose proof (getCounterMap_closed (objType hdr) db2) as Hc3.
  pose proof (getCounterMap_objectsByHash (objType hdr) db2) as Ho3.
  pose proof (getCounterMap_pubKeyByTag (objType hdr) db2) as Ht3.
  pose proof (getCounterMap_allocated (objType hdr) db2 Ha2) as Ha3.
  pose proof (λ t, getCounterMap_counterOf t (objType hdr) db2) as Hk3.
  destruct (getCounterMap (objType hdr) db2) as [cm db3]. simpl in *.
  subst cm. inversion Hi; subst. clear Hi.
  exists hdr. split; [done|].
  split; [by rewrite setCounterMap_closed, Hc3|].
  split; [by apply setCounterMap_allocated|].
  split; [done|]. split; [done|].
  split; [by rewrite setCounterMap_objectsByHash, Ho3|].
  split.
  { rewrite setCounterMap_pubKeyByTag. exact Hm. }
  split; [by rewrite setCounterMap_counterOf, decide_True|].
  split.
  { unfold position.
    change (counterOf (objType hdr) db) with (counterOf (objType hdr) db2).
    by destruct (counterOf (objType hdr) db2). }
  intros t Hne. rewrite setCounterMap_counterOf, decide_False by done.
  destruct (Hk3 t) as [->|(? & _)]; done.
Qed.


(** *** What the other calls leave *)

Lemma subCounters_intro db db' :
  (∀ t, position t db' = position t db) →
  (∀ t c' k h, counterOf t db' = Some c' → ByCounter c' !! k = Some h →
     ∃ c, counterOf t db = Some c ∧ ByCounter c !! k = Some h) →
  subCounters db db'.
Proof.
  intros Hp He t c' Hc'.
  assert (CounterPos c' = position t db) as Hpos.
  { rewrite <- Hp. unfold position. by rewrite Hc'. }
  unfold position in Hpos. destruct (counterOf t db) as [c|] eqn:Hc.
  - left. exists c. split; [done|]. split; [done|].
    apply map_subseteq_spec. intros k h Hk.
    destruct (He t c' k h Hc' Hk) as (c0 & Hc0 & Hk0). congruence.
  - right. split; [done|]. apply map_empty. intros k.
    destruct (ByCounter c' !! k) as [h|] eqn:Hk; [|done].
    destruct (He t c' k h Hc' Hk) as (c0 & Hc0 & _). congruence.
Qed.

Lemma shrinks_refl db : shrinks db db.
Proof.
  split; [done|]. split; [done|]. intros t c' Hc'. left. by exists c'.
Qed.

Lemma shrinks_trans db1 db2 db3 : shrinks db1 db2 → shrinks db2 db3 → shrinks db1 db3.
Proof.
  intros (Ho1 & Ht1 & Hc1) (Ho2 & Ht2 & Hc2).
  split; [by etransitivity|]. split; [by etransitivity|].
  intros t c3 H3. destruct (Hc2 t c3 H3) as [(c2 & H2 & Hp3 & Hs3)|?]; [|by right].
  destruct (Hc1 t c2 H2) as [(c1 & H1 & Hp2 & Hs2)|[Hp2 He2]].
  - left. exists c1. split; [done|]. split; [congruence|]. by etransitivity.
  - right. split; [congruence|]. rewrite He2 in Hs3.
    apply (anti_symm (⊆)); [done|apply map_empty_subseteq].
Qed.


Lemma getCounterMap_shrinks t db : shrinks db (getCounterMap t db).2.
Proof.
  split; [by rewrite getCounterMap_objectsByHash|].
  split; [by rewrite getCounterMap_pubKeyByTag|].
  apply subCounters_intro.
  - intros t'. apply getCounterMap_position.
  - intros t' c' k h Hc' Hk. exists c'. split; [by eapply getCounterMap_entries|done].
Qed.

(** One object leaves its counter and the hash index. *)
Lemma removeOne_shrinks sched t hash db :
  shrinks db
    (set_objectsByHash
       (delete hash (objectsByHash (removeFromCounter sched t hash db)))
       (removeFromCounter sched t hash db)).
Proof.
  split; [|split].
  - simpl. rewrite removeFromCounter_objectsByHash. apply delete_subseteq.
  - simpl. by rewrite removeFromCounter_pubKeyByTag.
  - apply subCounters_intro.
    + intros t'. destruct (steady_removeFromCounter sched t hash db) as [Hp _].
      exact (Hp t').
    + intros t' c' k h Hc' Hk.
      destruct (removeFromCounter_entries _ _ _ _ _ _ _ _ Hc' Hk) as (c & ? & ? & _).
      by exists c.
Qed.

Lemma RemoveObject_shrinks sched hash db : shrinks db (RemoveObject sched hash db).2.
Proof.
  unfold RemoveObject. destruct (closed db); [apply shrinks_refl|].
  destruct (objectsByHash db !! hash) as [obj|]; [|apply shrinks_refl].
  destruct (DecodeMsgObjectHeader obj) as [hdr|]; [|apply shrinks_refl].
  apply removeOne_shrinks.
Qed.

Lemma sweep_shrinks now inner hashes db : shrinks db (sweep now inner hashes db).2.
Proof.
  revert db. induction hashes as [|hash hashes IH]; intros db; [apply shrinks_refl|].
  simpl. destruct (objectsByHash db !! hash) as [obj|]; [|apply IH].
  destruct (DecodeMsgObjectHeader obj) as [hdr|]; [|apply shrinks_refl].
  destruct (expired (now hash) hdr); [|apply IH].
  eapply shrinks_trans; [apply removeOne_shrinks|apply IH].
Qed.

Lemma RemoveExpiredObjects_shrinks now outer inner db :
  shrinks db (RemoveExpiredObjects now outer inner db).2.
Proof.
  unfold RemoveExpiredObjects. destruct (closed db); [apply shrinks_refl|].
  apply sweep_shrinks.
Qed.

Lemma RemoveObjectByCounter_shrinks t n db :
  shrinks db (RemoveObjectByCounter t n db).2.
Proof.
  unfold RemoveObjectByCounter. destruct (closed db); [apply shrinks_refl|].
  pose proof (getCounterMap_shrinks t db) as Hg.
  pose proof (getCounterMap_fst t db) as Hfst.
  destruct (getCounterMap t db) as [[c|] db1]; simpl in *; [|done].
  destruct (ByCounter c !! n) as [hash|] eqn:Hn; [|done]. simpl.
  eapply shrinks_trans; [exact Hg|]. split; [|split].
  - simpl. rewrite setCounterMap_objectsByHash. apply delete_subseteq.
  - simpl. by rewrite setCounterMap_pubKeyByTag.
  - intros t' c'. rewrite set_objectsByHash_counterOf, setCounterMap_counterOf.
    case_decide as Ht.
    + subst t'. intros [= <-]. left. exists c. split; [done|]. split; [done|].
      simpl. apply delete_subseteq.
    + intros Hc'. left. by exists c'.
Qed.

Lemma RemovePubKey_shrinks tag db : shrinks db (RemovePubKey tag db).2.
Proof.
  unfold RemovePubKey. destruct (closed db); [apply shrinks_refl|].
  destruct (pubKeyByTag db !! tag); [|apply shrinks_refl].
  split; [done|]. split; [apply delete_subseteq|].
  intros t c' Hc'. left. by exists c'.
Qed.

(** The store that the three reads by counter leave: a counter may have been
    created on the way. *)
Lemma GetCounter_snd t db :
  (GetCounter t db).2 = if closed db then db else (getCounterMap t db).2.
Proof.
  unfold GetCounter, getCounterRef. destruct (closed db); [done|].
  by destruct (getCounterMap t db) as [[c|] db1].
Qed.

Lemma FetchObjectByCounter_snd t n db :
  (FetchObjectByCounter t n db).2 = if closed db then db else (getCounterMap t db).2.
Proof.
  unfold FetchObjectByCounter. destruct (closed db); [done|].
  destruct (getCounterMap t db) as [[c|] db1]; [|done].
  destruct (ByCounter c !! n); [|done]. by destruct (fetchObjectByHash _ _).
Qed.

Lemma FetchObjectsFromCounter_snd sched t n count db :
  (FetchObjectsFromCounter sched t n count db).2
  = if closed db then db else (getCounterMap t db).2.
Proof.
  unfold FetchObjectsFromCounter. destruct (closed db); [done|].
  destruct (getCounterMap t db) as [[c|] db1]; [|done].
  case_decide; [done|].
  destruct (collectKeys _ _ _ _ _). by destruct (fetchKeys _ _ _).
Qed.

Lemma Close_shrinks db : shrinks db (Close db).2.
Proof.
  unfold Close. destruct (closed db); [apply shrinks_refl|]. simpl.
  split; [apply map_empty_subseteq|]. split; [apply map_empty_subseteq|].
  intros t c'. unfold counterOf. simpl. by repeat case_decide.
Qed.

(** One call is a successful insert, or it adds nothing to the store. *)
Lemma exec_step (c : call (ShaHash := ShaHash)) db :
  (∃ data hash n, c = CallInsertObject data
     ∧ InsertObject data db = (Ok (hash, n), (exec c db).2))
  ∨ shrinks db (exec c db).2.
Proof.
  destruct c; simpl; rewrite ?quiet_snd.
  - destruct (InsertObject data db) as [[[hash n]|e|] db'] eqn:Hi.
    + left. exists data, hash, n. split; [done|].
      by destruct (DecodeMsgObjectHeader data).
    + right. apply InsertObject_Err_inv in Hi as ->. apply shrinks_refl.
    + by destruct (InsertObject_never_panics data db); rewrite Hi.
  - right. apply RemoveObject_shrinks.
  - right. apply RemoveObjectByCounter_shrinks.
  - right. apply RemoveExpiredObjects_shrinks.
  - right. apply RemovePubKey_shrinks.
  - right. rewrite GetCounter_snd. destruct (closed db);
      [apply shrinks_refl|apply getCounterMap_shrinks].
  - right. rewrite FetchObjectByCounter_snd. destruct (closed db);
      [apply shrinks_refl|apply getCounterMap_shrinks].
  - right. rewrite FetchObjectsFromCounter_snd. destruct (closed db);
      [apply shrinks_refl|apply getCounterMap_shrinks].
  - right. apply Close_shrinks.
Qed.

(** An open store has its four typed counters, whatever was called. *)
Lemma exec_allocated (c : call (ShaHash := ShaHash)) db :
  (closed db = false → allocated db) →
  closed (exec c db).2 = false → allocated (exec c db).2.
Proof.
  intros Ha Hc'. destruct (closed db) eqn:Hc.
  { rewrite exec_closed in Hc' by done. simpl in Hc'. congruence. }
  pose proof (exec_open c db (Ha eq_refl)) as Hstep.
  destruct (exec c db) as [[[[t n]|]|e|] db']; simpl in *.
  - by destruct Hstep as (_ & ? & _).
  - destruct Hstep as [?|[_ Hal]]; [congruence|]. by apply Hal, Ha.
  - destruct Hstep as [?|[_ Hal]]; [congruence|]. by apply Hal, Ha.
  - destruct Hstep as [?|[_ Hal]]; [congruence|]. by apply Hal, Ha.
Qed.

Lemma run_cons (c : call (ShaHash := ShaHash)) calls db :
  run (c :: calls) db = (exec c db).2 ∨ run (c :: calls) db = run calls (exec c db).2.
Proof. simpl. destruct (exec c db) as [[r|e|] db']; auto. Qed.

(** *** The stored objects are the ones that were inserted *)

Lemma valid_newMemDb : valid (newMemDb (ShaHash := ShaHash)).
Proof.
  split; [|split]; intros k obj; unfold newMemDb; simpl; by rewrite lookup_empty.
Qed.

Lemma valid_shrinks db db' : valid db → shrinks db db' → valid db'.
Proof.
  intros (Ha & Hd & Ht) (Ho & Hp & _). split; [|split].
  - intros hash obj Hl. eapply Ha, lookup_weaken; done.
  - intros hash obj Hl. eapply Hd, lookup_weaken; done.
  - intros tag obj Hl. eapply Ht, lookup_weaken; done.
Qed.

Lemma valid_InsertObject data db db' hash n :
  allocated db → valid db → InsertObject data db = (Ok (hash, n), db') → valid db'.
Proof.
  intros Hal (Ha & Hd & Ht) Hi.
  destruct (InsertObject_Ok_store _ _ _ _ _ Hal Hi)
    as (hdr & _ & _ & _ & Hhdr & Hhash & Ho & Hp & _).
  split; [|split].
  - intros h obj. rewrite Ho. intros [[<- <-]|[_ Hl]]%lookup_insert_Some; [done|].
    by apply Ha.
  - intros h obj. rewrite Ho. intros [[<- <-]|[_ Hl]]%lookup_insert_Some; [by eexists|].
    by eapply Hd.
  - intros tag obj. case_decide as Hpk.
    + destruct Hp as (msg & bytes & tag' & Hmsg & Hbytes & Htag & ->).
      intros [[<- <-]|[_ Hl]]%lookup_insert_Some; [|by apply Ht].
      by exists hdr, msg, bytes.
    + rewrite Hp. apply Ht.
Qed.

Lemma exec_valid (c : call (ShaHash := ShaHash)) db :
  (closed db = false → allocated db) → valid db → valid (exec c db).2.
Proof.
  intros Hal Hv. destruct (exec_step c db) as [(data & hash & n & _ & Hi)|Hs].
  - eapply valid_InsertObject; [|done..]. apply Hal.
    revert Hi. unfold InsertObject. by destruct (closed db).
  - by eapply valid_shrinks.
Qed.

Lemma run_valid (calls : list (call (ShaHash := ShaHash))) db :
  (closed db = false → allocated db) → valid db →
  valid (run calls db) ∧ (closed (run calls db) = false → allocated (run calls db)).
Proof.
  revert db. induction calls as [|c calls IH]; intros db Hal Hv; [done|].
  destruct (run_cons c calls db) as [->| ->].
  - split; [by apply exec_valid|by apply exec_allocated].
  - apply IH; [by apply exec_allocated|by apply exec_valid].
Qed.

Lemma newMemDb_allocated : allocated (newMemDb (ShaHash := ShaHash)).
Proof. unfold allocated, newMemDb. simpl. eauto. Qed.

(** A new store holds no object, and no call puts an invalid object into a
    store.  If before a call every object in the hash index sits under its
    own inventory hash and has a header that decodes, and every entry of the
    tag index is a public key object filed under the hash of the tag that
    [InsertObject] computes for it, then so it is after the call, and an
    open store keeps its four typed counters.  The calls are the methods of
    the store; a write of the caller to a slice that it fetched
    ([overwrite]) is none of them. *)
Theorem exec_keeps_objects_valid :
  (contentAddressed (newMemDb (ShaHash := ShaHash))
   ∧ decodable (newMemDb (ShaHash := ShaHash))
   ∧ tagged (newMemDb (ShaHash := ShaHash))
   ∧ allocated (newMemDb (ShaHash := ShaHash)))
  ∧ ∀ (next : call (ShaHash := ShaHash)) db,
      (closed db = false → allocated db) →
      contentAddressed db → decodable db → tagged db →
      contentAddressed (exec next db).2
      ∧ decodable (exec next db).2
      ∧ tagged (exec next db).2
      ∧ (closed (exec next db).2 = false → allocated (exec next db).2).
Proof.
  split.
  - destruct valid_newMemDb as (Ha & Hd & Ht).
    split; [done|]. split; [done|]. split; [done|]. apply newMemDb_allocated.
  - intros next db Hal Ha Hd Ht.
    destruct (exec_valid next db Hal (conj Ha (conj Hd Ht))) as (Ha' & Hd' & Ht').
    split; [done|]. split; [done|]. split; [done|]. by apply exec_allocated.
Qed.

(** The loop of [RemoveExpiredObjects] panics when one of the entries it is
    to visit holds an object whose header does not decode. *)
Lemma sweep_undecodable now inner hashes db hash obj :
  hash ∈ hashes → objectsByHash db !! hash = Some obj →
  DecodeMsgObjectHeader obj = None →
  (sweep now inner hashes db).1 = Panic.
Proof.
  revert db. induction hashes as [|h0 hashes IH]; intros db Hin Hobj Hbad.
  { by apply not_elem_of_nil in Hin. }
  simpl. destruct (objectsByHash db !! h0) as [obj0|] eqn:Hobj0.
  - destruct (DecodeMsgObjectHeader obj0) as [hdr0|] eqn:Hhdr0; [|done].
    assert (h0 ≠ hash) as Hne by (intros ->; congruence).
    apply elem_of_cons in Hin as [Hin|Hin]; [congruence|].
    destruct (expired (now h0) hdr0).
    + apply IH; [done| |done]. simpl.
      by rewrite removeFromCounter_objectsByHash, lookup_delete_ne.
    + by apply IH.
  - apply elem_of_cons in Hin as [Hin|Hin]; [congruence|]. by apply IH.
Qed.

(** When the panics that the store guards with the remarks [impossible, all
    objects must be valid] and [Should not happen] occur.  [RemoveObject]
    panics exactly on an open store that holds under the hash an object whose
    header does not decode; [RemoveExpiredObjects] exactly on an open store
    that holds such an object under some hash; [GetCounter] exactly on an
    open store that lacks the counter of one of the four known types; and
    [InsertObject] never.  So none of them panics on an open store with its
    four typed counters in which the header of every object decodes. *)
Theorem guarded_panics db sched hash now outer inner t data :
  ((RemoveObject sched hash db).1 = Panic
   ↔ closed db = false
     ∧ ∃ obj, objectsByHash db !! hash = Some obj ∧ DecodeMsgObjectHeader obj = None)
  ∧ ((RemoveExpiredObjects now outer inner db).1 = Panic
     ↔ closed db = false
       ∧ ∃ h obj, objectsByHash db !! h = Some obj ∧ DecodeMsgObjectHeader obj = None)
  ∧ ((GetCounter t db).1 = Panic
     ↔ closed db = false ∧ knownType t ∧ counterOf t db = None)
  ∧ (InsertObject data db).1 ≠ Panic.
Proof.
  split; [|split; [|split]].
  - unfold RemoveObject. destruct (closed db); [by split; [|intros [? _]]|].
    destruct (objectsByHash db !! hash) as [obj|] eqn:Hobj.
    + destruct (DecodeMsgObjectHeader obj) as [hdr|] eqn:Hhdr.
      * split; [done|]. intros (_ & obj' & [= <-] & ?). congruence.
      * split; [|done]. intros _. split; [done|]. by exists obj.
    + split; [done|]. by intros (_ & obj' & ? & _).
  - unfold RemoveExpiredObjects. destruct (closed db); [by split; [|intros [? _]]|].
    split.
    + intros Hp. split; [done|].
      destruct (decide (map_Forall (λ _ obj, is_Some (DecodeMsgObjectHeader obj))
                          (objectsByHash db))) as [Hd|Hd].
      * destruct (sweep_spec now inner (rangeKeys outer (objectsByHash db)) db
                    (rangeKeys_NoDup _ _) Hd) as (db' & Hs & _).
        rewrite Hs in Hp. done.
      * apply map_not_Forall in Hd as (h & obj & Hobj & Hbad); [|apply _].
        exists h, obj. split; [done|]. by apply eq_None_not_Some.
    + intros (_ & h & obj & Hobj & Hbad).
      apply (sweep_undecodable _ _ _ _ h obj); [|done..].
      apply rangeKeys_elem_of. by rewrite Hobj.
  - unfold GetCounter, getCounterRef, getCounterMap, counterOf, knownType.
    destruct (closed db); [by split; [|intros [? _]]|].
    repeat case_decide; subst;
      try (destruct (unknownObjCounter db !! t); simpl;
           (split; [done|]); intros (_ & Hk & ?); try done;
           destruct Hk as [?|[?|[?|?]]]; done).
    all: match goal with
         | |- context [match ?c with Some _ => _ | None => _ end] =>
             destruct c eqn:Hc; simpl
         end; split; try done; try (intros (_ & _ & ?); done); auto 10.
  - apply InsertObject_never_panics.
Qed.


(** *** The keys of a counter *)

Lemma inRange_mono n m db : n ≤ m → inRange n db → inRange m db.
Proof.
  intros Hnm Hr t c Hc. destruct (Hr t c Hc) as [Hp Hk]. split; [lia|done].
Qed.

Lemma inRange_shrinks n db db' : 0 ≤ n → inRange n db → shrinks db db' → inRange n db'.
Proof.
  intros Hn Hr (_ & _ & Hs) t c' Hc'.
  destruct (Hs t c' Hc') as [(c & Hc & Hp & Hsub)|[Hp He]].
  - destruct (Hr t c Hc) as [Hpos Hk]. split; [lia|]. intros k h Hl. rewrite Hp.
    eapply Hk, lookup_weaken; done.
  - split; [lia|]. intros k h. by rewrite He, lookup_empty.
Qed.

Lemma inRange_InsertObject n data db db' hash p :
  allocated db → 0 ≤ n → n + 1 < 2 ^ 64 → inRange n db →
  InsertObject data db = (Ok (hash, p), db') → inRange (n + 1) db'.
Proof.
  intros Hal Hn Hb Hr Hi.
  destruct (InsertObject_Ok_store _ _ _ _ _ Hal Hi)
    as (hdr & _ & _ & _ & _ & _ & _ & _ & Hc' & _ & Hother).
  intros t c. destruct (decide (t = objType hdr)) as [->|Hne].
  - rewrite Hc'. intros [= <-]. simpl.
    assert (0 ≤ CounterPos (default (mkCounter ∅ 0) (counterOf (objType hdr) db)) ≤ n
            ∧ ∀ k h, ByCounter (default (mkCounter ∅ 0) (counterOf (objType hdr) db))
                       !! k = Some h →
                1 ≤ k ≤ CounterPos (default (mkCounter ∅ 0)
                                      (counterOf (objType hdr) db))) as [Hp Hk].
    { destruct (counterOf (objType hdr) db) as [c0|] eqn:Hc0; simpl.
      - by apply (Hr (objType hdr)).
      - split; [lia|]. intros k h. by rewrite lookup_empty. }
    set (c0 := default _ _) in *.
    assert (wrap64 (CounterPos c0 + 1) = CounterPos c0 + 1) as ->
      by (unfold wrap64; apply Z.mod_small; lia).
    split; [lia|]. intros k h [[<- _]|[_ Hl]]%lookup_insert_Some; [lia|].
    apply Hk in Hl. lia.
  - rewrite (Hother t Hne). intros Hc. destruct (Hr t c Hc) as [Hp Hk].
    split; [lia|done].
Qed.

Lemma exec_inRange n (c : call (ShaHash := ShaHash)) db :
  (closed db = false → allocated db) → 0 ≤ n → n + 1 < 2 ^ 64 →
  inRange n db → inRange (n + 1) (exec c db).2.
Proof.
  intros Hal Hn Hb Hr. destruct (exec_step c db) as [(data & hash & p & _ & Hi)|Hs].
  - eapply inRange_InsertObject; [|done..]. apply Hal.
    revert Hi. unfold InsertObject. by destruct (closed db).
  - apply (inRange_mono n); [lia|]. by eapply inRange_shrinks.
Qed.

Lemma run_inRange n (calls : list (call (ShaHash := ShaHash))) db :
  (closed db = false → allocated db) → 0 ≤ n →
  n + Z.of_nat (length calls) < 2 ^ 64 →
  inRange n db → inRange (n + Z.of_nat (length calls)) (run calls db).
Proof.
  revert n db. induction calls as [|c calls IH]; intros n db Hal Hn Hb Hr.
  { simpl. by rewrite Z.add_0_r. }
  simpl length in *. rewrite Nat2Z.inj_succ in *.
  assert (inRange (n + 1) (exec c db).2) as Hr1 by (apply exec_inRange; [done|lia..|done]).
  destruct (run_cons c calls db) as [->| ->].
  - apply (inRange_mono (n + 1)); [lia|done].
  - replace (n + Z.succ (Z.of_nat (length calls)))
      with ((n + 1) + Z.of_nat (length calls)) by lia.
    apply IH; [by apply exec_allocated|lia|lia|done].
Qed.

(** Through fewer than [2^64] calls on a new store, every key that a counter
    holds lies between 1 and the position of the counter, which is what
    [GetCounter] returns for the type; and no position exceeds the number of
    calls made. *)
Theorem counter_keys_in_range (calls : list (call (ShaHash := ShaHash))) t c k hash :
  Z.of_nat (length calls) < 2 ^ 64 →
  counterOf t (run calls newMemDb) = Some c →
  ByCounter c !! k = Some hash →
  1 ≤ k ≤ CounterPos c
  ∧ CounterPos c ≤ Z.of_nat (length calls)
  ∧ (closed (run calls newMemDb) = false →
     GetCounter t (run calls newMemDb) = (Ok (CounterPos c), run calls newMemDb)).
Proof.
  intros Hb Hc Hk.
  assert (inRange 0 (newMemDb (ShaHash := ShaHash))) as Hr0.
  { intros t' c'. unfold counterOf, newMemDb. simpl.
    repeat case_decide; intros [= <-]; simpl; (split; [lia|]);
      intros k' h; by rewrite ?lookup_empty. }
  pose proof (run_inRange 0 calls newMemDb (λ _, newMemDb_allocated)
                (Z.le_refl 0) Hb Hr0) as Hr.
  destruct (Hr t c Hc) as [Hp Hkeys]. split; [by eapply Hkeys|]. split; [lia|].
  intros Hopen. unfold GetCounter, getCounterRef.
  by rewrite Hopen, (getCounterMap_existing _ _ _ Hc).
Qed.

(** *** Runs that insert no object twice *)

Lemma consistent_step (c : call (ShaHash := ShaHash)) db :
  consistent db → freshInsert c db → consistent (exec c db).2.
Proof.
  intros Hdb Hfresh.
  destruct (consistent_reads db Hdb) as (Hg & Hf & Hfs & Hr & Hcl).
  destruct c; simpl; rewrite ?quiet_snd; auto.
  - pose proof (consistent_InsertObject data db Hdb Hfresh) as Hi.
    destruct (InsertObject data db) as [[[hash n]|e|] db']; simpl in *; [|done..].
    by destruct (DecodeMsgObjectHeader data).
  - by apply consistent_RemoveObject.
  - by apply consistent_RemoveObjectByCounter.
  - by apply consistent_RemoveExpiredObjects.
Qed.

Lemma freshCalls_cons (c : call (ShaHash := ShaHash)) calls db :
  freshCalls (c :: calls) db → freshInsert c db ∧ freshCalls calls (exec c db).2.
Proof. done. Qed.

Lemma run_consistent (calls : list (call (ShaHash := ShaHash))) db :
  consistent db → freshCalls calls db → consistent (run calls db).
Proof.
  revert db. induction calls as [|c calls IH]; intros db Hdb Hf; [done|].
  apply freshCalls_cons in Hf as [Hc Hf].
  destruct (run_cons c calls db) as [->| ->]; [by apply consistent_step|].
  apply IH; [by apply consistent_step|done].
Qed.


(** The objects that the second loop of [FetchObjectsFromCounter] collects
    are objects of the counter. *)
Lemma fetchKeys_Ok_inv c db keys objs :
  fetchKeys c db keys = Ok objs →
  ∀ obj, obj ∈ objs →
    ∃ k hash, ByCounter c !! k = Some hash ∧ objectsByHash db !! hash = Some obj.
Proof.
  revert objs. induction keys as [|k keys IH]; intros objs; simpl.
  { intros [= <-] obj Hin. by apply not_elem_of_nil in Hin. }
  destruct (ByCounter c !! k) as [hash|] eqn:Hk; [|done].
  unfold fetchObjectByHash. destruct (objectsByHash db !! hash) as [o|] eqn:Ho; [|done].
  destruct (fetchKeys c db keys) as [objs'| |]; [|done..].
  intros [= <-] obj [->|Hin]%elem_of_cons; [by exists k, hash|]. by eapply IH.
Qed.



(** *** Insert, then read or remove *)

(** The bytes that [InsertObject] accepted are what [FetchObjectByCounter]
    returns for the type of the object and the counter that the insert
    returned, and that counter is what [GetCounter] then reports for the
    type. *)
Theorem FetchObjectByCounter_InsertObject data db db' hash n :
  allocated db →
  InsertObject data db = (Ok (hash, n), db') →
  ∃ hdr,
    DecodeMsgObjectHeader data = Some hdr
    ∧ FetchObjectByCounter (objType hdr) n db' = (Ok data, db')
    ∧ GetCounter (objType hdr) db' = (Ok n, db').
Proof.
  intros Hal Hi.
  destruct (InsertObject_Ok_store _ _ _ _ _ Hal Hi)
    as (hdr & _ & Hopen & _ & Hhdr & _ & Ho & _ & Hc' & Hn & _).
  exists hdr. split; [done|].
  assert (n = CounterPos (counter_Insert hash
                (default (mkCounter ∅ 0) (counterOf (objType hdr) db)))) as Hpos.
  { rewrite Hn. unfold position. by destruct (counterOf (objType hdr) db). }
  split.
  - unfold FetchObjectByCounter, fetchObjectByHash.
    rewrite Hopen, (getCounterMap_existing _ _ _ Hc'), Hpos. simpl.
    by rewrite lookup_insert_eq, Ho, lookup_insert_eq.
  - unfold GetCounter, getCounterRef.
    by rewrite Hopen, (getCounterMap_existing _ _ _ Hc'), Hpos.
Qed.

(** [RemoveObject] on a stored object whose header decodes succeeds and takes
    the object out of the hash index, and nothing else out of it; the tag
    index is not touched.  Afterwards the object is reported absent, and
    removing it again fails with [ErrNonexistentObject] and changes
    nothing. *)
Theorem RemoveObject_removes sched sched' hash obj db :
  closed db = false →
  objectsByHash db !! hash = Some obj →
  is_Some (DecodeMsgObjectHeader obj) →
  ∃ db',
    RemoveObject sched hash db = (Ok tt, db')
    ∧ objectsByHash db' = delete hash (objectsByHash db)
    ∧ pubKeyByTag db' = pubKeyByTag db
    ∧ ExistsObject hash db' = (Ok false, db')
    ∧ FetchObjectByHash hash db' = (Err ErrNonexistentObject, db')
    ∧ RemoveObject sched' hash db' = (Err ErrNonexistentObject, db').
Proof.
  intros Hopen Hobj [hdr Hhdr]. unfold RemoveObject at 1.
  rewrite Hopen, Hobj, Hhdr. eexists. split; [done|].
  set (db1 := removeFromCounter sched (objType hdr) hash db).
  assert (objectsByHash db1 = objectsByHash db) as Ho
    by apply removeFromCounter_objectsByHash.
  assert (closed db1 = false) as Hc
    by (unfold db1; by rewrite removeFromCounter_closed).
  split; [simpl; by rewrite Ho|].
  split; [simpl; apply removeFromCounter_pubKeyByTag|].
  unfold ExistsObject, FetchObjectByHash, fetchObjectByHash, RemoveObject. simpl.
  by rewrite Hc, lookup_delete_eq.
Qed.

(** [RemoveObjectByCounter] on a key that the counter of the type holds
    succeeds; it deletes that key from the counter, leaves the other keys, the
    position and the other counters as they were, and takes the object out of
    the hash index.  Afterwards the key and the object are reported absent,
    and removing the key again fails with [ErrNonexistentObject]. *)
Theorem RemoveObjectByCounter_removes t k c hash db :
  closed db = false →
  counterOf t db = Some c →
  ByCounter c !! k = Some hash →
  ∃ db',
    RemoveObjectByCounter t k db = (Ok tt, db')
    ∧ objectsByHash db' = delete hash (objectsByHash db)
    ∧ pubKeyByTag db' = pubKeyByTag db
    ∧ counterOf t db' = Some (mkCounter (delete k (ByCounter c)) (CounterPos c))
    ∧ (∀ t', t' ≠ t → counterOf t' db' = counterOf t' db)
    ∧ FetchObjectByCounter t k db' = (Err ErrNonexistentObject, db')
    ∧ ExistsObject hash db' = (Ok false, db')
    ∧ RemoveObjectByCounter t k db' = (Err ErrNonexistentObject, db').
Proof.
  intros Hopen Hc Hk. unfold RemoveObjectByCounter at 1.
  rewrite Hopen, (getCounterMap_existing _ _ _ Hc), Hk. eexists. split; [done|].
  set (c1 := mkCounter (delete k (ByCounter c)) (CounterPos c)).
  set (db1 := setCounterMap t c1 db).
  assert (counterOf t db1 = Some c1) as Hc1
    by (unfold db1; by rewrite setCounterMap_counterOf, decide_True).
  assert (closed db1 = false) as Hopen1
    by (unfold db1; by rewrite setCounterMap_closed).
  set (db' := set_objectsByHash _ db1).
  assert (counterOf t db' = Some c1) as Hc' by done.
  assert (closed db' = false) as Hopen' by done.
  split; [simpl; unfold db1; by rewrite setCounterMap_objectsByHash|].
  split; [simpl; unfold db1; by rewrite setCounterMap_pubKeyByTag|].
  split; [done|]. split.
  { intros t' Hne. change (counterOf t' db') with (counterOf t' db1).
    unfold db1. by rewrite setCounterMap_counterOf, decide_False. }
  unfold FetchObjectByCounter, ExistsObject, RemoveObjectByCounter.
  rewrite Hopen', (getCounterMap_existing _ _ _ Hc'). simpl.
  by rewrite !lookup_delete_eq.
Qed.

Lemma deleteFirstMatch_delete order (h : ShaHash) (m : gmap Z ShaHash) k :
  k ∈ order → m !! k = Some h → (∀ k2, m !! k2 = Some h → k2 = k) →
  deleteFirstMatch order h m = delete k m.
Proof.
  intros Hin Hk Hu. induction order as [|k0 order IH]; simpl.
  { by apply not_elem_of_nil in Hin. }
  case_decide as Hk0; [by rewrite (Hu k0 Hk0)|].
  apply elem_of_cons in Hin as [->|Hin]; [done|]. by apply IH.
Qed.

(** On a store in which every counter entry is typed and no counter holds a
    hash twice, removing an object by its hash and removing it by the key
    under which its counter holds it are the same operation: the same result
    and the same store, whatever order the range of [RemoveObject] takes. *)
Theorem removals_agree sched t k c hash db :
  consistent db →
  closed db = false →
  counterOf t db = Some c →
  ByCounter c !! k = Some hash →
  RemoveObject sched hash db = RemoveObjectByCounter t k db.
Proof.
  intros [Hw Hd] Hopen Hc Hk.
  destruct (Hw t c k hash Hc Hk) as (obj & hdr & Hobj & Hhdr & <-).
  unfold RemoveObject, RemoveObjectByCounter, removeFromCounter.
  rewrite Hopen, Hobj, Hhdr, (getCounterMap_existing _ _ _ Hc), Hk.
  rewrite (deleteFirstMatch_delete _ hash (ByCounter c) k); [done| |done|].
  - apply rangeKeys_elem_of. by rewrite Hk.
  - intros k2 Hk2. by eapply Hd.
Qed.

(** *** What a fetch by counter hands out *)

Lemma wellTyped_getCounterMap t db : wellTyped db → wellTyped (getCounterMap t db).2.
Proof.
  intros Hw t' c' k hash Hc' Hk. rewrite getCounterMap_objectsByHash.
  eapply Hw; [|done]. by eapply getCounterMap_entries.
Qed.

Lemma FetchObjectsFromCounter_typed sched t from count db objs last db' :
  wellTyped db →
  FetchObjectsFromCounter sched t from count db = (Ok (objs, last), db') →
  allOfType t objs ∧ wellTyped db'.
Proof.
  intros Hw. unfold FetchObjectsFromCounter. destruct (closed db); [done|].
  pose proof (wellTyped_getCounterMap t db Hw) as Hw1.
  pose proof (getCounterMap_fst t db) as Hfst.
  destruct (getCounterMap t db) as [[cm|] db1]; simpl in *; [|done].
  destruct (decide (maxSliceCap < count)) as [Hcap|Hcap]; [done|].
  destruct (collectKeys _ _ _ _ _) as [keys n].
  destruct (fetchKeys cm db1 _) as [objs'| |] eqn:Hf; [|done..].
  intros [= <- _ <-]. split; [|done]. intros obj Hin.
  destruct (fetchKeys_Ok_inv _ _ _ _ Hf obj Hin) as (k & hash & Hk & Hobj).
  destruct (Hw1 t cm k hash (eq_sym Hfst) Hk) as (obj' & hdr & Hobj' & Hhdr & Ht).
  exists hdr. split; [congruence|done].
Qed.

(** Where every counter entry leads to a stored object of the counter's type,
    a fetch by counter hands out objects of the type that was asked for
    only: the object of [FetchObjectByCounter] and every object of
    [FetchObjectsFromCounter] has a header that decodes to that type. *)
Theorem fetches_are_typed sched t from count n db :
  wellTyped db →
  (∀ obj db', FetchObjectByCounter t n db = (Ok obj, db') → allOfType t [obj])
  ∧ (∀ objs last db',
       FetchObjectsFromCounter sched t from count db = (Ok (objs, last), db') →
       allOfType t objs).
Proof.
  intros Hw. split.
  - intros obj db'. unfold FetchObjectByCounter. destruct (closed db); [done|].
    pose proof (wellTyped_getCounterMap t db Hw) as Hw1.
    pose proof (getCounterMap_fst t db) as Hfst.
    destruct (getCounterMap t db) as [[cm|] db1]; simpl in *; [|done].
    destruct (ByCounter cm !! n) as [hash|] eqn:Hk; [|done].
    destruct (Hw1 t cm n hash (eq_sym Hfst) Hk) as (obj' & hdr & Hobj' & Hhdr & Ht).
    unfold fetchObjectByHash. rewrite Hobj'. intros [= <- <-].
    intros o ->%list_elem_of_singleton. by exists hdr.
  - intros objs last db' Hf. by eapply FetchObjectsFromCounter_typed.
Qed.

(** The pages of [sendOldObjects] hold objects of the type asked for only. *)
Lemma sendOldObjects_typed scheds t from size db pages p :
  wellTyped db →
  sendOldObjects scheds t from size db = (pages, p) →
  ∀ page, page ∈ pages → allOfType t page.
Proof.
  revert from db pages p. induction scheds as [|sched scheds IH];
    intros from db pages p Hw; simpl.
  { intros [= <- _] page Hin. by apply not_elem_of_nil in Hin. }
  destruct (FetchObjectsFromCounter sched t from size db)
    as [[[objs last]|e|] db'] eqn:Hf.
  - destruct (FetchObjectsFromCounter_typed _ _ _ _ _ _ _ _ Hw Hf) as [Hobjs Hw'].
    case_decide.
    + destruct (sendOldObjects scheds t last size db') as [pages' p'] eqn:Hs.
      intros [= <- _] page [->|Hin]%elem_of_cons; [done|].
      by eapply (IH last db' pages' p').
    + intros [= <- _] page ->%list_elem_of_singleton. done.
  - intros [= <- _] page Hin. by apply not_elem_of_nil in Hin.
  - intros [= <- _] page Hin. by apply not_elem_of_nil in Hin.
Qed.

(** *** What a read leaves behind *)

(** No read changes what is stored.  The store that [ExistsObject],
    [FetchObjectByHash], [FetchObjectByCounter], [FetchObjectsFromCounter],
    [GetCounter] and [Sync] leave has the hash index, the tag index, the
    liveness flag and every counter of the store they were given.  The one
    thing a read by counter may write is an empty counter at position 0 for
    the type it was asked about, when that type is none of the four known
    ones and had no counter. *)
Theorem reads_keep_contents sched t n count hash db :
  Forall (λ db',
      objectsByHash db' = objectsByHash db
      ∧ pubKeyByTag db' = pubKeyByTag db
      ∧ closed db' = closed db
      ∧ (∀ t' c, counterOf t' db = Some c → counterOf t' db' = Some c)
      ∧ (∀ t' c', counterOf t' db' = Some c' →
           counterOf t' db = Some c'
           ∨ (t' = t ∧ ¬ knownType t ∧ counterOf t db = None
              ∧ c' = mkCounter ∅ 0))
      ∧ (knownType t ∨ is_Some (counterOf t db) → db' = db))
    [ (ExistsObject hash db).2; (FetchObjectByHash hash db).2; (Sync db).2;
      (FetchObjectByCounter t n db).2;
      (FetchObjectsFromCounter sched t n count db).2;
      (GetCounter t db).2 ].
Proof.
  apply list.Forall_forall. intros db' Hin.
  assert (db' = db ∨ (closed db = false ∧ db' = (getCounterMap t db).2)) as [->|[Ho ->]].
  { repeat apply elem_of_cons in Hin as [->|Hin].
    - left. unfold ExistsObject. destruct (closed db); [done|].
      by destruct (objectsByHash db !! hash).
    - left. unfold FetchObjectByHash. by destruct (closed db).
    - left. unfold Sync. by destruct (closed db).
    - rewrite FetchObjectByCounter_snd. destruct (closed db); auto.
    - rewrite FetchObjectsFromCounter_snd. destruct (closed db); auto.
    - rewrite GetCounter_snd. destruct (closed db); auto.
    - by apply not_elem_of_nil in Hin. }
  { repeat split; auto. }
  split; [apply getCounterMap_objectsByHash|].
  split; [apply getCounterMap_pubKeyByTag|].
  split; [apply getCounterMap_closed|].
  split; [|split].
  - intros t' c Hc.
    destruct (getCounterMap_counterOf t' t db) as [->|(_ & Hnone & _)]; congruence.
  - intros t' c' Hc'.
    destruct (getCounterMap_counterOf t' t db) as [<-|(-> & Hnone & Hnew)]; [by left|].
    right. split; [done|]. split; [|split; [done|congruence]].
    intros Hknown. revert Hnone Hc' Hnew. unfold knownType in Hknown.
    unfold getCounterMap, counterOf.
    destruct Hknown as [-> | [-> | [-> | ->]]]; repeat case_decide; try done.
    all: simpl; congruence.
  - intros [Hknown|[c Hc]].
    + unfold knownType in Hknown. unfold getCounterMap.
      destruct Hknown as [-> | [-> | [-> | ->]]]; by repeat case_decide.
    + by rewrite (getCounterMap_existing _ _ _ Hc).
Qed.

(** *** Public keys and their tags *)

(** When [InsertObject] accepts a public key object, the tag index holds the
    object under the hash of the tag computed for it.  [RemovePubKey] with
    that hash then succeeds and deletes that entry only: the object stays in
    the hash index and can be fetched by its hash; the tag index is as it was
    before the insert, less any entry it had under the tag.  A second
    [RemovePubKey] fails with [ErrNonexistentObject]. *)
Theorem RemovePubKey_InsertObject data db db' hash n hdr :
  allocated db →
  InsertObject data db = (Ok (hash, n), db') →
  DecodeMsgObjectHeader data = Some hdr →
  objType hdr = ObjectTypePubKey →
  ∃ msg bytes tag db'',
    MsgPubKey_Decode data = Some msg ∧ pubKeyTag msg = inr bytes
    ∧ NewShaHash bytes = Some tag
    ∧ pubKeyByTag db' !! tag = Some data
    ∧ RemovePubKey tag db' = (Ok tt, db'')
    ∧ pubKeyByTag db'' = delete tag (pubKeyByTag db)
    ∧ objectsByHash db'' = objectsByHash db'
    ∧ FetchObjectByHash hash db'' = (Ok data, db'')
    ∧ RemovePubKey tag db'' = (Err ErrNonexistentObject, db'').
Proof.
  intros Hal Hi Hhdr Hpk.
  destruct (InsertObject_Ok_store _ _ _ _ _ Hal Hi)
    as (hdr' & _ & Hopen & _ & Hhdr' & _ & Ho & Hp & _).
  assert (hdr' = hdr) as -> by congruence.
  rewrite decide_True in Hp by done.
  destruct Hp as (msg & bytes & tag & Hmsg & Hbytes & Htag & Hp).
  exists msg, bytes, tag. eexists.
  split; [done|]. split; [done|]. split; [done|].
  split; [by rewrite Hp, lookup_insert_eq|].
  unfold RemovePubKey at 1. rewrite Hopen, Hp, lookup_insert_eq.
  split; [done|]. simpl.
  split; [by rewrite delete_insert_eq|].
  split; [done|].
  unfold FetchObjectByHash, fetchObjectByHash, RemovePubKey. simpl.
  by rewrite Hopen, Ho, lookup_insert_eq, lookup_delete_eq.
Qed.


(** *** Insert, then remove *)

(** Take a store with its four typed counters in which no counter holds a
    dangling hash, every key of a counter lies between 1 and the position of
    the counter, and no position exceeds [m], with [m + 1 < 2^64].  When
    [InsertObject] accepts an object that is not a public key and that the
    store does not hold, a following [RemoveObject] of the returned hash
    succeeds and gives back the contents of the store before the insert: the
    same hash index, the same tag index, and in every counter the same
    entries.  What stays of the insert is the position of the counter of the
    object's type, which remains the counter that the insert returned. *)
Theorem RemoveObject_undoes_InsertObject data sched hash n m hdr db db' :
  allocated db → noDangling db → inRange m db → m + 1 < 2 ^ 64 →
  objectsByHash db !! hash = None →
  InsertObject data db = (Ok (hash, n), db') →
  DecodeMsgObjectHeader data = Some hdr →
  objType hdr ≠ ObjectTypePubKey →
  ∃ db'',
    RemoveObject sched hash db' = (Ok tt, db'')
    ∧ objectsByHash db'' = objectsByHash db
    ∧ pubKeyByTag db'' = pubKeyByTag db
    ∧ counterOf (objType hdr) db''
      = Some (mkCounter
                (ByCounter (default (mkCounter ∅ 0) (counterOf (objType hdr) db)))
                n)
    ∧ (∀ t, t ≠ objType hdr → counterOf t db'' = counterOf t db).
Proof.
  intros Hal Hw Hr Hb Hnew Hi Hhdr Hpk.
  destruct (InsertObject_Ok_store _ _ _ _ _ Hal Hi)
    as (hdr' & _ & Hopen' & _ & Hhdr' & _ & Ho & Hp & Hc' & Hn & Hother).
  assert (hdr' = hdr) as -> by congruence.
  rewrite decide_False in Hp by done.
  set (c0 := default (mkCounter ∅ 0) (counterOf (objType hdr) db)) in *.
  (* the counter before the insert: below its position, and without [hash] *)
  assert (0 ≤ CounterPos c0 ≤ Z.max 0 m
          ∧ (∀ k h, ByCounter c0 !! k = Some h → 1 ≤ k ≤ CounterPos c0 ∧ h ≠ hash))
    as [Hpos Hkeys].
  { unfold c0. destruct (counterOf (objType hdr) db) as [c|] eqn:Hc; simpl.
    - destruct (Hr (objType hdr) c Hc) as [Hp0 Hk0]. split; [lia|].
      intros k h Hk. split; [by eapply Hk0|]. intros ->.
      destruct (Hw (objType hdr) c k hash Hc Hk) as [obj Hobj]. congruence.
    - split; [lia|]. intros k h. by rewrite lookup_empty. }
  assert (n = CounterPos c0 + 1) as Hn'.
  { rewrite Hn. unfold position, c0.
    assert (∀ p, 0 ≤ p ≤ Z.max 0 m → wrap64 (p + 1) = p + 1) as Hwrap
      by (intros p ?; unfold wrap64; apply Z.mod_small; lia).
    destruct (counterOf (objType hdr) db) as [c|]; simpl in *; by apply Hwrap. }
  assert (wrap64 (CounterPos c0 + 1) = n) as Hwrap
    by (rewrite Hn'; unfold wrap64; apply Z.mod_small; lia).
  assert (ByCounter c0 !! n = None) as Hslot.
  { destruct (ByCounter c0 !! n) as [h|] eqn:Hk; [|done].
    apply Hkeys in Hk as [? _]. lia. }
  unfold counter_Insert in Hc'. rewrite Hwrap in Hc'.
  unfold RemoveObject, removeFromCounter.
  rewrite Hopen', Ho, lookup_insert_eq, Hhdr, (getCounterMap_existing _ _ _ Hc').
  cbn [ByCounter CounterPos]. eexists. split; [done|].
  rewrite (deleteFirstMatch_delete _ hash _ n).
  - rewrite delete_insert_id by done.
    change (objectsByHash (set_objectsByHash ?m _)) with m.
    change (pubKeyByTag (set_objectsByHash _ ?d)) with (pubKeyByTag d).
    rewrite !set_objectsByHash_counterOf.
    split; [by rewrite setCounterMap_objectsByHash, Ho, delete_insert_id|].
    split; [by rewrite setCounterMap_pubKeyByTag|].
    split; [by rewrite setCounterMap_counterOf, decide_True|].
    intros t Hne. rewrite set_objectsByHash_counterOf.
    rewrite setCounterMap_counterOf, decide_False by done.
    by apply Hother.
  - apply rangeKeys_elem_of. by rewrite lookup_insert_eq.
  - apply lookup_insert_eq.
  - intros k2 [[? _]|[_ Hk]]%lookup_insert_Some; [done|].
    by apply Hkeys in Hk as [_ ?].
Qed.


(** *** A write to a fetched slice *)



End Stores.

(** ** The driver registry *)

Section Registry.
Context {Arg Db : Type}.
Implicit Types (drv : database.DriverDB Arg Db) (L : list (database.DriverDB Arg Db)).

Lemma findDriver_Some t L drv :
  database.findDriver t L = Some drv → drv ∈ L ∧ database.DbType drv = t.
Proof.
  induction L as [|d L IH]; simpl; [done|]. case_decide.
  - intros [= <-]. split; [apply list_elem_of_here|done].
  - intros [? ?]%IH. split; [by apply list_elem_of_further|done].
Qed.

Lemma findDriver_None t L :
  database.findDriver t L = None ↔ t ∉ database.SupportedDBs L.
Proof.
  unfold database.SupportedDBs. induction L as [|d L IH].
  { split; [intros _; apply not_elem_of_nil|done]. }
  rewrite fmap_cons, not_elem_of_cons. simpl. case_decide as Hd.
  - split; [done|]. intros [Hne _]. by destruct Hne.
  - rewrite IH. split; [by intros ?; split|by intros [_ ?]].
Qed.

Lemma findDriver_app t L1 L2 :
  database.findDriver t (L1 ++ L2)
  = match database.findDriver t L1 with
    | Some drv => Some drv
    | None => database.findDriver t L2
    end.
Proof. induction L1 as [|d L1 IH]; simpl; [done|]. by case_decide. Qed.

Lemma registry_snoc (ds : list (database.DriverDB Arg Db)) d :
  database.registry (ds ++ [d]) = database.AddDBDriver d (database.registry ds).
Proof. unfold database.registry. by rewrite foldl_app. Qed.

(** The registry finds for a type the first driver that was added for it. *)
Lemma findDriver_registry t (ds : list (database.DriverDB Arg Db)) :
  database.findDriver t (database.registry ds) = database.findDriver t ds.
Proof.
  induction ds as [|d ds IH] using rev_ind; [done|].
  rewrite registry_snoc. unfold database.AddDBDriver.
  rewrite (findDriver_app t ds [d]).
  destruct (database.findDriver (database.DbType d) (database.registry ds))
    as [d0|] eqn:Hd.
  - rewrite IH. destruct (database.findDriver t ds) as [d1|] eqn:Ht; [done|].
    simpl. case_decide as Heq; [|done]. subst t. congruence.
  - by rewrite findDriver_app, IH.
Qed.

Lemma registry_NoDup (ds : list (database.DriverDB Arg Db)) :
  NoDup (database.SupportedDBs (database.registry ds)).
Proof.
  induction ds as [|d ds IH] using rev_ind; [apply NoDup_nil_2|].
  rewrite registry_snoc. unfold database.AddDBDriver.
  destruct (database.findDriver (database.DbType d) (database.registry ds))
    as [d0|] eqn:Hd; [done|].
  apply findDriver_None in Hd. unfold database.SupportedDBs in *.
  rewrite fmap_app. apply list.NoDup_app. split; [done|]. split.
  - intros t Ht [->|Hin%not_elem_of_nil]%elem_of_cons; done.
  - apply NoDup_singleton.
Qed.

(** However many drivers are added and in whatever order, the registry lists
    no type twice, lists exactly the types of the drivers that were added,
    and [CreateDB] and [OpenDB] hand a type to the driver that was added
    first for it: an [AddDBDriver] for a type that is registered already is
    dropped. *)
Theorem AddDBDriver_first_wins (ds : list (database.DriverDB Arg Db)) t args :
  NoDup (database.SupportedDBs (database.registry ds))
  ∧ (t ∈ database.SupportedDBs (database.registry ds)
     ↔ ∃ drv, drv ∈ ds ∧ database.DbType drv = t)
  ∧ database.CreateDB t args (database.registry ds)
    = match database.findDriver t ds with
      | Some drv => database.DriverDB_CreateDB drv args
      | None => (None, Some (Sentinel ErrDbUnknownType))
      end
  ∧ database.OpenDB t args (database.registry ds)
    = match database.findDriver t ds with
      | Some drv => database.DriverDB_OpenDB drv args
      | None => (None, Some (Sentinel ErrDbUnknownType))
      end
  ∧ (∀ drv, database.findDriver t ds = Some drv →
       ∃ before after, ds = before ++ drv :: after
         ∧ database.DbType drv = t
         ∧ ∀ d, d ∈ before → database.DbType d ≠ t).
Proof.
  split; [apply registry_NoDup|]. split; [|split; [|split]].
  - split.
    + intros Hin. destruct (database.findDriver t (database.registry ds))
        as [drv|] eqn:Hf.
      * rewrite findDriver_registry in Hf. exists drv. by apply findDriver_Some.
      * by apply findDriver_None in Hf.
    + intros (drv & Hin & <-).
      destruct (database.findDriver (database.DbType drv) (database.registry ds))
        as [d0|] eqn:Hf.
      * apply findDriver_Some in Hf as [Hin0 <-].
        unfold database.SupportedDBs. apply list_elem_of_fmap. by exists d0.
      * rewrite findDriver_registry in Hf. apply findDriver_None in Hf.
        exfalso. apply Hf. unfold database.SupportedDBs.
        apply list_elem_of_fmap. by exists drv.
  - unfold database.CreateDB. by rewrite findDriver_registry.
  - unfold database.OpenDB. by rewrite findDriver_registry.
  - clear args. induction ds as [|d ds IH]; simpl; [done|]. intros drv.
    case_decide as Hd.
    + intros [= <-]. exists [], ds. split; [done|]. split; [done|].
      intros d' Hin. by apply not_elem_of_nil in Hin.
    + intros (before & after & -> & Ht & Hb)%IH.
      exists (d :: before), after. split; [done|]. split; [done|].
      intros d' [->|Hin]%elem_of_cons; [done|by apply Hb].
Qed.

End Registry.

(** ** The driver of the memory store *)

Section MemDriver.
Context {ShaHash : Type} `{Countable ShaHash} {Arg : Type}.

(** With the driver of the memory store registered first, as [init] does,
    and whatever is added afterwards: [CreateDB] and [OpenDB] for the type
    [memdb] both return a new, empty, open store when called without
    arguments, so that opening never yields a store that was filled before;
    with any argument they return no store and an error that names the
    function. *)
Theorem memdb_CreateDB_new
    (ds : list (database.DriverDB Arg (MemDb ShaHash))) (args : list Arg) :
  database.CreateDB "memdb" args (database.registry (memdb.driver :: ds))
  = match args with
    | [] => (Some newMemDb, None)
    | _ => (None, Some (Errorf "memdb.CreateDB does not accept any arguments"))
    end
  ∧ database.OpenDB "memdb" args (database.registry (memdb.driver :: ds))
  = match args with
    | [] => (Some newMemDb, None)
    | _ => (None, Some (Errorf "memdb.OpenDB does not accept any arguments"))
    end
  ∧ database.registry (memdb.driver :: ds)
    = foldl (λ driverList instance, database.AddDBDriver instance driverList)
        (memdb.init []) ds.
Proof.
  unfold database.CreateDB, database.OpenDB.
  rewrite findDriver_registry.
  assert (database.findDriver "memdb" (memdb.driver :: ds)
          = Some (memdb.driver (ShaHash := ShaHash) (Arg := Arg))) as ->.
  { reflexivity. }
  simpl. unfold memdb.OpenDB, memdb.CreateDB, memdb.parseArgs.
  split; [|split]; [by destruct args..|done].
Qed.

End MemDriver.

(** ** The earlier variant holds nothing *)

Section EarlierRuns.
Context {ShaHash : Type} `{Countable ShaHash} {Address Public : Type} {R : Runtime}.

Lemma rangeKeys_empty (sched : list Z) : rangeKeys sched (∅ : gmap Z ShaHash) = [].
Proof.
  destruct (rangeKeys sched (∅ : gmap Z ShaHash)) as [|k l] eqn:Hr; [done|].
  assert (k ∈ rangeKeys sched (∅ : gmap Z ShaHash)) as Hin
    by (rewrite Hr; apply list_elem_of_here).
  apply rangeKeys_elem_of in Hin as [? Hin]. by rewrite lookup_empty in Hin.
Qed.

Lemma Earlier_exec_store (c : EarlierCalls.call (ShaHash := ShaHash) (Address := Address)) db :
  (EarlierCalls.exec Public c db).2 = db
  ∨ (Earlier.closed db = false ∧ (EarlierCalls.exec Public c db).2 = (Earlier.Close db).2).
Proof.
  destruct c as [hash|hash|t n|sched t n count|addr|addr| |t|t data|hash|t n| | |];
    simpl; auto.
  - left. unfold Earlier.ExistsObject. destruct (Earlier.closed db); [done|].
    by destruct (Earlier.objectsByHash db !! hash).
  - left. unfold Earlier.FetchObjectByHash. by destruct (Earlier.closed db).
  - left. unfold Earlier.FetchObjectByCounter. destruct (Earlier.closed db); [done|].
    destruct (Earlier.getCounterMap t db) as [m|]; [|done].
    destruct (m !! n); [|done]. by destruct (Earlier.objectsByHash db !! _).
  - left. unfold Earlier.FetchObjectsFromCounter.
    destruct (Earlier.getCounterMap t db) as [m|]; [|done].
    case_decide; [done|].
    destruct (collectKeys _ _ _ _ _). destruct (list.last _); [|done].
    by destruct (Earlier.fetchKeys _ _ _).
  - left. unfold Earlier.Sync. by destruct (Earlier.closed db).
  - unfold Earlier.RollbackClose, Earlier.Close.
    destruct (Earlier.closed db); auto.
  - unfold Earlier.Close. destruct (Earlier.closed db); auto.
Qed.

Lemma Earlier_run_store (calls : list (EarlierCalls.call (ShaHash := ShaHash) (Address := Address))) :
  EarlierCalls.run Public calls Earlier.newMemDb = Earlier.newMemDb
  ∨ EarlierCalls.run Public calls Earlier.newMemDb = (Earlier.Close Earlier.newMemDb).2.
Proof.
  assert (∀ db : Earlier.MemDb (ShaHash := ShaHash),
            db = Earlier.newMemDb ∨ db = (Earlier.Close Earlier.newMemDb).2 →
            EarlierCalls.run Public calls db = Earlier.newMemDb
            ∨ EarlierCalls.run Public calls db = (Earlier.Close Earlier.newMemDb).2) as Hrun.
  { induction calls as [|c calls IH]; intros db Hdb; [done|]. simpl.
    assert ((EarlierCalls.exec Public c db).2 = Earlier.newMemDb
            ∨ (EarlierCalls.exec Public c db).2 = (Earlier.Close Earlier.newMemDb).2) as Hnext.
    { destruct (Earlier_exec_store c db) as [->|[Hopen ->]]; [done|].
      destruct Hdb as [->| ->]; [by right|done]. }
    destruct (EarlierCalls.exec Public c db) as [[|] db']; simpl in *; [by apply IH|done]. }
  apply Hrun. by left.
Qed.

(** The earlier variant has no method that stores anything, so a store
    reached from a new one by any calls of the interface is the new store or
    the closed one.  Its hash index is empty: on the open store every object
    is reported absent.  [FetchObjectsFromCounter] never returns a result
    there: for messages and broadcasts on the open store it panics, since
    the key list is empty, and in every other case it answers
    [ErrNotImplemented]. *)
Theorem Earlier_store_stays_empty
    (calls : list (EarlierCalls.call (ShaHash := ShaHash) (Address := Address))) sched t from count hash :
  (EarlierCalls.run Public calls Earlier.newMemDb = Earlier.newMemDb
   ∨ EarlierCalls.run Public calls Earlier.newMemDb = (Earlier.Close Earlier.newMemDb).2)
  ∧ Earlier.objectsByHash (EarlierCalls.run Public calls Earlier.newMemDb) = ∅
  ∧ (Earlier.closed (EarlierCalls.run Public calls Earlier.newMemDb) = false →
     (Earlier.ExistsObject hash (EarlierCalls.run Public calls Earlier.newMemDb)).1 = Ok false
     ∧ (Earlier.FetchObjectByHash hash (EarlierCalls.run Public calls Earlier.newMemDb)).1
       = Err ErrNonexistentObject)
  ∧ (Earlier.FetchObjectsFromCounter sched t from count
       (EarlierCalls.run Public calls Earlier.newMemDb)).1
    = if Earlier.closed (EarlierCalls.run Public calls Earlier.newMemDb)
      then Err ErrNotImplemented
      else if decide (t = ObjectTypeBroadcast ∨ t = ObjectTypeMsg) then Panic
      else Err ErrNotImplemented.
Proof.
  split; [apply Earlier_run_store|].
  destruct (Earlier_run_store calls) as [-> | ->].
  - split; [done|]. split.
    { intros _. unfold Earlier.ExistsObject, Earlier.FetchObjectByHash,
        Earlier.fetchObjectByHash. simpl. by rewrite lookup_empty. }
    unfold Earlier.FetchObjectsFromCounter, Earlier.getCounterMap. simpl.
    repeat case_decide; try done; try tauto; by rewrite rangeKeys_empty.
  - split; [done|]. split; [done|].
    unfold Earlier.FetchObjectsFromCounter, Earlier.getCounterMap. simpl.
    by repeat case_decide.
Qed.

End EarlierRuns.

(** ** The RPC methods *)

Section Authentication.
Variable Sum256 : string → list byte.
Variables rpcStateIsAuthenticated rpcStateIsAdmin : string.

Lemma ConstantTimeCompare_1 x y : ConstantTimeCompare x y = 1 ↔ x = y.
Proof. unfold ConstantTimeCompare. by case_decide. Qed.

(** [handleAuth] never returns an error.  It reports success exactly when the
    digest of [Username:Password] is one of the two digests of the server,
    and then marks the client as authenticated; the client is an
    administrator only if the digest is not the one of the limited user, so
    that a server whose two logins coincide has no administrator.  A failed
    attempt leaves the state of the client as it was: a client that was
    authenticated before stays so.  No other key of the state is written. *)
Theorem handleAuth_outcome s in_ c :
  rpcStateIsAuthenticated ≠ rpcStateIsAdmin →
  (handleAuth Sum256 rpcStateIsAuthenticated rpcStateIsAdmin s in_ c).1.2 = None
  ∧ ((handleAuth Sum256 rpcStateIsAuthenticated rpcStateIsAdmin s in_ c).1.1 = true
     ↔ Sum256 (Username in_ +:+ ":" +:+ Password in_) = limitauthsha s
       ∨ Sum256 (Username in_ +:+ ":" +:+ Password in_) = authsha s)
  ∧ ((handleAuth Sum256 rpcStateIsAuthenticated rpcStateIsAdmin s in_ c).1.1 = true →
     (handleAuth Sum256 rpcStateIsAuthenticated rpcStateIsAdmin s in_ c).2
       !! rpcStateIsAuthenticated = Some true
     ∧ (handleAuth Sum256 rpcStateIsAuthenticated rpcStateIsAdmin s in_ c).2
         !! rpcStateIsAdmin
       = Some (bool_decide
                 (Sum256 (Username in_ +:+ ":" +:+ Password in_) ≠ limitauthsha s)))
  ∧ ((handleAuth Sum256 rpcStateIsAuthenticated rpcStateIsAdmin s in_ c).1.1 = false →
     (handleAuth Sum256 rpcStateIsAuthenticated rpcStateIsAdmin s in_ c).2 = c)
  ∧ (∀ key, key ≠ rpcStateIsAuthenticated → key ≠ rpcStateIsAdmin →
       (handleAuth Sum256 rpcStateIsAuthenticated rpcStateIsAdmin s in_ c).2 !! key
       = c !! key).
Proof.
  intros Hkeys. unfold handleAuth.
  set (digest := Sum256 (Username in_ +:+ ":" +:+ Password in_)).
  destruct (decide (ConstantTimeCompare digest (limitauthsha s) = 1)) as [Hl|Hl];
    [|destruct (decide (ConstantTimeCompare digest (authsha s) = 1)) as [Ha|Ha]];
    rewrite ?ConstantTimeCompare_1 in *; simpl.
  - split; [done|]. split; [by split; auto|]. split; [|split; [done|]].
    + intros _. rewrite lookup_insert_ne, lookup_insert_eq by done.
      rewrite lookup_insert_eq. split; [done|]. by rewrite bool_decide_eq_false_2 by auto.
    + intros key ? ?. by rewrite !lookup_insert_ne.
  - split; [done|]. split; [by split; auto|]. split; [|split; [done|]].
    + intros _. rewrite lookup_insert_ne, lookup_insert_eq by done.
      rewrite lookup_insert_eq. split; [done|]. by rewrite bool_decide_eq_true_2.
    + intros key ? ?. by rewrite !lookup_insert_ne.
  - split; [done|]. split; [|split; [done|split; done]].
    split; [done|]. intros [?|?]; done.
Qed.

Lemma append_assoc (a b c : string) : (a +:+ b) +:+ c = a +:+ b +:+ c.
Proof.
  induction a as [|x a IH]; [done|].
  change (String x ((a +:+ b) +:+ c) = String x (a +:+ b +:+ c)). by rewrite IH.
Qed.

(** [handleAuth] sees the login only as [Username:Password] joined: a colon
    may move from the password into the user name without any change in
    what the method does. *)
Theorem handleAuth_joined_login s u p q c :
  handleAuth Sum256 rpcStateIsAuthenticated rpcStateIsAdmin s
    (mkRPCAuthParams (u +:+ ":" +:+ p) q) c
  = handleAuth Sum256 rpcStateIsAuthenticated rpcStateIsAdmin s
      (mkRPCAuthParams u (p +:+ ":" +:+ q)) c.
Proof.
  assert ((u +:+ ":" +:+ p) +:+ ":" +:+ q = u +:+ ":" +:+ p +:+ ":" +:+ q) as Hlogin
    by (by rewrite !append_assoc).
  unfold handleAuth. cbn [Username Password]. by rewrite Hlogin.
Qed.

End Authentication.

Section Objects.
Context {ShaHash : Type} `{Countable ShaHash} {W : Wire ShaHash} {R : Runtime}.
Variable base64Decode : string → option (list byte).
Variable streamNumber : list byte → Z.
Variable powCheck : list byte → Z → bool.

(** [sendObject] does not panic, and it writes to the store only by one
    successful [InsertObject] of the decoded input.  When it returns no
    error, the caller was let through by [restrictAuth], the input decoded
    to an object whose header decodes, which had not expired at the first
    reading of the clock, belongs to stream 1 and passed the proof-of-work
    check; the store holds the object under the inventory hash that was
    relayed, and the counter handed back is the one [InsertObject] returned.
    When it returns an error, the store is as it was and nothing was
    relayed. *)
Theorem sendObject_stores_valid restricted now powNow in_ counter db :
  match sendObject base64Decode streamNumber powCheck restricted now powNow
          in_ counter db with
  | (Some (None, n, relayed), db') =>
      ∃ data hdr hash,
        restricted = None ∧ base64Decode in_ = Some data
        ∧ DecodeMsgObjectHeader data = Some hdr
        ∧ now ≤ expiresTime hdr ∧ streamNumber data = 1
        ∧ powCheck data powNow = true
        ∧ InsertObject data db = (Ok (hash, n), db')
        ∧ relayed = Some hash
        ∧ FetchObjectByHash hash db' = (Ok data, db')
  | (Some (Some _, n, relayed), db') =>
      db' = db ∧ relayed = None ∧ (n = counter ∨ n = 0)
  | (None, _) => False
  end.
Proof.
  unfold sendObject. destruct restricted as [err|]; [simpl; auto|].
  destruct (base64Decode in_) as [data|] eqn:Hdata; [|simpl; auto].
  destruct (DecodeMsgObjectHeader data) as [hdr|] eqn:Hhdr; [|simpl; auto].
  case_decide as Hexp; [simpl; auto|]. case_decide as Hstream; [simpl; auto|].
  destruct (powCheck data powNow) eqn:Hpow; simpl; [|auto].
  destruct (InsertObject data db) as [[[hash n]|e|] db'] eqn:Hi.
  - exists data, hdr, hash.
    destruct (InsertObject_stored _ _ _ _ _ Hi) as (Hopen & Hhash & Hobj).
    repeat split; try done; try lia.
    unfold FetchObjectByHash, fetchObjectByHash. by rewrite Hopen, Hobj.
  - apply InsertObject_Err_inv in Hi as ->. simpl. auto.
  - pose proof (InsertObject_never_panics data db) as Hn. by rewrite Hi in Hn.
Qed.

End Objects.

Section Identities.
Context {ShaHash : Type} `{Countable ShaHash} {R : Runtime}.
Context {bmutil_Address identity_Public : Type}.
Variable DecodeAddress : string → option bmutil_Address.
Variables pubNonceTrialsPerByte pubExtraBytes : identity_Public → Z.
Variables pubEncryptionKey pubSigningKey : identity_Public → list byte.
Variable base64Encode : list byte → string.

(** With the memory store as the server's database [getId] never hands out
    an identity: [FetchIdentityByAddress] is not implemented, so for every
    caller that [restrictAuth] lets through and every address that decodes,
    open store or closed, the method returns the error [database error],
    not [identity not found].  The value at [id] and the store are never
    written. *)
Theorem getId_never_succeeds restricted addr id (db : MemDb ShaHash) :
  getId DecodeAddress pubNonceTrialsPerByte pubExtraBytes pubEncryptionKey
    pubSigningKey base64Encode restricted addr id db
  = (Some (Some match restricted with
                | Some err => err
                | None =>
                    match DecodeAddress addr with
                    | None => fmtErrorf "address decode failed: %v"
                    | Some _ => errorsNew "database error"
                    end
                end, id), db).
Proof.
  unfold getId, FetchIdentityByAddress. destruct restricted as [err|]; [done|].
  by destruct (DecodeAddress addr).
Qed.

End Identities.

Section Subscriptions.
Context {ShaHash : Type} `{Countable ShaHash} {W : Wire ShaHash} {Id : Type} {R : Runtime}.
Variable rpcCounterObjectsSize : Z.
Variables rpcEvtNewMessage rpcClientHandleMessage : string.
Variables rpcEvtNewBroadcast rpcClientHandleBroadcast : string.
Variables rpcEvtNewGetpubkey rpcClientHandleGetpubkey : string.
Variables rpcEvtNewPubkey rpcClientHandlePubkey : string.
Variables rpcEvtNewUnknownObj rpcClientHandleUnknownObj : string.

Lemma handleSubscribe_typed restricted (id : Id) scheds t args evt clientHandler
    evtMgr (db : MemDb ShaHash) :
  wellTyped db →
  subscribed restricted id evt clientHandler evtMgr t
    (handleSubscribe rpcCounterObjectsSize restricted id scheds t args evt
       clientHandler evtMgr db).
Proof.
  intros Hw. unfold subscribed, handleSubscribe. destruct restricted as [err|]; [done|].
  destruct (sendOldObjects scheds t (FromCounter args) rpcCounterObjectsSize db)
    as [pages p] eqn:Hs.
  split; [done|]. split; [done|]. by eapply sendOldObjects_typed.
Qed.

(** On a store whose counter entries are typed, a subscription sends old
    objects of its own type only: messages, broadcasts, getpubkey requests
    and public keys for the four typed subscriptions, and for
    [subscribeUnknownObjects] objects whose header carries the type 999999,
    so that an object of any other unknown type is not sent to the
    subscriber.  A caller that [restrictAuth] lets through is added to the
    event manager before the old objects are fetched, and stays added when
    fetching them fails; a caller that is refused is not added. *)
Theorem subscriptions_are_typed restricted (id : Id) scheds args evtMgr
    (db : MemDb ShaHash) :
  wellTyped db →
  subscribed restricted id rpcEvtNewMessage rpcClientHandleMessage evtMgr
    ObjectTypeMsg
    (subscribeMessages rpcCounterObjectsSize rpcEvtNewMessage
       rpcClientHandleMessage restricted id scheds args evtMgr db)
  ∧ subscribed restricted id rpcEvtNewBroadcast rpcClientHandleBroadcast evtMgr
      ObjectTypeBroadcast
      (subscribeBroadcasts rpcCounterObjectsSize rpcEvtNewBroadcast
         rpcClientHandleBroadcast restricted id scheds args evtMgr db)
  ∧ subscribed restricted id rpcEvtNewGetpubkey rpcClientHandleGetpubkey evtMgr
      ObjectTypeGetPubKey
      (subscribeGetpubkeys rpcCounterObjectsSize rpcEvtNewGetpubkey
         rpcClientHandleGetpubkey restricted id scheds args evtMgr db)
  ∧ subscribed restricted id rpcEvtNewPubkey rpcClientHandlePubkey evtMgr
      ObjectTypePubKey
      (subscribePubkeys rpcCounterObjectsSize rpcEvtNewPubkey
         rpcClientHandlePubkey restricted id scheds args evtMgr db)
  ∧ subscribed restricted id rpcEvtNewUnknownObj rpcClientHandleUnknownObj evtMgr
      999999
      (subscribeUnknownObjects rpcCounterObjectsSize rpcEvtNewUnknownObj
         rpcClientHandleUnknownObj restricted id scheds args evtMgr db).
Proof.
  intros Hw. repeat split; by apply handleSubscribe_typed.
Qed.

End Subscriptions.

(** ** The properties on the sample stores *)

Lemma Sample_dbAB_consistent : consistent (W := Sample.wire) Sample.dbAB.
Proof.
  unfold Sample.dbAB, Sample.insert.
  apply consistent_InsertObject; [apply consistent_InsertObject|].
  - apply consistent_newMemDb.
  - intros hash Hh. vm_compute in Hh. inversion Hh. reflexivity.
  - intros hash Hh. vm_compute in Hh. inversion Hh. vm_compute. reflexivity.
Qed.

Lemma Sample_calls_fresh : freshCalls (R := Sample.runtime) (W := Sample.wire) Sample.calls newMemDb.
Proof.
  unfold Sample.calls. cbn [freshCalls freshInsert].
  repeat split; intros hash Hh; vm_compute in Hh; inversion Hh;
    vm_compute; reflexivity.
Qed.

(** After the calls of [Sample.calls] the message counter holds the key 3
    only, at position 3. *)
Lemma counter_keys_in_range_witness :
  counterOf ObjectTypeMsg Sample.dbCalls
    = Some (mkCounter {[ 3 := Sample.hashOf Sample.msgC ]} 3)
  ∧ 1 ≤ 3 ≤ 3
  ∧ GetCounter ObjectTypeMsg Sample.dbCalls = (Ok 3, Sample.dbCalls).
Proof.
  assert (Z.of_nat (length Sample.calls) < 2 ^ 64) as Hb by (vm_compute; reflexivity).
  assert (counterOf ObjectTypeMsg (run (R := Sample.runtime) (W := Sample.wire) Sample.calls newMemDb)
          = Some (mkCounter {[ 3 := Sample.hashOf Sample.msgC ]} 3)) as Hc
    by (vm_compute; reflexivity).
  assert (ByCounter (mkCounter {[ 3 := Sample.hashOf Sample.msgC ]} 3) !! 3
          = Some (Sample.hashOf Sample.msgC)) as Hk by (vm_compute; reflexivity).
  assert (closed (run (R := Sample.runtime) (W := Sample.wire) Sample.calls newMemDb) = false) as Hopen
    by (vm_compute; reflexivity).
  destruct (counter_keys_in_range (W := Sample.wire) Sample.calls ObjectTypeMsg
              _ 3 _ Hb Hc Hk) as (Hrange & _ & Hget).
  split; [exact Hc|]. split; [exact Hrange|]. exact (Hget Hopen).
Defined.

(** The store that the calls of [Sample.calls] leave is consistent, the
    header of each of its objects decodes, and it has its typed counters. *)
Lemma Sample_dbCalls_sound :
  consistent (W := Sample.wire) Sample.dbCalls
  ∧ decodable (W := Sample.wire) Sample.dbCalls
  ∧ allocated Sample.dbCalls
  ∧ inRange 6 Sample.dbCalls.
Proof.
  split; [|split; [|split]].
  - exact (run_consistent (R := Sample.runtime) (W := Sample.wire) Sample.calls
             newMemDb consistent_newMemDb Sample_calls_fresh).
  - exact (proj1 (proj2 (proj1
      (run_valid (R := Sample.runtime) (W := Sample.wire) Sample.calls newMemDb
         (λ _, newMemDb_allocated) valid_newMemDb)))).
  - repeat split; vm_compute; eexists; reflexivity.
  - assert (inRange 0 (newMemDb (ShaHash := list N))) as Hr0.
    { intros t' c'. unfold counterOf, newMemDb. simpl.
      repeat case_decide; intros [= <-]; simpl; (split; [lia|]);
        intros k' h; by rewrite ?lookup_empty. }
    exact (run_inRange (R := Sample.runtime) (W := Sample.wire) 0 Sample.calls
             newMemDb (λ _, newMemDb_allocated) (Z.le_refl 0) eq_refl Hr0).
Qed.


(** On a new store: [msgA] is inserted and fetched back by its counter. *)
Lemma FetchObjectByCounter_InsertObject_witness :
  InsertObject (W := Sample.wire) Sample.msgA Sample.db0
    = (Ok (Sample.hashOf Sample.msgA, 1), Sample.insert Sample.msgA Sample.db0)
  ∧ FetchObjectByCounter ObjectTypeMsg 1 (Sample.insert Sample.msgA Sample.db0)
    = (Ok Sample.msgA, Sample.insert Sample.msgA Sample.db0).
Proof.
  assert (allocated Sample.db0) as Hal by apply newMemDb_allocated.
  assert (InsertObject (W := Sample.wire) Sample.msgA Sample.db0
    = (Ok (Sample.hashOf Sample.msgA, 1), Sample.insert Sample.msgA Sample.db0))
    as Hi by (vm_compute; reflexivity).
  split; [exact Hi|].
  destruct (FetchObjectByCounter_InsertObject (W := Sample.wire) _ _ _ _ _ Hal Hi)
    as (hdr & Hhdr & Hfetch & _).
  vm_compute in Hhdr. inversion Hhdr; subst hdr. exact Hfetch.
Defined.

(** [msgA] is removed from the store that holds [msgA] and [msgB]. *)
Lemma RemoveObject_removes_witness :
  ∃ db',
    RemoveObject (W := Sample.wire) [] (Sample.hashOf Sample.msgA) Sample.dbAB
      = (Ok tt, db')
    ∧ objectsByHash db' = {[ Sample.hashOf Sample.msgB := Sample.msgB ]}
    ∧ ExistsObject (Sample.hashOf Sample.msgA) db' = (Ok false, db').
Proof.
  assert (closed Sample.dbAB = false) as Hopen by reflexivity.
  assert (objectsByHash Sample.dbAB !! Sample.hashOf Sample.msgA = Some Sample.msgA)
    as Hobj by (vm_compute; reflexivity).
  assert (is_Some (DecodeMsgObjectHeader (Wire := Sample.wire) Sample.msgA)) as Hdec
    by (vm_compute; eauto).
  destruct (RemoveObject_removes (W := Sample.wire) [] [] _ _ _ Hopen Hobj Hdec)
    as (db' & Hr & Ho & _ & He & _).
  exists db'. split; [exact Hr|]. split; [|exact He].
  rewrite Ho. vm_compute. reflexivity.
Defined.

(** The message at counter 1 is removed from the store that holds [msgA] and
    [msgB]. *)
Lemma RemoveObjectByCounter_removes_witness :
  ∃ db',
    RemoveObjectByCounter ObjectTypeMsg 1 Sample.dbAB = (Ok tt, db')
    ∧ counterOf ObjectTypeMsg db'
      = Some (mkCounter {[ 2 := Sample.hashOf Sample.msgB ]} 2)
    ∧ FetchObjectByCounter ObjectTypeMsg 1 db' = (Err ErrNonexistentObject, db').
Proof.
  assert (closed Sample.dbAB = false) as Hopen by reflexivity.
  assert (counterOf ObjectTypeMsg Sample.dbAB = Some Sample.counterAB) as Hc
    by (vm_compute; reflexivity).
  assert (ByCounter Sample.counterAB !! 1 = Some (Sample.hashOf Sample.msgA)) as Hk
    by (vm_compute; reflexivity).
  destruct (RemoveObjectByCounter_removes ObjectTypeMsg 1 _ _ _ Hopen Hc Hk)
    as (db' & Hr & _ & _ & Hc' & _ & Hf & _).
  exists db'. split; [exact Hr|]. split; [|exact Hf].
  rewrite Hc'. vm_compute. reflexivity.
Defined.

(** On the store that holds [msgA] and [msgB]: removing [msgA] by its hash,
    with the range visiting key 2 first, and removing the message at
    counter 1. *)
Lemma removals_agree_witness :
  RemoveObject (W := Sample.wire) [2; 1] (Sample.hashOf Sample.msgA) Sample.dbAB
  = RemoveObjectByCounter ObjectTypeMsg 1 Sample.dbAB.
Proof.
  assert (closed Sample.dbAB = false) as Hopen by reflexivity.
  assert (counterOf ObjectTypeMsg Sample.dbAB = Some Sample.counterAB) as Hc
    by (vm_compute; reflexivity).
  assert (ByCounter Sample.counterAB !! 1 = Some (Sample.hashOf Sample.msgA)) as Hk
    by (vm_compute; reflexivity).
  exact (removals_agree (W := Sample.wire) [2; 1] ObjectTypeMsg 1 _ _ _
           Sample_dbAB_consistent Hopen Hc Hk).
Defined.

(** The two messages fetched from the store that holds [msgA] and [msgB] are
    messages. *)
Lemma fetches_are_typed_witness :
  FetchObjectsFromCounter (R := Sample.runtime) [] ObjectTypeMsg 1 10 Sample.dbAB
    = (Ok ([Sample.msgA; Sample.msgB], 2), Sample.dbAB)
  ∧ allOfType (W := Sample.wire) ObjectTypeMsg [Sample.msgA; Sample.msgB].
Proof.
  assert (FetchObjectsFromCounter (R := Sample.runtime) [] ObjectTypeMsg 1 10 Sample.dbAB
    = (Ok ([Sample.msgA; Sample.msgB], 2), Sample.dbAB)) as Hf
    by (vm_compute; reflexivity).
  split; [exact Hf|].
  exact (proj2 (fetches_are_typed (W := Sample.wire) [] ObjectTypeMsg 1 10 0
                  Sample.dbAB (proj1 Sample_dbAB_consistent)) _ _ _ Hf).
Defined.

(** The public key [keyA] is inserted, its tag is removed from the tag
    index, and the key is still fetched by its hash. *)
Lemma RemovePubKey_InsertObject_witness :
  ∃ tag db'',
    pubKeyByTag Sample.dbFull !! tag = Some Sample.keyA
    ∧ RemovePubKey tag Sample.dbFull = (Ok tt, db'')
    ∧ FetchObjectByHash (Sample.hashOf Sample.keyA) db'' = (Ok Sample.keyA, db'').
Proof.
  assert (allocated Sample.dbABC) as Hal
    by (repeat split; vm_compute; eexists; reflexivity).
  assert (InsertObject (W := Sample.wire) Sample.keyA Sample.dbABC
    = (Ok (Sample.hashOf Sample.keyA, 1), Sample.dbFull)) as Hi
    by (vm_compute; reflexivity).
  assert (DecodeMsgObjectHeader (Wire := Sample.wire) Sample.keyA
          = Some (mkObjHeader (1 * Hour) ObjectTypePubKey)) as Hhdr
    by (vm_compute; reflexivity).
  destruct (RemovePubKey_InsertObject (W := Sample.wire) _ _ _ _ _ _ Hal Hi Hhdr
              eq_refl)
    as (msg & bytes & tag & db'' & _ & _ & _ & Htag & Hr & _ & _ & Hf & _).
  exists tag, db''. split; [exact Htag|]. split; [exact Hr|exact Hf].
Defined.

(** The administrator logs in on a client whose state is empty. *)
Lemma handleAuth_outcome_witness :
  "isAuthenticated" ≠ "isAdmin"
  ∧ (handleAuth Sample.digest "isAuthenticated" "isAdmin" Sample.server
       (mkRPCAuthParams "admin" "secret") ∅).2 !! "isAdmin" = Some true.
Proof.
  assert ("isAuthenticated" ≠ "isAdmin") as Hkeys by discriminate.
  split; [exact Hkeys|].
  destruct (handleAuth_outcome Sample.digest "isAuthenticated" "isAdmin"
              Sample.server (mkRPCAuthParams "admin" "secret") ∅ Hkeys)
    as (_ & _ & Hsuccess & _).
  assert ((handleAuth Sample.digest "isAuthenticated" "isAdmin" Sample.server
             (mkRPCAuthParams "admin" "secret") ∅).1.1 = true) as Hs
    by (vm_compute; reflexivity).
  destruct (Hsuccess Hs) as [_ Hadmin]. rewrite Hadmin. vm_compute. reflexivity.
Defined.

(** A subscription to unknown objects on the store that holds two messages
    sends one empty page. *)
Lemma subscriptions_are_typed_witness :
  subscribeUnknownObjects (R := Sample.runtime) (ShaHash := list N) 10 "NewUnknownObject"
    "ReceiveUnknownObject" None 7 [[]] (mkRPCSubscribeArgs 0) [] Sample.dbAB
  = (inr ([[]], Finished),
     [mkListener "NewUnknownObject" "ReceiveUnknownObject" 7])
  ∧ subscribed (W := Sample.wire) None 7 "NewUnknownObject" "ReceiveUnknownObject"
      [] 999999
      (subscribeUnknownObjects (R := Sample.runtime) 10 "NewUnknownObject" "ReceiveUnknownObject"
         None 7 [[]] (mkRPCSubscribeArgs 0) [] Sample.dbAB).
Proof.
  split; [vm_compute; reflexivity|].
  exact (proj2 (proj2 (proj2 (proj2
    (subscriptions_are_typed (W := Sample.wire) 10 "NewMessage" "ReceiveMessage"
       "NewBroadcast" "ReceiveBroadcast" "NewGetpubkey" "ReceiveGetpubkey"
       "NewPubkey" "ReceivePubkey" "NewUnknownObject" "ReceiveUnknownObject"
       None 7 [[]] (mkRPCSubscribeArgs 0) [] Sample.dbAB
       (proj1 Sample_dbAB_consistent)))))).
Defined.

(** After the calls of [Sample.calls], [msgA], which was removed on the way,
    is inserted again and removed: the hash index is as before. *)
Lemma RemoveObject_undoes_InsertObject_witness :
  ∃ db' db'',
    InsertObject (W := Sample.wire) Sample.msgA Sample.dbCalls
      = (Ok (Sample.hashOf Sample.msgA, 4), db')
    ∧ RemoveObject (W := Sample.wire) [] (Sample.hashOf Sample.msgA) db'
      = (Ok tt, db'')
    ∧ objectsByHash db'' = objectsByHash Sample.dbCalls.
Proof.
  assert (6 + 1 < 2 ^ 64) as Hb by (vm_compute; reflexivity).
  assert (objectsByHash Sample.dbCalls !! Sample.hashOf Sample.msgA = None) as Hnew
    by (vm_compute; reflexivity).
  assert (InsertObject (W := Sample.wire) Sample.msgA Sample.dbCalls
          = (Ok (Sample.hashOf Sample.msgA, 4),
             Sample.insert Sample.msgA Sample.dbCalls)) as Hi
    by (vm_compute; reflexivity).
  destruct Sample_dbCalls_sound as ([Hw _] & _ & Hal & Hr).
  assert (DecodeMsgObjectHeader (Wire := Sample.wire) Sample.msgA
          = Some (mkObjHeader (1 * Hour) ObjectTypeMsg)) as Hhdr
    by (vm_compute; reflexivity).
  assert (ObjectTypeMsg ≠ ObjectTypePubKey) as Hpk by discriminate.
  destruct (RemoveObject_undoes_InsertObject (W := Sample.wire)
              Sample.msgA [] _ _ 6 _ Sample.dbCalls _ Hal
              (wellTyped_noDangling _ Hw) Hr Hb Hnew Hi Hhdr Hpk)
    as (db'' & Hrm & Ho & _).
  exists (Sample.insert Sample.msgA Sample.dbCalls), db''.
  split; [exact Hi|]. split; [exact Hrm|exact Ho].
Defined.

